(** * Share configuration cache of the cifsd/ksmbd server (mgmt/share_config.c)

    A shallow embedding of [mgmt/share_config.c]: the table of share
    configurations, the fetch path that builds an entry from the user-space
    response, the veto list and the credential override.

    Kernel objects live in an explicit store; the functions of the C file
    are computations of a small state monad over that store.  Calls that
    leave the file (the allocator, the IPC request, [kern_path],
    [match_wildcard], the credential primitives) are parameters of the
    development, and every such call is recorded in a trace. *)

From Stdlib Require Import ZArith Lia List Ascii.
From stdpp Require Import base decidable option list gmap strings.

Local Open Scope Z_scope.

(** ** Machine integers *)

(** [int] is 32 bits wide, two's complement.  [to_int] is the conversion of
    an arbitrary integer value to [int] (what a store into an [int] or an
    [int] operation that overflows yields with the kernel's [-fwrapv]). *)
Definition to_int (z : Z) : Z := (z + 2 ^ 31) mod 2 ^ 32 - 2 ^ 31.

Definition ENOMEM : Z := 12.

(** [(__u16)-1] *)
Definition SHARE_INVALID_UID : Z := (-1) mod 2 ^ 16.
Definition SHARE_INVALID_GID : Z := (-1) mod 2 ^ 16.

(** ** Strings *)

(** A C string value is represented by the characters before its
    terminator.  Raw memory that is scanned for terminators (the veto
    buffer of a response) is a list of characters too, terminators
    included. *)
Definition NUL : ascii := Ascii.zero.

(** [strlen] on raw memory: the number of characters before the first
    terminator.  Memory that ends without one makes the scan leave the
    object, which is reported as [None]. *)
Fixpoint strlen (mem : list ascii) : option Z :=
  match mem with
  | [] => None
  | c :: mem' => if decide (c = NUL) then Some 0 else Z.succ <$> strlen mem'
  end.

(** The same scan started [off] characters into [mem]. *)
Definition strlen_at (mem : list ascii) (off : Z) : option Z :=
  if off <? 0 then None else strlen (drop (Z.to_nat off) mem).

(** The characters [kstrdup] copies from offset [off]: [len] of them. *)
Definition string_at (mem : list ascii) (off len : Z) : list ascii :=
  take (Z.to_nat len) (drop (Z.to_nat off) mem).

(** ** Data *)

(** [struct ksmbd_share_config].  [sc_name] and [sc_path] are pointers
    that may be [NULL]; [sc_veto_list] is the kernel list headed at
    [veto_list], first element first; [sc_vfs_path] stands for the
    [struct path] filled in by [kern_path]. *)
Record ksmbd_share_config := mk_share {
  sc_name : option (list ascii);
  sc_path : option (list ascii);
  sc_path_sz : Z;
  sc_flags : Z;
  sc_veto_list : list (list ascii);
  sc_vfs_path : Z;
  sc_refcount : Z;
  sc_create_mask : Z;
  sc_directory_mask : Z;
  sc_force_create_mode : Z;
  sc_force_directory_mode : Z;
  sc_force_uid : Z;
  sc_force_gid : Z
}.

Definition set_name v s := mk_share v (sc_path s) (sc_path_sz s) (sc_flags s) (sc_veto_list s) (sc_vfs_path s) (sc_refcount s) (sc_create_mask s) (sc_directory_mask s) (sc_force_create_mode s) (sc_force_directory_mode s) (sc_force_uid s) (sc_force_gid s).
Definition set_path v s := mk_share (sc_name s) v (sc_path_sz s) (sc_flags s) (sc_veto_list s) (sc_vfs_path s) (sc_refcount s) (sc_create_mask s) (sc_directory_mask s) (sc_force_create_mode s) (sc_force_directory_mode s) (sc_force_uid s) (sc_force_gid s).
Definition set_path_sz v s := mk_share (sc_name s) (sc_path s) v (sc_flags s) (sc_veto_list s) (sc_vfs_path s) (sc_refcount s) (sc_create_mask s) (sc_directory_mask s) (sc_force_create_mode s) (sc_force_directory_mode s) (sc_force_uid s) (sc_force_gid s).
Definition set_flags v s := mk_share (sc_name s) (sc_path s) (sc_path_sz s) v (sc_veto_list s) (sc_vfs_path s) (sc_refcount s) (sc_create_mask s) (sc_directory_mask s) (sc_force_create_mode s) (sc_force_directory_mode s) (sc_force_uid s) (sc_force_gid s).
Definition set_veto_list v s := mk_share (sc_name s) (sc_path s) (sc_path_sz s) (sc_flags s) v (sc_vfs_path s) (sc_refcount s) (sc_create_mask s) (sc_directory_mask s) (sc_force_create_mode s) (sc_force_directory_mode s) (sc_force_uid s) (sc_force_gid s).
Definition set_vfs_path v s := mk_share (sc_name s) (sc_path s) (sc_path_sz s) (sc_flags s) (sc_veto_list s) v (sc_refcount s) (sc_create_mask s) (sc_directory_mask s) (sc_force_create_mode s) (sc_force_directory_mode s) (sc_force_uid s) (sc_force_gid s).
Definition set_refcount v s := mk_share (sc_name s) (sc_path s) (sc_path_sz s) (sc_flags s) (sc_veto_list s) (sc_vfs_path s) v (sc_create_mask s) (sc_directory_mask s) (sc_force_create_mode s) (sc_force_directory_mode s) (sc_force_uid s) (sc_force_gid s).
Definition set_create_mask v s := mk_share (sc_name s) (sc_path s) (sc_path_sz s) (sc_flags s) (sc_veto_list s) (sc_vfs_path s) (sc_refcount s) v (sc_directory_mask s) (sc_force_create_mode s) (sc_force_directory_mode s) (sc_force_uid s) (sc_force_gid s).
Definition set_directory_mask v s := mk_share (sc_name s) (sc_path s) (sc_path_sz s) (sc_flags s) (sc_veto_list s) (sc_vfs_path s) (sc_refcount s) (sc_create_mask s) v (sc_force_create_mode s) (sc_force_directory_mode s) (sc_force_uid s) (sc_force_gid s).
Definition set_force_create_mode v s := mk_share (sc_name s) (sc_path s) (sc_path_sz s) (sc_flags s) (sc_veto_list s) (sc_vfs_path s) (sc_refcount s) (sc_create_mask s) (sc_directory_mask s) v (sc_force_directory_mode s) (sc_force_uid s) (sc_force_gid s).
Definition set_force_directory_mode v s := mk_share (sc_name s) (sc_path s) (sc_path_sz s) (sc_flags s) (sc_veto_list s) (sc_vfs_path s) (sc_refcount s) (sc_create_mask s) (sc_directory_mask s) (sc_force_create_mode s) v (sc_force_uid s) (sc_force_gid s).
Definition set_force_uid v s := mk_share (sc_name s) (sc_path s) (sc_path_sz s) (sc_flags s) (sc_veto_list s) (sc_vfs_path s) (sc_refcount s) (sc_create_mask s) (sc_directory_mask s) (sc_force_create_mode s) (sc_force_directory_mode s) v (sc_force_gid s).
Definition set_force_gid v s := mk_share (sc_name s) (sc_path s) (sc_path_sz s) (sc_flags s) (sc_veto_list s) (sc_vfs_path s) (sc_refcount s) (sc_create_mask s) (sc_directory_mask s) (sc_force_create_mode s) (sc_force_directory_mode s) (sc_force_uid s) v.

(** [struct ksmbd_share_config_response], as the accessors of the IPC
    header present it: the scalar fields, the memory the veto-list
    accessor points at and the string the path accessor points at. *)
Record ksmbd_share_config_response := mk_resp {
  resp_flags : Z;
  resp_create_mask : Z;
  resp_directory_mask : Z;
  resp_force_create_mode : Z;
  resp_force_directory_mode : Z;
  resp_force_uid : Z;
  resp_force_gid : Z;
  resp_veto_list_sz : Z;
  resp_veto_list : list ascii;
  resp_path : list ascii
}.

(** ** Calls that leave the file *)

Inductive alloc_site :=
  | AllocShare     (* ksmbd_alloc(sizeof(struct ksmbd_share_config)) *)
  | DupName        (* kstrdup(name) *)
  | DupPath        (* kstrdup(KSMBD_SHARE_CONFIG_PATH(resp)) *)
  | AllocVeto      (* ksmbd_alloc(sizeof(struct ksmbd_veto_pattern)) *)
  | DupPattern.    (* kstrdup(veto_list) *)

Inductive event :=
  | EAlloc (site : alloc_site) (ok : bool)
  | EIpc (name : list ascii)
  | EKernPath (path : list ascii) (ret : Z)
  | EPathPut (vfs_path : Z)
  | EScheduleWork (share : nat).

#[global] Instance alloc_site_eq_dec : EqDecision alloc_site.
Proof. solve_decision. Defined.
#[global] Instance event_eq_dec : EqDecision event.
Proof. solve_decision. Defined.

(** ** Store and monad *)

(** The share objects that are allocated, by address; the eight-bucket
    hash table [shares_table], each bucket a list of addresses with the
    most recently added first; the calls made so far. *)
Record kstate := mk_state {
  heap : gmap nat ksmbd_share_config;
  shares_table : gmap nat (list nat);
  trace : list event
}.

(** The outcome of running kernel code: a value and a new state, a fault
    (a [NULL] or dangling pointer is followed, a scan leaves its object),
    or a loop that used up the iterations it was given. *)
Inductive result (A : Type) :=
  | Ok (a : A)
  | Oops
  | Fuel.
Arguments Ok {A} a.
Arguments Oops {A}.
Arguments Fuel {A}.

Definition kernel (A : Type) : Type := kstate -> result (A * kstate).

Definition ret {A} (a : A) : kernel A := fun σ => Ok (a, σ).

Definition bind {A B} (m : kernel A) (k : A -> kernel B) : kernel B :=
  fun σ =>
    match m σ with
    | Ok (a, σ') => k a σ'
    | Oops => Oops
    | Fuel => Fuel
    end.

Definition oops {A} : kernel A := fun _ => Oops.
Definition out_of_fuel {A} : kernel A := fun _ => Fuel.

Notation "'let*' x ':=' m 'in' k" := (bind m (fun x => k))
  (at level 10, x name, m at level 100, k at level 200).
Notation "m ';;' k" := (bind m (fun _ => k))
  (at level 100, k at level 200, right associativity).

Definition emit (e : event) : kernel unit :=
  fun σ => Ok (tt, mk_state (heap σ) (shares_table σ) (trace σ ++ [e])).

(** Dereference of a share pointer. *)
Definition load (p : nat) : kernel ksmbd_share_config :=
  fun σ => match heap σ !! p with Some s => Ok (s, σ) | None => Oops end.

(** Assignment to fields of [*p]. *)
Definition assign (p : nat) (f : ksmbd_share_config -> ksmbd_share_config) : kernel unit :=
  fun σ =>
    match heap σ !! p with
    | Some s => Ok (tt, mk_state (<[p := f s]> (heap σ)) (shares_table σ) (trace σ))
    | None => Oops
    end.

(** Release of the memory of [*p]. *)
Definition kfree (p : nat) : kernel unit :=
  fun σ => Ok (tt, mk_state (delete p (heap σ)) (shares_table σ) (trace σ)).

(** The events a run from [σ] to [σ'] added to the trace. *)
Definition events_of (σ σ' : kstate) : list event :=
  drop (length (trace σ)) (trace σ').

(** The fields of [struct cred] the file reads or writes, and the rest
    of the structure as one value. *)
Record cred := mk_cred {
  cred_fsuid : Z;
  cred_fsgid : Z;
  cred_cap_effective : Z;
  cred_rest : Z
}.

(** [struct ksmbd_user] and [struct ksmbd_session], as far as
    [user_uid] and [user_gid] read them. *)
Record ksmbd_user := mk_user {
  user_uid : Z;
  user_gid : Z
}.

Record ksmbd_session := mk_session {
  sess_user : ksmbd_user
}.

(** ** What the file takes from outside

    The kernel and the rest of the module, as far as this file calls
    them.  Outcomes that the file cannot determine are indexed by the
    position of the call in the run (the length of the trace when the
    call is made). *)
Record environment := mk_env {
  (** whether the allocation requested as the [n]-th call succeeds *)
  alloc_ok : nat -> bool;
  (** what the memory handed out for a share object holds before the
      code writes to it *)
  ksmbd_alloc_mem : ksmbd_share_config;
  (** the user-space daemon's answer to a request made as the [n]-th
      call; [None] is the [NULL] response *)
  ksmbd_ipc_share_config_request :
    nat -> list ascii -> option ksmbd_share_config_response;
  (** [kern_path] as the [n]-th call: its return value and, when that is
      zero, the [struct path] it stores *)
  kern_path : nat -> list ascii -> Z * Z;
  (** [jhash(key, length, initval)] over the characters of the key *)
  jhash : list ascii -> Z -> Z;
  (** the bucket [hash_min] selects for a hash value *)
  hash_min : Z -> nat;
  KSMBD_SHARE_FLAG_INVALID : Z;
  KSMBD_SHARE_FLAG_PIPE : Z;
  match_wildcard : list ascii -> list ascii -> bool;
  tolower : ascii -> ascii;
  (** [prepare_kernel_cred(NULL)]: a copy of the kernel's own
      credentials, or [NULL] *)
  prepare_kernel_cred : option cred;
  (** [make_kuid] and [make_kgid] in the current user namespace *)
  make_kuid : Z -> Z;
  make_kgid : Z -> Z;
  (** the capability bits of [CAP_FS_SET] *)
  CAP_FS_SET : Z
}.

(** ** The program *)

Section Program.

Variable env : environment.

(** *** Primitives with an outcome chosen outside the file *)

Definition try_alloc (site : alloc_site) : kernel bool :=
  fun σ =>
    let ok := alloc_ok env (length (trace σ)) in
    Ok (ok, mk_state (heap σ) (shares_table σ) (trace σ ++ [EAlloc site ok])).

(** [ksmbd_alloc] for a share object: a fresh address, or [NULL]. *)
Definition ksmbd_alloc_share : kernel (option nat) :=
  let* ok := try_alloc AllocShare in
  if ok then
    fun σ =>
      let p := fresh (dom (heap σ)) in
      Ok (Some p, mk_state (<[p := ksmbd_alloc_mem env]> (heap σ)) (shares_table σ) (trace σ))
  else ret None.

Definition kstrdup (site : alloc_site) (s : list ascii) : kernel (option (list ascii)) :=
  let* ok := try_alloc site in
  ret (if ok then Some s else None).

Definition ipc_request (name : list ascii) : kernel (option ksmbd_share_config_response) :=
  fun σ =>
    Ok (ksmbd_ipc_share_config_request env (length (trace σ)) name,
        mk_state (heap σ) (shares_table σ) (trace σ ++ [EIpc name])).

Definition call_kern_path (path : list ascii) : kernel (Z * Z) :=
  fun σ =>
    let r := kern_path env (length (trace σ)) path in
    Ok (r, mk_state (heap σ) (shares_table σ) (trace σ ++ [EKernPath path (fst r)])).

(** *** The hash table *)

Definition share_name_hash (name : list ascii) : Z := jhash env name 0.

Definition bucket (key : Z) (σ : kstate) : list nat :=
  default [] (shares_table σ !! hash_min env key).

(** [hash_add]: [hlist_add_head] on the bucket of [key]. *)
Definition hash_add (share : nat) (key : Z) : kernel unit :=
  fun σ =>
    Ok (tt, mk_state (heap σ)
              (<[hash_min env key := share :: bucket key σ]> (shares_table σ))
              (trace σ)).

(** [hash_del]: the node is unlinked from the chain it is on. *)
Definition hash_del (share : nat) : kernel unit :=
  fun σ =>
    Ok (tt, mk_state (heap σ)
              (filter (λ q, q ≠ share) <$> shares_table σ)
              (trace σ)).

(** *** kill_share *)

Definition kill_share (share : nat) : kernel unit :=
  let* s := load share in
  assign share (set_veto_list []) ;;
  (if sc_path s is Some _ then emit (EPathPut (sc_vfs_path s)) else ret tt) ;;
  kfree share.

Definition deferred_share_free (share : nat) : kernel unit :=
  kill_share share.

(** *** __ksmbd_share_config_put

    The free work is queued; [deferred_share_free] runs later. *)
Definition __ksmbd_share_config_put (share : nat) : kernel unit :=
  hash_del share ;;
  emit (EScheduleWork share).

(** *** ksmbd_share_config_put

    Modelled from the spec: [ksmbd_share_config_put] is an inline
    function of share_config.h, which is not among the sources.  The
    specification has: "release(handle): decrements refcount. If the
    result is zero, removes the entry from the table under an exclusive
    lock immediately, then schedules destruction [...]. If the result
    is >0, no further action."  The decrement is [atomic_dec_and_test]
    on the reference count. *)
Definition atomic_dec_and_test (share : nat) : kernel bool :=
  let* s := load share in
  assign share (set_refcount (to_int (sc_refcount s - 1))) ;;
  ret (to_int (sc_refcount s - 1) =? 0).

Definition ksmbd_share_config_put (share : nat) : kernel unit :=
  let* last := atomic_dec_and_test share in
  if last then __ksmbd_share_config_put share else ret tt.

(** *** __get_share_config

    [atomic_inc_not_zero] on the reference count. *)
Definition __get_share_config (share : nat) : kernel (option nat) :=
  let* s := load share in
  if sc_refcount s =? 0 then ret None
  else
    assign share (set_refcount (to_int (sc_refcount s + 1))) ;;
    ret (Some share).

(** *** __share_lookup

    [strcmp] follows both pointers, so a share without a name on the
    chain is a fault. *)
Fixpoint lookup_chain (name : list ascii) (chain : list nat) : kernel (option nat) :=
  match chain with
  | [] => ret None
  | share :: chain' =>
      let* s := load share in
      match sc_name s with
      | None => oops
      | Some n =>
          if decide (name = n) then ret (Some share)
          else lookup_chain name chain'
      end
  end.

Definition __share_lookup (name : list ascii) : kernel (option nat) :=
  fun σ => lookup_chain name (bucket (share_name_hash name) σ) σ.

(** *** parse_veto_list

    [veto_list] is the offset of the C pointer into the memory [mem] it
    was given; [list_add] puts the new pattern right after the list
    head. *)
Definition list_add (pattern : list ascii) (share : nat) : kernel unit :=
  let* s := load share in
  assign share (set_veto_list (pattern :: sc_veto_list s)).

Fixpoint parse_veto_loop (fuel : nat) (share : nat) (mem : list ascii)
    (veto_list veto_list_sz : Z) : kernel Z :=
  match fuel with
  | O => out_of_fuel
  | S fuel' =>
      if 0 <? veto_list_sz then
        let* p := try_alloc AllocVeto in
        if negb p then ret (- ENOMEM)
        else
          match strlen_at mem veto_list with
          | None => oops
          | Some len =>
              let sz := to_int len in
              if sz =? 0 then ret 0
              else
                let* pattern := kstrdup DupPattern (string_at mem veto_list len) in
                match pattern with
                | None => ret (- ENOMEM)
                | Some pattern =>
                    list_add pattern share ;;
                    parse_veto_loop fuel' share mem
                      (veto_list + to_int (sz + 1))
                      (to_int (veto_list_sz - to_int (sz + 1)))
                end
          end
      else ret 0
  end.

Definition parse_veto_list (share : nat) (veto_list : list ascii)
    (veto_list_sz : Z) : kernel Z :=
  if veto_list_sz =? 0 then ret 0
  else parse_veto_loop (S (Z.to_nat veto_list_sz)) share veto_list 0 veto_list_sz.

(** *** share_config_request

    The function is given in three parts: [construct] is the code
    between the validity check of the response and the table lock,
    [reconcile] is the code under the table lock, and
    [share_config_request] is the whole. *)
Definition test_share_config_flag (s : ksmbd_share_config) (flag : Z) : bool :=
  negb (Z.land (sc_flags s) flag =? 0).

Definition construct (name : list ascii) (resp : ksmbd_share_config_response)
    : kernel (option nat) :=
  let* share := ksmbd_alloc_share in
  match share with
  | None => ret None
  | Some share =>
      assign share (set_flags (resp_flags resp)) ;;
      assign share (set_refcount 1) ;;
      assign share (set_veto_list []) ;;
      let* n := kstrdup DupName name in
      assign share (set_name n) ;;
      let* s := load share in
      if negb (test_share_config_flag s (KSMBD_SHARE_FLAG_PIPE env)) then
        let* path := kstrdup DupPath (resp_path resp) in
        assign share (set_path path) ;;
        (if path is Some pa
         then assign share (set_path_sz (Z.of_nat (length pa) mod 2 ^ 32))
         else ret tt) ;;
        assign share (set_create_mask (resp_create_mask resp)) ;;
        assign share (set_directory_mask (resp_directory_mask resp)) ;;
        assign share (set_force_create_mode (resp_force_create_mode resp)) ;;
        assign share (set_force_directory_mode (resp_force_directory_mode resp)) ;;
        assign share (set_force_uid (resp_force_uid resp)) ;;
        assign share (set_force_gid (resp_force_gid resp)) ;;
        let* r := parse_veto_list share (resp_veto_list resp)
                    (to_int (resp_veto_list_sz resp)) in
        let* s := load share in
        let* r :=
          match sc_path s with
          | Some pa =>
              if r =? 0 then
                let* kp := call_kern_path pa in
                if fst kp =? 0 then
                  assign share (set_vfs_path (snd kp)) ;; ret (fst kp)
                else
                  (* Avoid put_path() *)
                  assign share (set_path None) ;; ret (fst kp)
              else ret r
          | None => ret r
          end in
        let* s := load share in
        if negb (r =? 0) || (if sc_name s is Some _ then false else true) then
          kill_share share ;;
          ret None
        else ret (Some share)
      else ret (Some share)
  end.

Definition reconcile (name : list ascii) (share : nat) : kernel (option nat) :=
  let* lookup := __share_lookup name in
  let* lookup :=
    match lookup with
    | Some l => __get_share_config l
    | None => ret None
    end in
  match lookup with
  | None =>
      hash_add share (share_name_hash name) ;;
      ret (Some share)
  | Some l =>
      kill_share share ;;
      ret (Some l)
  end.

(** The part of [share_config_request] that runs before the table lock
    is taken: the request, the validity check and [construct]. *)
Definition fetch (name : list ascii) : kernel (option nat) :=
  let* resp := ipc_request name in
  match resp with
  | None => ret None
  | Some resp =>
      if resp_flags resp =? KSMBD_SHARE_FLAG_INVALID env then ret None
      else construct name resp
  end.

Definition share_config_request (name : list ascii) : kernel (option nat) :=
  let* resp := ipc_request name in
  match resp with
  | None => ret None
  | Some resp =>
      if resp_flags resp =? KSMBD_SHARE_FLAG_INVALID env then ret None
      else
        let* share := construct name resp in
        match share with
        | None => ret None
        | Some share => reconcile name share
        end
  end.

(** *** strtolower and ksmbd_share_config_get *)

Fixpoint strtolower (share_name : list ascii) : list ascii :=
  match share_name with
  | [] => []
  | c :: rest => tolower env c :: strtolower rest
  end.

(** The code under the read lock. *)
Definition lookup_get (name : list ascii) : kernel (option nat) :=
  let* share := __share_lookup name in
  match share with
  | Some share => __get_share_config share
  | None => ret None
  end.

(** The value returned comes with the contents of the caller's [name]
    buffer at return. *)
Definition ksmbd_share_config_get (name : list ascii)
    : kernel (list ascii * option nat) :=
  let name := strtolower name in
  let* share := lookup_get name in
  match share with
  | Some share => ret (name, Some share)
  | None =>
      let* share := share_config_request name in
      ret (name, share)
  end.

(** *** ksmbd_share_veto_filename

    [veto_scan] walks the list from its head and also yields the
    patterns it handed to [match_wildcard], in call order. *)
Fixpoint veto_scan (veto_list : list (list ascii)) (filename : list ascii)
    : bool * list (list ascii) :=
  match veto_list with
  | [] => (false, [])
  | pattern :: rest =>
      if match_wildcard env pattern filename then (true, [pattern])
      else
        let r := veto_scan rest filename in
        (fst r, pattern :: snd r)
  end.

Definition ksmbd_share_veto_filename (share : ksmbd_share_config)
    (filename : list ascii) : bool :=
  fst (veto_scan (sc_veto_list share) filename).

(** *** ksmbd_share_configs_cleanup *)

Fixpoint cleanup_chain (chain : list nat) : kernel unit :=
  match chain with
  | [] => ret tt
  | share :: chain' =>
      hash_del share ;;
      kill_share share ;;
      cleanup_chain chain'
  end.

Definition ksmbd_share_configs_cleanup : kernel unit :=
  foldr (fun i k =>
           (fun σ => cleanup_chain (default [] (shares_table σ !! i)) σ) ;; k)
        (ret tt) (seq 0 8).

(** *** ksmbd_override_fsids and ksmbd_revert_fsids

    The state is [current->cred].  The value returned is an error
    pointer or the credentials that [override_creds] replaced. *)
Definition GLOBAL_ROOT_UID : Z := 0.

Definition uid_eq (left right : Z) : bool := left =? right.

Definition cap_drop_fs_set (a : Z) : Z := Z.land a (Z.lnot (CAP_FS_SET env)).

Definition ksmbd_override_fsids (sess : ksmbd_session)
    (share : ksmbd_share_config) (current : cred) : (Z + cred) * cred :=
  let uid := user_uid (sess_user sess) in
  let gid := user_gid (sess_user sess) in
  let uid := if negb (sc_force_uid share =? SHARE_INVALID_UID)
             then sc_force_uid share else uid in
  let gid := if negb (sc_force_gid share =? SHARE_INVALID_GID)
             then sc_force_gid share else gid in
  match prepare_kernel_cred env with
  | None => (inl (- ENOMEM), current)
  | Some c =>
      let c := mk_cred (make_kuid env uid) (cred_fsgid c)
                 (cred_cap_effective c) (cred_rest c) in
      let c := mk_cred (cred_fsuid c) (make_kgid env gid)
                 (cred_cap_effective c) (cred_rest c) in
      let c := if negb (uid_eq (cred_fsuid c) GLOBAL_ROOT_UID)
               then mk_cred (cred_fsuid c) (cred_fsgid c)
                      (cap_drop_fs_set (cred_cap_effective c)) (cred_rest c)
               else c in
      (inr current, c)
  end.

Definition ksmbd_revert_fsids (old_cred : Z + cred) (current : cred) : cred :=
  match old_cred with
  | inr old => old
  | inl _ => current
  end.

End Program.

(** No share allocated, an empty table, no call made. *)
Definition empty_state : kstate := mk_state ∅ ∅ [].

(** ** A concrete environment

    Used to run the program on concrete inputs: memory handed out is
    zeroed, names hash to their length, the pipe flag is bit 8, and the
    wildcard match is the usual one for [*] and [?]. *)

Definition zero_share : ksmbd_share_config :=
  mk_share None None 0 0 [] 0 0 0 0 0 0 0 0.

Definition ascii_tolower (c : ascii) : ascii :=
  let n := nat_of_ascii c in
  if ((65 <=? n) && (n <=? 90))%nat then ascii_of_nat (n + 32) else c.

Fixpoint glob (pattern str : list ascii) : bool :=
  match pattern with
  | [] => if str is [] then true else false
  | c :: pattern' =>
      if decide (c = "*"%char) then
        (fix star (str : list ascii) : bool :=
           glob pattern' str ||
           match str with
           | [] => false
           | _ :: str' => star str'
           end) str
      else
        match str with
        | [] => false
        | d :: str' =>
            (bool_decide (c = "?"%char) || bool_decide (c = d)) && glob pattern' str'
        end
  end.

Definition lit (s : String.string) : list ascii := String.list_ascii_of_string s.

(** Bits 0-4, 9, 27 and 32. *)
Definition example_cap_fs_set : Z := 31 + 2 ^ 9 + 2 ^ 27 + 2 ^ 32.

Definition example_env (allocs : nat -> bool)
    (resp : option ksmbd_share_config_response) (kp : Z * Z) : environment :=
  mk_env allocs zero_share (fun _ _ => resp) (fun _ _ => kp)
    (fun key _ => Z.of_nat (length key)) (fun h => Z.to_nat (h mod 8))
    0 256 glob ascii_tolower
    (Some (mk_cred 0 0 (2 ^ 38 - 1) 0)) (fun id => id) (fun id => id)
    example_cap_fs_set.

(** A response for a disk share with two veto patterns, and one for a
    pipe. *)
Definition example_veto_buffer : list ascii :=
  lit "*.tmp" ++ [NUL] ++ lit "secret*" ++ [NUL].

Definition example_disk_resp : ksmbd_share_config_response :=
  mk_resp 1 484 493 0 0 SHARE_INVALID_UID SHARE_INVALID_GID 14
    example_veto_buffer (lit "/srv/data").

Definition example_pipe_resp : ksmbd_share_config_response :=
  mk_resp 257 484 493 0 0 1000 1000 14 example_veto_buffer (lit "/srv/data").

(** A state with one zeroed share object at address 0, outside the
    table. *)
Definition one_share_state : kstate :=
  mk_state {[ 0%nat := zero_share ]} ∅ [].

(** Every allocation succeeds, there is no response, [kern_path]
    succeeds. *)
Definition plain_env : environment :=
  example_env (fun _ => true) None (0, 7).



(** The channel answers with the pipe share. *)
Definition pipe_env : environment :=
  example_env (fun _ => true) (Some example_pipe_resp) (0, 7).

Definition example_session : ksmbd_session := mk_session (mk_user 1000 1000).

Definition example_kernel_cred : cred := mk_cred 0 0 (2 ^ 38 - 1) 0.

(** A share without forced ids, and one that forces root. *)
Definition unforced_share : ksmbd_share_config :=
  set_force_uid SHARE_INVALID_UID (set_force_gid SHARE_INVALID_GID zero_share).

Definition root_forced_share : ksmbd_share_config :=
  set_force_uid 0 (set_force_gid 0 zero_share).

(** The channel answers with the disk share and nothing fails. *)
Definition disk_env : environment :=
  example_env (fun _ => true) (Some example_disk_resp) (0, 7).

(** The state a computation ends in ([empty_state] if it does not). *)
Definition state_after {A} (r : result (A * kstate)) : kstate :=
  match r with
  | Ok (_, σ) => σ
  | _ => empty_state
  end.

(** Two callers race for the uncached share [data]: both miss, both
    fetch, the first to reconcile adds its share, the second finds it. *)
Definition race_built_one : kstate :=
  state_after (fetch disk_env (lit "data") empty_state).

Definition race_built_two : kstate :=
  state_after (fetch disk_env (lit "data") race_built_one).

Definition race_added : kstate :=
  state_after (reconcile disk_env (lit "data") 0%nat race_built_two).

Definition race_done : kstate :=
  state_after (reconcile disk_env (lit "data") 1%nat race_added).

(** A table with one dying share named [data]. *)
Definition dying_state : kstate :=
  mk_state {[ 0%nat := set_name (Some (lit "data")) zero_share ]}
    {[ 4%nat := [0%nat] ]} [].

(** ** The veto buffer as the specification describes it *)

(** Pattern strings packed one after the other, each followed by its
    terminator. *)
Fixpoint pack (strs : list (list ascii)) : list ascii :=
  match strs with
  | [] => []
  | s :: rest => s ++ NUL :: pack rest
  end.

(** The strings taken from a packed buffer when [remaining] characters
    are announced: one string at a time, each using up its length plus
    one, until nothing remains or a string of length zero comes up.
    [None] when the announced length runs past the last string. *)
Fixpoint consumed (strs : list (list ascii)) (remaining : Z)
    : option (list (list ascii)) :=
  match strs with
  | [] => if remaining <=? 0 then Some [] else None
  | s :: rest =>
      if remaining <=? 0 then Some []
      else if s is [] then Some []
      else cons s <$> consumed rest (remaining - (Z.of_nat (length s) + 1))
  end.

(** ** Predicates used in the statements *)

(** The calls of the veto loop: allocations of its two kinds. *)
Definition veto_event (e : event) : Prop :=
  exists ok, e = EAlloc AllocVeto ok \/ e = EAlloc DupPattern ok.

(** An allocation that succeeded. *)
Definition alloc_fine (e : event) : Prop :=
  exists site, e = EAlloc site true.

(** The events of a run of [construct] that ends with a share: every
    allocation succeeded, except possibly the copy of the path and, for a
    pipe, the copy of the name; [kern_path] succeeded if it was called. *)
Definition tolerated (pipe : bool) (e : event) : Prop :=
  match e with
  | EAlloc DupPath _ => True
  | EAlloc DupName ok => ok = true \/ pipe = true
  | EAlloc _ ok => ok = true
  | EKernPath _ r => r = 0
  | _ => False
  end.

Definition is_pipe (env : environment) (resp : ksmbd_share_config_response) : bool :=
  negb (Z.land (resp_flags resp) (KSMBD_SHARE_FLAG_PIPE env) =? 0).

Ltac split_in H :=
  rewrite ?elem_of_app, ?elem_of_cons, ?elem_of_nil in H;
  repeat match type of H with _ \/ _ => destruct H as [H|H] end;
  try discriminate H; try contradiction.

(** What a lookup that returns has seen: the shares it passed over are
    allocated and carry other names; the share it stops at carries the
    name. *)
Definition other_name (h : gmap nat ksmbd_share_config) (name : list ascii)
    (p : nat) : Prop :=
  exists s n, h !! p = Some s /\ sc_name s = Some n /\ n ≠ name.

(** [reconcile] never reports a failure, and the only calls it makes are
    [path_put]s. *)
Definition put_event (e : event) : Prop := exists v, e = EPathPut v.

(** A string of the buffer: no terminator inside, and a length that an
    [int] holds with room for one more. *)
Definition pattern_string (s : list ascii) : Prop :=
  (NUL ∉ s) /\ (Z.of_nat (length s) < 2 ^ 31 - 1).

(** ** Concurrent callers

    The table lock makes the code under it atomic with respect to other
    code under it, and the reference count is only touched by atomic
    operations, so concurrent callers are modelled as an interleaving of
    these steps: the read-locked lookup with its acquire, the fetch
    outside any lock, the write-locked reconciliation, the atomic
    decrement of a release, the write-locked unlinking, and the deferred
    free.  A step whose code faults does not exist: the thread stays
    where it is. *)

Inductive thread :=
  | Idle
    (* [ksmbd_share_config_get(name)] was called *)
  | Calling (name : list ascii)
    (* the lookup missed; in [share_config_request], before the request *)
  | Fetching (name : list ascii)
    (* in [share_config_request] with a share built, before the table lock *)
  | Built (name : list ascii) (share : nat)
    (* the call returned; [name] is what the caller's buffer holds *)
  | Returned (name : list ascii) (share : option nat)
    (* the last reference was dropped; before [__ksmbd_share_config_put] *)
  | Unlinking (share : nat)
    (* the free work is queued *)
  | Freeing (share : nat).

(** The steps of a call of [ksmbd_share_config_get]. *)
Inductive get_step (env : environment) : thread -> kstate -> thread -> kstate -> Prop :=
  | gs_hit name share σ σ' :
      lookup_get env (strtolower env name) σ = Ok (Some share, σ') ->
      get_step env (Calling name) σ (Returned (strtolower env name) (Some share)) σ'
  | gs_miss name σ σ' :
      lookup_get env (strtolower env name) σ = Ok (None, σ') ->
      get_step env (Calling name) σ (Fetching (strtolower env name)) σ'
  | gs_fetch_none name σ σ' :
      fetch env name σ = Ok (None, σ') ->
      get_step env (Fetching name) σ (Returned name None) σ'
  | gs_fetch_some name share σ σ' :
      fetch env name σ = Ok (Some share, σ') ->
      get_step env (Fetching name) σ (Built name share) σ'
  | gs_reconcile name share r σ σ' :
      reconcile env name share σ = Ok (r, σ') ->
      get_step env (Built name share) σ (Returned name r) σ'.

(** All steps: calls, and releases of what a call returned. *)
Inductive thread_step (env : environment) : thread -> kstate -> thread -> kstate -> Prop :=
  | ts_get t σ t' σ' :
      get_step env t σ t' σ' ->
      thread_step env t σ t' σ'
  | ts_call name σ :
      thread_step env Idle σ (Calling name) σ
  | ts_done name σ :
      thread_step env (Returned name None) σ Idle σ
  | ts_put name share σ σ' :
      atomic_dec_and_test share σ = Ok (false, σ') ->
      thread_step env (Returned name (Some share)) σ Idle σ'
  | ts_put_last name share σ σ' :
      atomic_dec_and_test share σ = Ok (true, σ') ->
      thread_step env (Returned name (Some share)) σ (Unlinking share) σ'
  | ts_unlink share σ σ' :
      __ksmbd_share_config_put share σ = Ok (tt, σ') ->
      thread_step env (Unlinking share) σ (Freeing share) σ'
  | ts_free share σ σ' :
      deferred_share_free share σ = Ok (tt, σ') ->
      thread_step env (Freeing share) σ Idle σ'.

(** One thread of the pool takes a step. *)
Inductive interleave (R : thread -> kstate -> thread -> kstate -> Prop)
    : kstate * list thread -> kstate * list thread -> Prop :=
  | interleave_at i t t' σ σ' ts :
      ts !! i = Some t ->
      R t σ t' σ' ->
      interleave R (σ, ts) (σ', <[i := t']> ts).

(** The configurations [n] threads reach from an empty table. *)
Definition reachable (env : environment) (n : nat) (c : kstate * list thread) : Prop :=
  rtc (interleave (thread_step env)) (empty_state, replicate n Idle) c.

(** Who holds a reference to [p], and how many do. *)
Definition holds (p : nat) (t : thread) : bool :=
  match t with
  | Built _ q => bool_decide (q = p)
  | Returned _ (Some q) => bool_decide (q = p)
  | _ => false
  end.

Fixpoint holders (p : nat) (ts : list thread) : nat :=
  match ts with
  | [] => 0
  | t :: ts' => (Nat.b2n (holds p t) + holders p ts')%nat
  end.

(** Who is on the way to free [p]. *)
Definition draining (p : nat) (t : thread) : bool :=
  match t with
  | Unlinking q => bool_decide (q = p)
  | Freeing q => bool_decide (q = p)
  | _ => false
  end.

(** The shares of the table. *)
Definition in_table (σ : kstate) (p : nat) : Prop :=
  exists b chain, shares_table σ !! b = Some chain /\ p ∈ chain.

(** In a chain, every share that comes after a share of the same name has
    a reference count of zero. *)
Definition same_name (h : gmap nat ksmbd_share_config) (a b : nat) : Prop :=
  exists sa sb n,
    h !! a = Some sa /\ h !! b = Some sb /\ sc_name sa = Some n /\ sc_name sb = Some n.

Definition dead (h : gmap nat ksmbd_share_config) (p : nat) : Prop :=
  forall s, h !! p = Some s -> sc_refcount s = 0.

Fixpoint dead_tail (h : gmap nat ksmbd_share_config) (chain : list nat) : Prop :=
  match chain with
  | [] => True
  | a :: chain' =>
      (forall b, b ∈ chain' -> same_name h a b -> dead h b) /\ dead_tail h chain'
  end.

Definition refers (p : nat) (t : thread) : bool := holds p t || draining p t.

(** What holds of every configuration the threads can reach. *)
Record invariant (env : environment) (σ : kstate) (ts : list thread) : Prop := {
  (* the reference count cannot overflow *)
  inv_size : Z.of_nat (length ts) < 2 ^ 31;
  (* no thread is left with a dangling pointer *)
  inv_alloc : forall i t p,
    ts !! i = Some t -> refers p t = true -> is_Some (heap σ !! p);
  (* the reference count of a share is the number of its holders *)
  inv_count : forall p s,
    heap σ !! p = Some s -> sc_refcount s = Z.of_nat (holders p ts);
  (* at most one thread is on the way to free a share, and then the
     share has no holder *)
  inv_drain : forall i j ti tj p,
    ts !! i = Some ti -> ts !! j = Some tj ->
    draining p ti = true -> draining p tj = true -> i = j;
  inv_drain0 : forall i t p,
    ts !! i = Some t -> draining p t = true -> holders p ts = 0%nat;
  (* a share that was built and not yet reconciled is its builder's *)
  inv_built : forall i name q,
    ts !! i = Some (Built name q) ->
    holders q ts = 1%nat
    /\ ~ in_table σ q
    /\ exists s, heap σ !! q = Some s
         /\ (sc_name s = Some name
             \/ sc_name s = None /\ EAlloc DupName false ∈ trace σ);
  (* a share whose free is queued is off the table *)
  inv_freeing : forall i p,
    ts !! i = Some (Freeing p) -> ~ in_table σ p;
  (* the chains of the table *)
  inv_chain : forall b chain,
    shares_table σ !! b = Some chain ->
    NoDup chain
    /\ dead_tail (heap σ) chain
    /\ forall p, p ∈ chain ->
         exists s, heap σ !! p = Some s
           /\ forall n, sc_name s = Some n ->
                hash_min env (share_name_hash env n) = b
}.

(** [p] is the share a lookup of [x] ends at, and it is alive: the shares
    in front of it on the chain of [x] carry other names, [p] carries
    [x], and its reference count is not zero. *)
Definition first_named (env : environment) (x : list ascii) (σ : kstate)
    (p : nat) : Prop :=
  exists l1 l2 s,
    bucket env (share_name_hash env x) σ = l1 ++ p :: l2
    /\ Forall (other_name (heap σ) x) l1
    /\ heap σ !! p = Some s
    /\ sc_name s = Some x
    /\ sc_refcount s ≠ 0.

(** Every call for [x] that has returned a share returned that one. *)
Definition winners (env : environment) (x : list ascii) (σ : kstate)
    (ts : list thread) : Prop :=
  forall i p, ts !! i = Some (Returned x (Some p)) -> first_named env x σ p.

(** ** Further examples *)

(** As [plain_env], but the credentials cannot be prepared. *)
Definition credless_env : environment :=
  mk_env (fun _ => true) zero_share (fun _ _ => None) (fun _ _ => (0, 7))
    (fun key _ => Z.of_nat (length key)) (fun h => Z.to_nat (h mod 8))
    0 256 glob ascii_tolower
    None (fun id => id) (fun id => id)
    example_cap_fs_set.

(** The credentials of a task before the override. *)
Definition example_task_cred : cred := mk_cred 33 33 0 5.

(** The channel answers with flags that are the invalid value. *)
Definition invalid_env : environment :=
  example_env (fun _ => true)
    (Some (mk_resp 0 0 0 0 0 0 0 0 [] [])) (0, 7).

(** A share with two veto patterns, and the same with the patterns in
    the other order. *)
Definition vetoing_share : ksmbd_share_config :=
  set_veto_list [lit "*.tmp"; lit "secret*"] zero_share.

Definition vetoing_share_swapped : ksmbd_share_config :=
  set_veto_list [lit "secret*"; lit "*.tmp"] zero_share.

(** ** What a sweep of the table leaves

    [swept K σ σ'] : from [σ] to [σ'] the shares [K] were unlinked and
    freed, and nothing else happened but calls of [path_put]. *)
Definition swept (K : list nat) (σ σ' : kstate) : Prop :=
  (forall b, shares_table σ' !! b = filter (λ q, q ∉ K) <$> (shares_table σ !! b))
  /\ (forall p, p ∈ K -> heap σ' !! p = None)
  /\ (forall p, p ∉ K -> heap σ' !! p = heap σ !! p)
  /\ exists evs, trace σ' = trace σ ++ evs /\ Forall put_event evs.

(** The chains hold each share once, and the shares they hold are
    allocated. *)
Definition chains_allocated (σ : kstate) : Prop :=
  forall b chain,
    shares_table σ !! b = Some chain ->
    NoDup chain /\ forall p, p ∈ chain -> is_Some (heap σ !! p).

(** The loop of [ksmbd_share_configs_cleanup] over the buckets [bs]. *)
Definition cleanup_buckets (bs : list nat) : kernel unit :=
  foldr (fun i k =>
           (fun σ => cleanup_chain (default [] (shares_table σ !! i)) σ) ;; k)
        (ret tt) bs.

(** ** Where the shares are

    Every share a call returned is on the table, and every allocated
    share is on the table or in the hands of a thread. *)
Definition accounted (σ : kstate) (ts : list thread) : Prop :=
  (forall i name p, ts !! i = Some (Returned name (Some p)) -> in_table σ p)
  /\ (forall p, is_Some (heap σ !! p) ->
        in_table σ p \/ exists i t, ts !! i = Some t /\ refers p t = true).

(** The channel answers with the pipe share; the copy of the name (call
    number 2 of the run) fails. *)
Definition nameless_pipe_env : environment :=
  example_env (fun n => negb (Nat.eqb n 2)) (Some example_pipe_resp) (0, 7).

(** A table with a chain of two shares, the first with a path, and a
    third share that is not on the table. *)
Definition two_chain_state : kstate :=
  mk_state
    {[ 0%nat := set_path (Some (lit "/srv/data")) zero_share;
       1%nat := zero_share;
       2%nat := zero_share ]}
    {[ 4%nat := [0%nat; 1%nat] ]} [].

(** * Properties *)

(** ** Running the monad *)

Lemma bind_unfold {A B} (m : kernel A) (k : A -> kernel B) σ :
  bind m k σ =
    match m σ with
    | Ok (a, σ') => k a σ'
    | Oops => Oops
    | Fuel => Fuel
    end.
Proof. reflexivity. Qed.

Lemma bind_Ok {A B} (m : kernel A) (k : A -> kernel B) σ x :
  bind m k σ = Ok x -> exists a σ1, m σ = Ok (a, σ1) /\ k a σ1 = Ok x.
Proof.
  rewrite bind_unfold. destruct (m σ) as [[a σ1]| |]; [eauto | discriminate..].
Qed.

Lemma ret_unfold {A} (a : A) σ : ret a σ = Ok (a, σ).
Proof. reflexivity. Qed.

Lemma load_insert q s h t tr :
  load q (mk_state (<[q := s]> h) t tr) = Ok (s, mk_state (<[q := s]> h) t tr).
Proof. unfold load; cbn [heap]. by rewrite lookup_insert_eq. Qed.

Lemma assign_insert q f s h t tr :
  assign q f (mk_state (<[q := s]> h) t tr) = Ok (tt, mk_state (<[q := f s]> h) t tr).
Proof.
  unfold assign; cbn [heap shares_table trace].
  by rewrite lookup_insert_eq, insert_insert_eq.
Qed.

Lemma try_alloc_unfold env site h t tr :
  try_alloc env site (mk_state h t tr) =
    Ok (alloc_ok env (length tr), mk_state h t (tr ++ [EAlloc site (alloc_ok env (length tr))])).
Proof. reflexivity. Qed.

Lemma kstrdup_unfold env site str h t tr :
  kstrdup env site str (mk_state h t tr) =
    Ok (if alloc_ok env (length tr) then Some str else None,
        mk_state h t (tr ++ [EAlloc site (alloc_ok env (length tr))])).
Proof. reflexivity. Qed.

(** One step of the symbolic run of a computation on a state whose share
    under construction is known. *)
Ltac run1 :=
  rewrite bind_unfold;
  first [ rewrite assign_insert | rewrite load_insert | rewrite kstrdup_unfold
        | rewrite try_alloc_unfold | rewrite ret_unfold ];
  cbv beta iota.

Lemma list_add_insert pattern q s h t tr :
  list_add pattern q (mk_state (<[q := s]> h) t tr) =
    Ok (tt, mk_state (<[q := set_veto_list (pattern :: sc_veto_list s) s]> h) t tr).
Proof. unfold list_add. by rewrite bind_unfold, load_insert, assign_insert. Qed.

Lemma set_veto_list_id s : set_veto_list (sc_veto_list s) s = s.
Proof. by destruct s. Qed.

(** ** The veto loop touches the share it is given and nothing else *)

Lemma parse_veto_loop_frame env fuel q mem off sz s h t tr r σ' :
  parse_veto_loop env fuel q mem off sz (mk_state (<[q := s]> h) t tr) = Ok (r, σ') ->
  exists pats evs,
    σ' = mk_state (<[q := set_veto_list (pats ++ sc_veto_list s) s]> h) t (tr ++ evs)
    /\ Forall veto_event evs
    /\ (r = 0 /\ Forall alloc_fine evs
        \/ r = - ENOMEM /\ exists site, EAlloc site false ∈ evs).
Proof.
  revert off sz s tr. induction fuel as [|fuel IH]; intros off sz s tr; [discriminate|].
  cbn [parse_veto_loop].
  destruct (0 <? sz).
  2:{ intros [= <- <-]. exists [], []. rewrite app_nil_r. cbn [app].
      rewrite set_veto_list_id. repeat split; auto. }
  rewrite bind_unfold, try_alloc_unfold.
  destruct (alloc_ok env (length tr)) eqn:Ha; cbn [negb].
  2:{ intros [= <- <-]. exists [], [EAlloc AllocVeto false]. cbn [app].
      rewrite set_veto_list_id. split; [done|]. split.
      - repeat constructor. exists false; auto.
      - right. split; [done|]. exists AllocVeto. set_solver. }
  destruct (strlen_at mem off) as [len|]; [|discriminate].
  destruct (to_int len =? 0).
  { intros [= <- <-]. exists [], [EAlloc AllocVeto true]. cbn [app].
    rewrite set_veto_list_id. split; [done|]. split.
    - repeat constructor. exists true; auto.
    - left. split; [done|]. repeat constructor. by exists AllocVeto. }
  rewrite bind_unfold, kstrdup_unfold. rewrite length_app. cbn [length].
  destruct (alloc_ok env (length tr + 1)) eqn:Hb.
  2:{ intros [= <- <-]. exists [], [EAlloc AllocVeto true; EAlloc DupPattern false].
      rewrite <- app_assoc. cbn [app].
      rewrite set_veto_list_id. split; [done|]. split.
      - repeat constructor; [exists true | exists false]; auto.
      - right. split; [done|]. exists DupPattern. set_solver. }
  rewrite bind_unfold, list_add_insert. intros H.
  apply IH in H as (pats & evs & -> & Hev & Hr).
  exists (pats ++ [string_at mem off len]),
         ([EAlloc AllocVeto true; EAlloc DupPattern true] ++ evs).
  split.
  { f_equal.
    - f_equal. cbn. by rewrite <- app_assoc.
    - by rewrite <- !app_assoc. }
  split.
  { repeat constructor; [exists true | exists true | ]; auto. }
  destruct Hr as [[-> Hf] | [-> (site & Hs)]].
  - left. split; [done|]. repeat constructor; [by exists AllocVeto | by exists DupPattern | done].
  - right. split; [done|]. exists site. set_solver.
Qed.

(** ** What [construct] does to the state *)

Lemma fresh_heap_None (h : gmap nat ksmbd_share_config) :
  h !! fresh (dom h) = None.
Proof. apply not_elem_of_dom, is_fresh. Qed.

Lemma ksmbd_alloc_share_unfold env h t tr :
  ksmbd_alloc_share env (mk_state h t tr) =
    if alloc_ok env (length tr)
    then Ok (Some (fresh (dom h)),
             mk_state (<[fresh (dom h) := ksmbd_alloc_mem env]> h) t
               (tr ++ [EAlloc AllocShare true]))
    else Ok (None, mk_state h t (tr ++ [EAlloc AllocShare false])).
Proof.
  unfold ksmbd_alloc_share. rewrite bind_unfold, try_alloc_unfold.
  by destruct (alloc_ok env (length tr)).
Qed.

Lemma kill_share_insert q s h t tr :
  h !! q = None ->
  kill_share q (mk_state (<[q := s]> h) t tr) =
    Ok (tt, mk_state h t
              (tr ++ if sc_path s is Some _ then [EPathPut (sc_vfs_path s)] else [])).
Proof.
  intros Hq. unfold kill_share.
  rewrite bind_unfold, load_insert. cbv beta iota.
  rewrite bind_unfold, assign_insert. cbv beta iota.
  destruct (sc_path s); rewrite bind_unfold; unfold kfree;
    cbn [emit ret heap shares_table trace].
  - by rewrite delete_insert_id.
  - by rewrite delete_insert_id, app_nil_r.
Qed.

Lemma parse_veto_list_frame env q mem sz s h t tr r σ' :
  parse_veto_list env q mem sz (mk_state (<[q := s]> h) t tr) = Ok (r, σ') ->
  exists pats evs,
    σ' = mk_state (<[q := set_veto_list (pats ++ sc_veto_list s) s]> h) t (tr ++ evs)
    /\ Forall veto_event evs
    /\ (r = 0 /\ Forall alloc_fine evs
        \/ r = - ENOMEM /\ exists site, EAlloc site false ∈ evs).
Proof.
  unfold parse_veto_list. destruct (sz =? 0).
  - intros [= <- <-]. exists [], []. rewrite app_nil_r. cbn [app].
    rewrite set_veto_list_id. repeat split; auto.
  - apply parse_veto_loop_frame.
Qed.

Lemma veto_event_not_kern evs pa rc :
  Forall veto_event evs -> EKernPath pa rc ∉ evs.
Proof.
  intros H Hin. rewrite Forall_forall in H.
  destruct (H _ Hin) as [ok [?|?]]; discriminate.
Qed.

Lemma veto_event_not_put evs v :
  Forall veto_event evs -> EPathPut v ∉ evs.
Proof.
  intros H Hin. rewrite Forall_forall in H.
  destruct (H _ Hin) as [ok [?|?]]; discriminate.
Qed.

Lemma veto_fine_tolerated pipe evs :
  Forall veto_event evs -> Forall alloc_fine evs -> Forall (tolerated pipe) evs.
Proof.
  rewrite !Forall_forall. intros Hv Hf e He.
  destruct (Hv _ He) as [ok [-> | ->]]; destruct (Hf _ He) as [site Heq];
    inversion Heq; done.
Qed.

Lemma tolerated_prefix pipe okn okp evs :
  okn = true \/ pipe = true ->
  Forall (tolerated pipe) evs ->
  Forall (tolerated pipe)
    ([EAlloc AllocShare true; EAlloc DupName okn; EAlloc DupPath okp] ++ evs).
Proof.
  intros Hn Hev. cbn [app].
  constructor; [reflexivity|]. constructor; [exact Hn|]. constructor; [exact I|].
  exact Hev.
Qed.

Lemma call_kern_path_unfold env pa h t tr :
  call_kern_path env pa (mk_state h t tr) =
    Ok (kern_path env (length tr) pa,
        mk_state h t (tr ++ [EKernPath pa (fst (kern_path env (length tr) pa))])).
Proof. reflexivity. Qed.

Lemma construct_spec env name resp h t tr r σ' :
  construct env name resp (mk_state h t tr) = Ok (r, σ') ->
  exists evs,
    match r with
    | None =>
        σ' = mk_state h t (tr ++ evs)
        /\ (forall pa rc, EKernPath pa rc ∈ evs -> rc ≠ 0 -> forall v, EPathPut v ∉ evs)
    | Some q =>
        q = fresh (dom h)
        /\ exists s,
             σ' = mk_state (<[q := s]> h) t (tr ++ evs)
             /\ Forall (tolerated (is_pipe env resp)) evs
             /\ sc_refcount s = 1
             /\ sc_flags s = resp_flags resp
             /\ (sc_name s = Some name
                 \/ sc_name s = None /\ is_pipe env resp = true
                    /\ EAlloc DupName false ∈ evs)
    end.
Proof.
  unfold construct. rewrite bind_unfold, ksmbd_alloc_share_unfold.
  destruct (alloc_ok env (length tr)) eqn:Ha; cbv beta iota.
  2:{ intros [= <- <-]. exists [EAlloc AllocShare false]. split; [done|].
      intros pa rc H. set_solver. }
  set (q := fresh (dom h)). assert (Hq : h !! q = None) by apply fresh_heap_None.
  do 4 run1.
  rewrite length_app; cbn [length].
  set (n := if alloc_ok env (length tr + 1) then Some name else None).
  do 2 run1.
  unfold test_share_config_flag; cbn [sc_flags set_name set_veto_list set_refcount set_flags].
  fold (is_pipe env resp).
  destruct (is_pipe env resp) eqn:Hp; cbn [negb].
  { (* a pipe *)
    intros [= <- <-]. rewrite <- app_assoc. cbn [app].
    eexists. split; [done|]. eexists. split; [reflexivity|].
    split.
    { constructor; [reflexivity|]. constructor; [by right|]. constructor. }
    split; [done|]. split; [done|].
    cbn. subst n. destruct (alloc_ok env (length tr + 1)); [by left|].
    right. split; [done|]. split; [done|]. set_solver. }
  run1. rewrite !length_app; cbn [length].
  set (okp := alloc_ok env (length tr + 1 + 1)).
  set (tr1 := ((tr ++ _) ++ _) ++ _).
  assert (Htr1 : tr1 = tr ++ [EAlloc AllocShare true;
                              EAlloc DupName (alloc_ok env (length tr + 1));
                              EAlloc DupPath okp]).
  { subst tr1. by rewrite <- !app_assoc. }
  clearbody tr1 okp. subst tr1.
  assert (Hrun : exists s2,
    sc_refcount s2 = 1 /\ sc_flags s2 = resp_flags resp /\ sc_name s2 = n
    /\ sc_veto_list s2 = [] /\ (okp = false -> sc_path s2 = None)
    /\ forall k : kernel (option nat),
         (assign q (set_path (if okp then Some (resp_path resp) else None)) ;;
          (if (if okp then Some (resp_path resp) else None) is Some pa
           then assign q (set_path_sz (Z.of_nat (length pa) mod 2 ^ 32))
           else ret tt) ;;
          assign q (set_create_mask (resp_create_mask resp)) ;;
          assign q (set_directory_mask (resp_directory_mask resp)) ;;
          assign q (set_force_create_mode (resp_force_create_mode resp)) ;;
          assign q (set_force_directory_mode (resp_force_directory_mode resp)) ;;
          assign q (set_force_uid (resp_force_uid resp)) ;;
          assign q (set_force_gid (resp_force_gid resp)) ;;
          k)
           (mk_state
              (<[q := set_name n (set_veto_list [] (set_refcount 1
                        (set_flags (resp_flags resp) (ksmbd_alloc_mem env))))]> h)
              t
              (tr ++ [EAlloc AllocShare true;
                      EAlloc DupName (alloc_ok env (length tr + 1));
                      EAlloc DupPath okp]))
         = k (mk_state (<[q := s2]> h) t
                (tr ++ [EAlloc AllocShare true;
                        EAlloc DupName (alloc_ok env (length tr + 1));
                        EAlloc DupPath okp]))).
  { destruct okp.
    - eexists. split; [|split; [|split; [|split; [|split]]]].
      6:{ intros k. do 8 run1. reflexivity. }
      all: done.
    - eexists. split; [|split; [|split; [|split; [|split]]]].
      6:{ intros k. do 8 run1. reflexivity. }
      all: done. }
  destruct Hrun as (s2 & Hrc & Hfl & Hnm & Hvl & Hpa & Hk). rewrite Hk. clear Hk.
  rewrite bind_unfold.
  destruct (parse_veto_list _ _ _ _ _) as [[r0 σ1]| |] eqn:Hparse; [|discriminate..].
  apply parse_veto_list_frame in Hparse as (pats & evs & -> & Hev & Hr).
  run1. cbn [sc_path set_veto_list].
  rewrite Hvl, app_nil_r. rewrite <- app_assoc.
  set (tr2 := tr ++ _).
  destruct (sc_path s2) as [pa|] eqn:Hpath.
  - (* the path was copied *)
    destruct (r0 =? 0) eqn:Hr0.
    + apply Z.eqb_eq in Hr0 as ->.
      destruct Hr as [[_ Hfine] | [[=] _]].
      rewrite bind_unfold, bind_unfold, call_kern_path_unfold. cbv beta iota.
      set (kp := kern_path env (length tr2) pa).
      destruct (fst kp =? 0) eqn:Hkp; run1; rewrite ret_unfold; cbv beta iota;
        run1; cbn [sc_name set_vfs_path set_path set_veto_list]; rewrite Hnm, Hkp;
        cbn [negb orb].
      * apply Z.eqb_eq in Hkp.
        subst n. destruct (alloc_ok env (length tr + 1)) eqn:Hn.
        -- intros [= <- <-]. eexists. split; [done|]. eexists.
           split; [subst tr2; rewrite <- app_assoc; reflexivity|].
           split.
           { apply tolerated_prefix; [by left|].
             apply Forall_app. split; [by apply veto_fine_tolerated|].
             constructor; [done|constructor]. }
           cbn. auto.
        -- rewrite bind_unfold, kill_share_insert by done. cbv beta iota.
           cbn [sc_path set_vfs_path set_veto_list]. rewrite Hpath.
           intros [= <- <-]. eexists. split.
           { subst tr2. rewrite <- !app_assoc. reflexivity. }
           intros pa' rc Hin Hne. exfalso. split_in Hin.
           ++ by apply veto_event_not_kern in Hin.
           ++ injection Hin as -> ->. done.
      * rewrite bind_unfold, kill_share_insert by done. cbv beta iota.
        cbn [sc_path set_path set_veto_list].
        intros [= <- <-]. eexists. split.
        { subst tr2. rewrite <- !app_assoc. reflexivity. }
        intros pa' rc _ _ v Hin. split_in Hin.
        by apply veto_event_not_put in Hin.
    + rewrite bind_unfold, ret_unfold. cbv beta iota. run1.
      rewrite Hr0. cbn [negb orb].
      rewrite bind_unfold, kill_share_insert by done. cbv beta iota.
      cbn [sc_path set_veto_list]. rewrite Hpath.
      intros [= <- <-]. eexists. split.
      { subst tr2. rewrite <- !app_assoc. reflexivity. }
      intros pa' rc Hin Hne. exfalso. split_in Hin.
      by apply veto_event_not_kern in Hin.
  - (* no path *)
    rewrite bind_unfold, ret_unfold. cbv beta iota. run1.
    cbn [sc_name set_veto_list]. rewrite Hnm.
    destruct (r0 =? 0) eqn:Hr0; cbn [negb orb].
    + apply Z.eqb_eq in Hr0 as ->.
      destruct Hr as [[_ Hfine] | [[=] _]].
      subst n. destruct (alloc_ok env (length tr + 1)) eqn:Hn.
      * intros [= <- <-]. eexists. split; [done|]. eexists.
        split; [subst tr2; reflexivity|].
        split.
        { apply tolerated_prefix; [by left|].
          by apply veto_fine_tolerated. }
        cbn. auto.
      * rewrite bind_unfold, kill_share_insert by done. cbv beta iota.
        cbn [sc_path set_veto_list]. rewrite Hpath.
        intros [= <- <-]. eexists. split.
        { subst tr2. rewrite <- !app_assoc. reflexivity. }
        intros pa' rc Hin Hne. exfalso. split_in Hin.
        by apply veto_event_not_kern in Hin.
    + rewrite bind_unfold, kill_share_insert by done. cbv beta iota.
      cbn [sc_path set_veto_list]. rewrite Hpath.
      intros [= <- <-]. eexists. split.
      { subst tr2. rewrite <- !app_assoc. reflexivity. }
      intros pa' rc Hin Hne. exfalso. split_in Hin.
      by apply veto_event_not_kern in Hin.
Qed.

(** ** Lookup and reference acquisition *)

(** A lookup leaves the state as it is. *)
Lemma lookup_chain_state name chain σ r σ' :
  lookup_chain name chain σ = Ok (r, σ') -> σ' = σ.
Proof.
  induction chain as [|p chain IH]; cbn [lookup_chain].
  - by intros [= _ <-].
  - rewrite bind_unfold. unfold load.
    destruct (heap σ !! p) as [s|]; [|discriminate].
    destruct (sc_name s) as [n|]; [|discriminate].
    destruct (decide (name = n)); [by intros [= _ <-] | exact IH].
Qed.

Lemma lookup_chain_Some name chain σ p σ' :
  lookup_chain name chain σ = Ok (Some p, σ') ->
  exists l1 l2 s,
    chain = l1 ++ p :: l2
    /\ Forall (other_name (heap σ) name) l1
    /\ heap σ !! p = Some s /\ sc_name s = Some name.
Proof.
  induction chain as [|p0 chain IH]; cbn [lookup_chain]; [discriminate|].
  rewrite bind_unfold. unfold load.
  destruct (heap σ !! p0) as [s|] eqn:Hs; [|discriminate].
  destruct (sc_name s) as [n|] eqn:Hn; [|discriminate].
  destruct (decide (name = n)) as [->|Hne].
  - intros [= <- <-]. exists [], chain, s. auto.
  - intros H. destruct (IH H) as (l1 & l2 & s' & -> & Hl1 & Hp & Hname).
    exists (p0 :: l1), l2, s'. repeat split; auto.
    constructor; [|done]. exists s, n. auto.
Qed.

Lemma lookup_chain_None name chain σ σ' :
  lookup_chain name chain σ = Ok (None, σ') ->
  Forall (other_name (heap σ) name) chain.
Proof.
  induction chain as [|p0 chain IH]; cbn [lookup_chain]; [constructor|].
  rewrite bind_unfold. unfold load.
  destruct (heap σ !! p0) as [s|] eqn:Hs; [|discriminate].
  destruct (sc_name s) as [n|] eqn:Hn; [|discriminate].
  destruct (decide (name = n)) as [->|Hne]; [discriminate|].
  intros H. constructor; [|by apply IH]. exists s, n. auto.
Qed.

(** And the other way round. *)
Lemma lookup_chain_found name l1 p l2 s σ :
  Forall (other_name (heap σ) name) l1 ->
  heap σ !! p = Some s -> sc_name s = Some name ->
  lookup_chain name (l1 ++ p :: l2) σ = Ok (Some p, σ).
Proof.
  intros Hl1 Hp Hname. induction Hl1 as [|p0 l1 (s0 & n0 & Hs0 & Hn0 & Hne) _ IH];
    cbn [app lookup_chain]; rewrite bind_unfold; unfold load.
  - rewrite Hp, Hname. by rewrite decide_True.
  - rewrite Hs0, Hn0. by rewrite decide_False.
Qed.

Lemma lookup_chain_missing name chain σ :
  Forall (other_name (heap σ) name) chain ->
  lookup_chain name chain σ = Ok (None, σ).
Proof.
  intros H. induction H as [|p0 l1 (s0 & n0 & Hs0 & Hn0 & Hne) _ IH];
    cbn [lookup_chain]; [done|].
  rewrite bind_unfold; unfold load. rewrite Hs0, Hn0. by rewrite decide_False.
Qed.

Lemma share_lookup_state env name σ r σ' :
  __share_lookup env name σ = Ok (r, σ') -> σ' = σ.
Proof. apply lookup_chain_state. Qed.

(** [__get_share_config] in full. *)
Lemma get_share_config_unfold p s σ :
  heap σ !! p = Some s ->
  __get_share_config p σ =
    if sc_refcount s =? 0 then Ok (None, σ)
    else Ok (Some p,
             mk_state (<[p := set_refcount (to_int (sc_refcount s + 1)) s]> (heap σ))
               (shares_table σ) (trace σ)).
Proof.
  intros Hp. unfold __get_share_config. rewrite bind_unfold. unfold load. rewrite Hp.
  destruct (sc_refcount s =? 0); [done|].
  rewrite bind_unfold. unfold assign. by rewrite Hp.
Qed.

Lemma get_share_config_Ok p σ r σ' :
  __get_share_config p σ = Ok (r, σ') ->
  exists s, heap σ !! p = Some s.
Proof.
  unfold __get_share_config. rewrite bind_unfold. unfold load.
  destruct (heap σ !! p) as [s|]; [eauto | discriminate].
Qed.

(** [kill_share] in full. *)
Lemma kill_share_unfold p s σ :
  heap σ !! p = Some s ->
  kill_share p σ =
    Ok (tt, mk_state (delete p (heap σ)) (shares_table σ)
              (trace σ ++ if sc_path s is Some _ then [EPathPut (sc_vfs_path s)] else [])).
Proof.
  intros Hp. unfold kill_share. rewrite bind_unfold. unfold load. rewrite Hp.
  rewrite bind_unfold. unfold assign. rewrite Hp. cbv beta iota.
  destruct (sc_path s); rewrite bind_unfold; unfold kfree;
    cbn [emit ret heap shares_table trace].
  - by rewrite delete_insert_eq.
  - by rewrite delete_insert_eq, app_nil_r.
Qed.

Lemma kill_share_Ok p σ x :
  kill_share p σ = Ok x -> exists s, heap σ !! p = Some s.
Proof.
  unfold kill_share. rewrite bind_unfold. unfold load.
  destruct (heap σ !! p) as [s|]; [eauto | discriminate].
Qed.

(** ** The reconciliation step and the whole fetch *)

Lemma other_name_insert_fresh h name p q s :
  h !! q = None -> other_name h name p -> other_name (<[q := s]> h) name p.
Proof.
  intros Hq (s0 & n0 & Hs0 & Hn0 & Hne). exists s0, n0. split; [|done].
  rewrite lookup_insert_ne; [done|]. intros ->. congruence.
Qed.

Lemma hash_add_unfold env q key σ :
  hash_add env q key σ =
    Ok (tt, mk_state (heap σ)
              (<[hash_min env key := q :: bucket env key σ]> (shares_table σ))
              (trace σ)).
Proof. reflexivity. Qed.

(** The three ways through [reconcile]. *)
Lemma reconcile_absent env name q σ :
  __share_lookup env name σ = Ok (None, σ) ->
  reconcile env name q σ =
    Ok (Some q,
        mk_state (heap σ)
          (<[hash_min env (share_name_hash env name) :=
               q :: bucket env (share_name_hash env name) σ]> (shares_table σ))
          (trace σ)).
Proof.
  intros Hl. unfold reconcile. rewrite bind_unfold, Hl. cbv beta iota.
  rewrite bind_unfold, ret_unfold. cbv beta iota.
  by rewrite bind_unfold, hash_add_unfold.
Qed.

Lemma reconcile_dying env name q p s σ :
  __share_lookup env name σ = Ok (Some p, σ) ->
  heap σ !! p = Some s -> sc_refcount s = 0 ->
  reconcile env name q σ =
    Ok (Some q,
        mk_state (heap σ)
          (<[hash_min env (share_name_hash env name) :=
               q :: bucket env (share_name_hash env name) σ]> (shares_table σ))
          (trace σ)).
Proof.
  intros Hl Hp Hrc. unfold reconcile. rewrite bind_unfold, Hl. cbv beta iota.
  rewrite bind_unfold, (get_share_config_unfold _ _ _ Hp), Hrc. cbn [Z.eqb].
  by rewrite bind_unfold, hash_add_unfold.
Qed.

Lemma reconcile_live env name q sq p s σ :
  __share_lookup env name σ = Ok (Some p, σ) ->
  heap σ !! p = Some s -> sc_refcount s ≠ 0 ->
  heap σ !! q = Some sq -> p ≠ q ->
  reconcile env name q σ =
    Ok (Some p,
        mk_state
          (delete q (<[p := set_refcount (to_int (sc_refcount s + 1)) s]> (heap σ)))
          (shares_table σ)
          (trace σ ++ if sc_path sq is Some _ then [EPathPut (sc_vfs_path sq)] else [])).
Proof.
  intros Hl Hp Hrc Hq Hne. unfold reconcile. rewrite bind_unfold, Hl. cbv beta iota.
  rewrite bind_unfold, (get_share_config_unfold _ _ _ Hp).
  apply Z.eqb_neq in Hrc. rewrite Hrc.
  rewrite bind_unfold.
  erewrite kill_share_unfold; [done|].
  cbn [heap]. by rewrite lookup_insert_ne.
Qed.

Lemma reconcile_events env name q σ r σ' :
  reconcile env name q σ = Ok (r, σ') ->
  r ≠ None /\ exists evs, trace σ' = trace σ ++ evs /\ Forall put_event evs.
Proof.
  unfold reconcile. rewrite bind_unfold.
  destruct (__share_lookup env name σ) as [[found σ1]| |] eqn:Hl; [|discriminate..].
  assert (σ1 = σ) as -> by (eapply share_lookup_state; eauto).
  rewrite bind_unfold.
  assert (Hadd : (hash_add env q (share_name_hash env name);; ret (Some q)) σ = Ok (r, σ') ->
                 r ≠ None /\ exists evs, trace σ' = trace σ ++ evs /\ Forall put_event evs).
  { rewrite bind_unfold, hash_add_unfold. intros [= <- <-]. split; [done|].
    exists []. by rewrite app_nil_r. }
  destruct found as [p|]; [|rewrite ret_unfold; exact Hadd].
  destruct (__get_share_config p σ) as [[got σ2]| |] eqn:Hg; [|discriminate..].
  destruct (get_share_config_Ok _ _ _ _ Hg) as [s Hp].
  rewrite (get_share_config_unfold _ _ _ Hp) in Hg.
  destruct (sc_refcount s =? 0).
  { injection Hg as <- <-. exact Hadd. }
  injection Hg as <- <-.
  rewrite bind_unfold.
  destruct (kill_share q _) as [[[] σ3]| |] eqn:Hk; [|discriminate..].
  destruct (kill_share_Ok _ _ _ Hk) as [sq Hq].
  rewrite (kill_share_unfold _ _ _ Hq) in Hk. injection Hk as <-.
  intros [= <- <-]. split; [done|]. cbn [trace].
  eexists. split; [reflexivity|].
  destruct (sc_path sq); repeat constructor. by eexists.
Qed.

Lemma ipc_request_unfold env name σ :
  ipc_request env name σ =
    Ok (ksmbd_ipc_share_config_request env (length (trace σ)) name,
        mk_state (heap σ) (shares_table σ) (trace σ ++ [EIpc name])).
Proof. reflexivity. Qed.

Lemma events_of_app σ σ' evs :
  trace σ' = trace σ ++ evs -> events_of σ σ' = evs.
Proof. intros H. unfold events_of. rewrite H. apply drop_app_length. Qed.



(** * The claims *)

(** ** Veto matching *)

Lemma veto_scan_spec env veto_list filename :
  let r := veto_scan env veto_list filename in
  if fst r then
    exists l1 pattern l2,
      veto_list = l1 ++ pattern :: l2 /\ snd r = l1 ++ [pattern]
      /\ match_wildcard env pattern filename = true
      /\ Forall (fun p => match_wildcard env p filename = false) l1
  else
    snd r = veto_list
    /\ Forall (fun p => match_wildcard env p filename = false) veto_list.
Proof.
  induction veto_list as [|p l IH]; cbn [veto_scan fst snd]; [by split|].
  destruct (match_wildcard env p filename) eqn:Hm; cbn [fst snd].
  - exists [], p, l. by repeat split.
  - cbn zeta in IH. destruct (fst (veto_scan env l filename)).
    + destruct IH as (l1 & q & l2 & -> & -> & Hq & Hl1).
      exists (p :: l1), q, l2. repeat split; [done|]. by constructor.
    + destruct IH as [-> Hl]. split; [done|]. by constructor.
Qed.

(** C8.  [ksmbd_share_veto_filename] answers true exactly when some
    pattern of the share's veto list matches the file name under
    [match_wildcard].  The patterns handed to [match_wildcard] are those
    in front of the first matching one, in list order, and then that one:
    the walk returns at the first match.  With an empty veto list the
    answer is false and nothing is evaluated. *)
Theorem veto_filename_iff_some_pattern_matches env share filename :
  (ksmbd_share_veto_filename env share filename = true <->
     exists pattern,
       pattern ∈ sc_veto_list share /\ match_wildcard env pattern filename = true)
  /\ (if ksmbd_share_veto_filename env share filename then
        exists l1 pattern l2,
          sc_veto_list share = l1 ++ pattern :: l2
          /\ snd (veto_scan env (sc_veto_list share) filename) = l1 ++ [pattern]
          /\ match_wildcard env pattern filename = true
          /\ Forall (fun p => match_wildcard env p filename = false) l1
      else snd (veto_scan env (sc_veto_list share) filename) = sc_veto_list share)
  /\ ksmbd_share_veto_filename env (set_veto_list [] share) filename = false.
Proof.
  unfold ksmbd_share_veto_filename.
  pose proof (veto_scan_spec env (sc_veto_list share) filename) as H. cbn zeta in H.
  destruct (fst (veto_scan env (sc_veto_list share) filename)).
  - destruct H as (l1 & p & l2 & Hl & Hcalls & Hp & Hl1).
    split; [|split; [|done]].
    + split; [|done]. intros _. exists p. split; [|done]. rewrite Hl. set_solver.
    + exists l1, p, l2. auto.
  - destruct H as [Hcalls Hnone]. split; [|split; [|done]]; [|done].
    split; [done|]. intros (p & Hin & Hp).
    rewrite Forall_forall in Hnone. rewrite (Hnone _ Hin) in Hp. done.
Qed.

(** ** The caller's name buffer *)

Lemma strtolower_map env name : strtolower env name = map (tolower env) name.
Proof. induction name as [|c name IH]; cbn; [done | by rewrite IH]. Qed.

Lemma lookup_get_None env name σ σ' :
  lookup_get env name σ = Ok (None, σ') -> σ' = σ.
Proof.
  unfold lookup_get. rewrite bind_unfold.
  destruct (__share_lookup env name σ) as [[found σ1]| |] eqn:Hl; [|discriminate..].
  apply share_lookup_state in Hl as ->.
  destruct found as [p|]; [|by intros [= <-]].
  intros Hg. destruct (get_share_config_Ok _ _ _ _ Hg) as [s Hp].
  rewrite (get_share_config_unfold _ _ _ Hp) in Hg.
  destruct (sc_refcount s =? 0); [by injection Hg as <- | discriminate].
Qed.

(** C9.  [ksmbd_share_config_get] lower-cases the caller's buffer in
    place: when the call returns, the buffer holds the name with
    [tolower] applied to every character, and the lookup (and, on a miss,
    the fetch) was made with that lower-cased name. *)
Theorem get_lowercases_caller_buffer env name σ buf r σ' :
  ksmbd_share_config_get env name σ = Ok ((buf, r), σ') ->
  buf = map (tolower env) name
  /\ (lookup_get env buf σ = Ok (r, σ') /\ r ≠ None
      \/ lookup_get env buf σ = Ok (None, σ)
         /\ share_config_request env buf σ = Ok (r, σ')).
Proof.
  unfold ksmbd_share_config_get. rewrite strtolower_map.
  set (lname := map (tolower env) name).
  rewrite bind_unfold.
  destruct (lookup_get env lname σ) as [[[p|] σ1]| |] eqn:Hl; [| |discriminate..].
  - intros [= <- <- <-]. split; [done|]. left. done.
  - apply lookup_get_None in Hl as Hσ. subst σ1.
    rewrite bind_unfold.
    destruct (share_config_request env lname σ) as [[r' σ2]| |] eqn:Hr; [|discriminate..].
    intros [= <- <- <-]. split; [done|]. right. done.
Qed.

(** ** Credentials *)

(** C6.  When the kernel credentials can be prepared,
    [ksmbd_override_fsids] installs credentials whose fsuid is the
    session's uid if [force_uid] is the unset value and [force_uid]
    otherwise, mapped by [make_kuid]; likewise, and independently, for the
    gid; the effective capabilities are those of the prepared credentials
    with the filesystem set dropped exactly when the fsuid is not
    root's, and after the drop no filesystem capability is left; the
    credentials that were current are returned. *)
Theorem override_fsids_identity env sess share current base :
  prepare_kernel_cred env = Some base ->
  let uid := if sc_force_uid share =? SHARE_INVALID_UID
             then user_uid (sess_user sess) else sc_force_uid share in
  let gid := if sc_force_gid share =? SHARE_INVALID_GID
             then user_gid (sess_user sess) else sc_force_gid share in
  let r := ksmbd_override_fsids env sess share current in
  fst r = inr current
  /\ cred_fsuid (snd r) = make_kuid env uid
  /\ cred_fsgid (snd r) = make_kgid env gid
  /\ cred_cap_effective (snd r) =
       (if make_kuid env uid =? GLOBAL_ROOT_UID then cred_cap_effective base
        else cap_drop_fs_set env (cred_cap_effective base))
  /\ cred_rest (snd r) = cred_rest base
  /\ Z.land (cap_drop_fs_set env (cred_cap_effective base)) (CAP_FS_SET env) = 0.
Proof.
  intros Hbase uid gid r. subst r. unfold ksmbd_override_fsids. rewrite Hbase.
  fold uid. cbn [cred_fsuid cred_fsgid cred_cap_effective cred_rest].
  assert (Hu : (if negb (sc_force_uid share =? SHARE_INVALID_UID)
                then sc_force_uid share else user_uid (sess_user sess)) = uid).
  { subst uid. by destruct (sc_force_uid share =? SHARE_INVALID_UID). }
  assert (Hg : (if negb (sc_force_gid share =? SHARE_INVALID_GID)
                then sc_force_gid share else user_gid (sess_user sess)) = gid).
  { subst gid. by destruct (sc_force_gid share =? SHARE_INVALID_GID). }
  rewrite Hu, Hg. unfold uid_eq.
  destruct (make_kuid env uid =? GLOBAL_ROOT_UID); cbn [negb fst snd
    cred_fsuid cred_fsgid cred_cap_effective cred_rest].
  all: repeat split; try reflexivity.
  all: unfold cap_drop_fs_set; rewrite <- Z.land_assoc;
       rewrite (Z.land_comm (Z.lnot _)), Z.land_lnot_diag; apply Z.land_0_r.
Qed.

(** ** Construction of a share *)

(** A pipe: [construct] in full. *)
Lemma construct_pipe env name resp h t tr :
  is_pipe env resp = true ->
  construct env name resp (mk_state h t tr) =
    if alloc_ok env (length tr) then
      Ok (Some (fresh (dom h)),
          mk_state
            (<[fresh (dom h) :=
                 set_name (if alloc_ok env (length tr + 1) then Some name else None)
                   (set_veto_list []
                      (set_refcount 1
                         (set_flags (resp_flags resp) (ksmbd_alloc_mem env))))]> h)
            t
            (tr ++ [EAlloc AllocShare true;
                    EAlloc DupName (alloc_ok env (length tr + 1))]))
    else Ok (None, mk_state h t (tr ++ [EAlloc AllocShare false])).
Proof.
  intros Hp. unfold construct. rewrite bind_unfold, ksmbd_alloc_share_unfold.
  destruct (alloc_ok env (length tr)); [|done]. cbv beta iota.
  do 4 run1. rewrite length_app; cbn [length]. do 2 run1.
  unfold test_share_config_flag; cbn [sc_flags set_name set_veto_list set_refcount set_flags].
  fold (is_pipe env resp). rewrite Hp. cbn [negb].
  by rewrite ret_unfold, <- app_assoc.
Qed.

(** C10.  For a response with the pipe flag, [construct] takes the flags
    and the name and nothing else from the response: it gives the same
    result for any other response with these flags, whatever its path,
    masks, modes, forced ids and veto buffer, and [kern_path] is not
    called.  When the share object can be allocated the result is a new
    share whose flags are those of the response, whose name is the name
    asked for (no name if its copy failed), whose count is 1 and whose
    veto list is empty; its path and the other fields of the disk branch
    are as the allocator left them.  The only calls made are the two
    allocations.  When the share object cannot be allocated the result
    is [NULL] and nothing is stored. *)
Theorem pipe_share_takes_flags_and_name_only env name resp σ :
  is_pipe env resp = true ->
  exists r σ',
    construct env name resp σ = Ok (r, σ')
    /\ (forall resp', resp_flags resp' = resp_flags resp ->
          construct env name resp' σ = Ok (r, σ'))
    /\ (forall path rc, EKernPath path rc ∉ events_of σ σ')
    /\ shares_table σ' = shares_table σ
    /\ if alloc_ok env (length (trace σ)) then
         r = Some (fresh (dom (heap σ)))
         /\ events_of σ σ' =
              [EAlloc AllocShare true;
               EAlloc DupName (alloc_ok env (length (trace σ) + 1))]
         /\ heap σ' =
              <[fresh (dom (heap σ)) :=
                  mk_share
                    (if alloc_ok env (length (trace σ) + 1) then Some name else None)
                    (sc_path (ksmbd_alloc_mem env))
                    (sc_path_sz (ksmbd_alloc_mem env))
                    (resp_flags resp)
                    []
                    (sc_vfs_path (ksmbd_alloc_mem env))
                    1
                    (sc_create_mask (ksmbd_alloc_mem env))
                    (sc_directory_mask (ksmbd_alloc_mem env))
                    (sc_force_create_mode (ksmbd_alloc_mem env))
                    (sc_force_directory_mode (ksmbd_alloc_mem env))
                    (sc_force_uid (ksmbd_alloc_mem env))
                    (sc_force_gid (ksmbd_alloc_mem env))]> (heap σ)
       else
         r = None
         /\ events_of σ σ' = [EAlloc AllocShare false]
         /\ heap σ' = heap σ.
Proof.
  intros Hp. destruct σ as [h t tr]. rewrite (construct_pipe _ _ _ _ _ _ Hp).
  cbn [trace heap]. destruct (alloc_ok env (length tr)) eqn:Ha.
  - eexists _, _. split; [reflexivity|]. split; [|split; [|split]].
    + intros resp' Hfl. rewrite construct_pipe, Ha, Hfl; [done|].
      unfold is_pipe in *. by rewrite Hfl.
    + intros path rc Hin. erewrite events_of_app in Hin by reflexivity.
      split_in Hin.
    + reflexivity.
    + split; [reflexivity|]. split; [by apply events_of_app|].
      reflexivity.
  - eexists _, _. split; [reflexivity|]. split; [|split; [|split]].
    + intros resp' Hfl. rewrite construct_pipe, Ha; [done|].
      unfold is_pipe in *. by rewrite Hfl.
    + intros path rc Hin. erewrite events_of_app in Hin by reflexivity.
      split_in Hin.
    + reflexivity.
    + split; [reflexivity|]. split; [by apply events_of_app|]. reflexivity.
Qed.

(** ** Failures on the fetch path *)



(** ** Parsing a packed veto buffer *)

Lemma to_int_small z : - 2 ^ 31 <= z < 2 ^ 31 -> to_int z = z.
Proof. intros H. unfold to_int. rewrite Z.mod_small; lia. Qed.

Lemma strlen_terminated s more :
  NUL ∉ s -> strlen (s ++ NUL :: more) = Some (Z.of_nat (length s)).
Proof.
  induction s as [|c s IH]; intros Hs; cbn [app strlen length].
  - by rewrite decide_True.
  - rewrite decide_False by set_solver. rewrite IH by set_solver.
    cbn. f_equal. lia.
Qed.

Lemma strlen_at_packed pre s more :
  NUL ∉ s ->
  strlen_at (pre ++ s ++ NUL :: more) (Z.of_nat (length pre)) = Some (Z.of_nat (length s)).
Proof.
  intros Hs. unfold strlen_at.
  destruct (Z.ltb_spec (Z.of_nat (length pre)) 0) as [Hneg|_]; [lia|].
  rewrite Nat2Z.id, drop_app_length. by apply strlen_terminated.
Qed.

Lemma string_at_packed pre s more :
  string_at (pre ++ s ++ NUL :: more) (Z.of_nat (length pre)) (Z.of_nat (length s)) = s.
Proof.
  unfold string_at. rewrite !Nat2Z.id, drop_app_length. apply take_app_length.
Qed.

Lemma parse_veto_loop_packed env q rest strs :
  (forall i, alloc_ok env i = true) ->
  Forall pattern_string strs ->
  forall pre n pats fuel s h t tr,
    n < 2 ^ 31 ->
    consumed strs n = Some pats ->
    (Z.to_nat n < fuel)%nat ->
    exists evs,
      parse_veto_loop env fuel q (pre ++ pack strs ++ rest) (Z.of_nat (length pre)) n
        (mk_state (<[q := s]> h) t tr)
      = Ok (0, mk_state (<[q := set_veto_list (rev pats ++ sc_veto_list s) s]> h) t
                 (tr ++ evs)).
Proof.
  intros Hok Hstrs. induction Hstrs as [|str strs [Hnul Hlen] _ IH];
    intros pre n pats fuel s h t tr Hn Hc Hfuel.
  - cbn [consumed] in Hc. destruct (Z.leb_spec n 0) as [Hn0|Hn0]; [|discriminate].
    injection Hc as <-. destruct fuel as [|fuel]; [lia|]. cbn [parse_veto_loop].
    destruct (Z.ltb_spec 0 n) as [Hpos|_]; [lia|].
    exists []. cbn [rev app]. by rewrite set_veto_list_id, app_nil_r.
  - cbn [consumed] in Hc. destruct fuel as [|fuel]; [lia|]. cbn [parse_veto_loop].
    destruct (Z.leb_spec n 0) as [Hn0|Hn0].
    { injection Hc as <-. destruct (Z.ltb_spec 0 n) as [Hpos|_]; [lia|].
      exists []. cbn [rev app]. by rewrite set_veto_list_id, app_nil_r. }
    destruct (Z.ltb_spec 0 n) as [_|Hpos]; [|lia].
    rewrite bind_unfold, try_alloc_unfold, Hok. cbn [negb pack].
    rewrite <- app_assoc. cbn [app]. rewrite strlen_at_packed by done.
    rewrite to_int_small by lia.
    destruct str as [|c str].
    { injection Hc as <-. cbn [length Z.of_nat Z.eqb].
      eexists. cbn [rev app]. by rewrite set_veto_list_id. }
    set (str1 := c :: str) in *.
    assert (Hlen1 : 0 < Z.of_nat (length str1)) by (subst str1; cbn [length]; lia).
    destruct (Z.eqb_spec (Z.of_nat (length str1)) 0) as [Hz|_]; [lia|].
    rewrite bind_unfold, kstrdup_unfold, Hok. cbv beta iota.
    rewrite bind_unfold, list_add_insert. cbv beta iota.
    rewrite string_at_packed.
    destruct (consumed strs _) as [pats'|] eqn:Hc'; [|discriminate].
    injection Hc as <-.
    rewrite (to_int_small (_ + 1)) by lia.
    rewrite (to_int_small (n - _)) by lia.
    replace (Z.of_nat (length pre) + (Z.of_nat (length str1) + 1))
      with (Z.of_nat (length (pre ++ str1 ++ [NUL])))
      by (rewrite !length_app; cbn [length]; lia).
    replace (pre ++ str1 ++ NUL :: pack strs ++ rest)
      with ((pre ++ str1 ++ [NUL]) ++ pack strs ++ rest)
      by (by rewrite <- !app_assoc).
    edestruct (IH (pre ++ str1 ++ [NUL]) (n - (Z.of_nat (length str1) + 1)) pats' fuel)
      as [evs Hrun]; [lia | exact Hc' | lia |].
    rewrite Hrun. eexists. f_equal. f_equal. f_equal.
    + f_equal. cbn [sc_veto_list set_veto_list rev].
      by rewrite <- app_assoc.
    + rewrite <- !app_assoc. reflexivity.
Qed.

Lemma parse_veto_list_packed_run env q rest strs n pats s h t tr :
  (forall i, alloc_ok env i = true) ->
  Forall pattern_string strs ->
  n < 2 ^ 31 ->
  consumed strs n = Some pats ->
  exists evs,
    parse_veto_list env q (pack strs ++ rest) n (mk_state (<[q := s]> h) t tr)
    = Ok (0, mk_state (<[q := set_veto_list (rev pats ++ sc_veto_list s) s]> h) t
               (tr ++ evs)).
Proof.
  intros Hok Hstrs Hn Hc. unfold parse_veto_list.
  destruct (Z.eqb_spec n 0) as [->|Hz].
  -
    assert (pats = []) as ->.
    { destruct strs; cbn in Hc; congruence. }
    exists []. cbn [rev app]. by rewrite set_veto_list_id, app_nil_r.
  - apply (parse_veto_loop_packed env q rest strs Hok Hstrs [] n pats); [done..|lia].
Qed.

(** C7.  On a buffer of packed pattern strings, with allocations that
    succeed, [parse_veto_list] returns 0 and has put in front of the
    share's veto list the strings [consumed] describes: taken one at a
    time, each using up its length plus one of the announced length,
    until nothing remains or a string of length zero is met; the rest of
    the state is untouched.  With an announced length of 0 it returns 0
    at once and changes nothing, whatever the buffer. *)
Theorem parse_veto_list_consumes_packed_strings env share s strs rest n pats σ :
  (forall i, alloc_ok env i = true) ->
  Forall pattern_string strs ->
  n < 2 ^ 31 ->
  heap σ !! share = Some s ->
  consumed strs n = Some pats ->
  (exists σ',
     parse_veto_list env share (pack strs ++ rest) n σ = Ok (0, σ')
     /\ heap σ' = <[share := set_veto_list (rev pats ++ sc_veto_list s) s]> (heap σ)
     /\ shares_table σ' = shares_table σ)
  /\ (forall mem σ0, parse_veto_list env share mem 0 σ0 = Ok (0, σ0)).
Proof.
  intros Hok Hstrs Hn Hs Hc. split; [|done].
  destruct σ as [h t tr]. cbn [heap] in Hs.
  destruct (parse_veto_list_packed_run env share rest strs n pats s h t tr)
    as [evs Hrun]; [done..|].
  rewrite (insert_id h share s Hs) in Hrun. rewrite Hrun.
  eexists. split; [reflexivity|]. done.
Qed.

(** ** The order of the veto list *)

Lemma veto_scan_head env veto_list filename :
  head (snd (veto_scan env veto_list filename)) = head veto_list.
Proof.
  destruct veto_list as [|p l]; cbn [veto_scan]; [done|].
  by destruct (match_wildcard env p filename).
Qed.

Lemma veto_scan_prefix env veto_list filename :
  snd (veto_scan env veto_list filename) `prefix_of` veto_list.
Proof.
  pose proof (veto_scan_spec env veto_list filename) as H. cbn zeta in H.
  destruct (fst (veto_scan env veto_list filename)).
  - destruct H as (l1 & p & l2 & -> & -> & _). exists l2. by rewrite <- app_assoc.
  - destruct H as [-> _]. done.
Qed.

(** C4, as the code has it.  [parse_veto_list] puts each pattern at the
    head of the list, so after parsing a packed buffer into an empty veto
    list the list holds the consumed patterns in the reverse of their
    order in the buffer.  Matching walks the list from its head: the
    patterns it evaluates are an initial part of that reversed sequence,
    and the first one evaluated is the last pattern taken from the
    buffer. *)
Theorem parse_veto_list_reverses_buffer_order
    env share s strs rest n pats σ filename :
  (forall i, alloc_ok env i = true) ->
  Forall pattern_string strs ->
  n < 2 ^ 31 ->
  heap σ !! share = Some s ->
  sc_veto_list s = [] ->
  consumed strs n = Some pats ->
  exists σ' s',
    parse_veto_list env share (pack strs ++ rest) n σ = Ok (0, σ')
    /\ heap σ' !! share = Some s'
    /\ sc_veto_list s' = rev pats
    /\ snd (veto_scan env (sc_veto_list s') filename) `prefix_of` rev pats
    /\ head (snd (veto_scan env (sc_veto_list s') filename)) = last pats.
Proof.
  intros Hok Hstrs Hn Hs Hempty Hc.
  destruct σ as [h t tr]. cbn [heap] in Hs.
  destruct (parse_veto_list_packed_run env share rest strs n pats s h t tr)
    as [evs Hrun]; [done..|].
  rewrite (insert_id h share s Hs) in Hrun. rewrite Hrun, Hempty, app_nil_r.
  eexists _, _. split; [reflexivity|]. cbn [heap]. rewrite lookup_insert_eq.
  split; [reflexivity|]. cbn [sc_veto_list set_veto_list].
  split; [done|]. split; [apply veto_scan_prefix|].
  rewrite veto_scan_head, rev_alt. apply head_reverse.
Qed.

(** ** Reference acquisition *)

Lemma fetch_unfold env name σ :
  fetch env name σ =
    match ksmbd_ipc_share_config_request env (length (trace σ)) name with
    | None => Ok (None, mk_state (heap σ) (shares_table σ) (trace σ ++ [EIpc name]))
    | Some resp =>
        if resp_flags resp =? KSMBD_SHARE_FLAG_INVALID env
        then Ok (None, mk_state (heap σ) (shares_table σ) (trace σ ++ [EIpc name]))
        else construct env name resp
               (mk_state (heap σ) (shares_table σ) (trace σ ++ [EIpc name]))
    end.
Proof.
  unfold fetch. rewrite bind_unfold, ipc_request_unfold. cbv beta iota.
  destruct (ksmbd_ipc_share_config_request env _ name) as [resp|]; [|done].
  by destruct (resp_flags resp =? KSMBD_SHARE_FLAG_INVALID env).
Qed.

Lemma share_config_request_split env name σ :
  share_config_request env name σ =
    match fetch env name σ with
    | Ok (Some share, σ1) => reconcile env name share σ1
    | Ok (None, σ1) => Ok (None, σ1)
    | Oops => Oops
    | Fuel => Fuel
    end.
Proof.
  rewrite fetch_unfold. unfold share_config_request.
  rewrite bind_unfold, ipc_request_unfold. cbv beta iota.
  destruct (ksmbd_ipc_share_config_request env _ name) as [resp|]; [|done].
  destruct (resp_flags resp =? KSMBD_SHARE_FLAG_INVALID env); [done|].
  rewrite bind_unfold.
  by destruct (construct env name resp _) as [[[q|] σ1]| |].
Qed.

(** What a fetch that returns did: nothing to the store and the table
    when it failed; otherwise it added one share, at a fresh address,
    with one reference, carrying the name unless the copy of the name
    failed. *)
Lemma fetch_spec env name σ r σ' :
  fetch env name σ = Ok (r, σ') ->
  shares_table σ' = shares_table σ
  /\ (exists evs, trace σ' = trace σ ++ evs)
  /\ match r with
     | None => heap σ' = heap σ
     | Some q =>
         heap σ !! q = None
         /\ exists s,
              heap σ' = <[q := s]> (heap σ)
              /\ sc_refcount s = 1
              /\ (sc_name s = Some name
                  \/ sc_name s = None /\ EAlloc DupName false ∈ trace σ')
     end.
Proof.
  rewrite fetch_unfold.
  destruct (ksmbd_ipc_share_config_request env _ name) as [resp|].
  2:{ intros [= <- <-]. cbn. eauto. }
  destruct (resp_flags resp =? KSMBD_SHARE_FLAG_INVALID env).
  { intros [= <- <-]. cbn. eauto. }
  intros Hc. apply construct_spec in Hc as [evs Hc]. destruct r as [q|].
  - destruct Hc as (-> & s & -> & Htol & Hrc & _ & Hname). cbn [heap shares_table trace].
    split; [done|]. split; [rewrite <- app_assoc; eauto|].
    split; [apply fresh_heap_None|]. exists s. split; [done|]. split; [done|].
    destruct Hname as [Hn|(Hn & _ & Hin)]; [by left|]. right. split; [done|].
    set_solver.
  - destruct Hc as [-> _]. cbn [heap shares_table trace].
    split; [done|]. split; [rewrite <- app_assoc; eauto|]. done.
Qed.

(** A lookup that found a share finds it again after a share was added
    to the store at an address that was free. *)
Lemma share_lookup_insert_fresh env name σ σ1 p q sq :
  __share_lookup env name σ = Ok (Some p, σ) ->
  heap σ !! q = None ->
  heap σ1 = <[q := sq]> (heap σ) ->
  shares_table σ1 = shares_table σ ->
  __share_lookup env name σ1 = Ok (Some p, σ1).
Proof.
  unfold __share_lookup, bucket. intros Hl Hq Hh Ht. rewrite Ht.
  apply lookup_chain_Some in Hl as (l1 & l2 & s & -> & Hl1 & Hp & Hn).
  apply (lookup_chain_found _ _ _ _ s).
  - rewrite Hh. eapply Forall_impl; [exact Hl1|]. intros a. by apply other_name_insert_fresh.
  - rewrite Hh, lookup_insert_ne; [done|]. intros ->. congruence.
  - done.
Qed.

(** C3.  A share of the table whose reference count is zero is a miss
    for [ksmbd_share_config_get]: the acquire under the read lock fails
    and leaves the state as it is, the call goes on to
    [share_config_request], and when it returns the share is as it was,
    its count still zero, and it is not the share returned. *)
Theorem get_does_not_resurrect env name σ p s buf r σ' :
  __share_lookup env (strtolower env name) σ = Ok (Some p, σ) ->
  heap σ !! p = Some s ->
  sc_refcount s = 0 ->
  ksmbd_share_config_get env name σ = Ok ((buf, r), σ') ->
  lookup_get env (strtolower env name) σ = Ok (None, σ)
  /\ share_config_request env (strtolower env name) σ = Ok (r, σ')
  /\ r ≠ Some p
  /\ heap σ' !! p = Some s.
Proof.
  intros Hl Hp Hrc Hget.
  assert (Hmiss : lookup_get env (strtolower env name) σ = Ok (None, σ)).
  { unfold lookup_get. rewrite bind_unfold, Hl. cbv beta iota.
    by rewrite (get_share_config_unfold _ _ _ Hp), Hrc. }
  split; [done|].
  unfold ksmbd_share_config_get in Hget. rewrite bind_unfold, Hmiss in Hget.
  cbv beta iota in Hget. rewrite bind_unfold in Hget.
  destruct (share_config_request env (strtolower env name) σ)
    as [[r' σ2]| |] eqn:Hreq; [|discriminate..].
  injection Hget as _ <- <-. split; [done|].
  rewrite share_config_request_split in Hreq.
  destruct (fetch env (strtolower env name) σ) as [[[q|] σ1]| |] eqn:Hf;
    [| |discriminate..].
  - apply fetch_spec in Hf as (Ht & _ & Hq & sq & Hh & _).
    assert (Hl1 : __share_lookup env (strtolower env name) σ1 = Ok (Some p, σ1)).
    { by eapply share_lookup_insert_fresh. }
    assert (Hne : p ≠ q) by (intros ->; congruence).
    assert (Hp1 : heap σ1 !! p = Some s) by (by rewrite Hh, lookup_insert_ne).
    rewrite (reconcile_dying _ _ _ _ _ _ Hl1 Hp1 Hrc) in Hreq.
    injection Hreq as <- <-. split; [congruence|]. done.
  - injection Hreq as <- <-. apply fetch_spec in Hf as (_ & _ & Hh).
    split; [done|]. by rewrite Hh.
Qed.

(** * The claims on concrete inputs *)



(** C4: two patterns in the buffer; the list holds them, and matching
    evaluates them, last first, where the claim expected buffer order. *)
Lemma veto_order_counterexample :
  match parse_veto_list plain_env 0%nat example_veto_buffer 14 one_share_state with
  | Ok (r, σ') =>
      r = 0
      /\ (sc_veto_list <$> heap σ' !! 0%nat) = Some [lit "secret*"; lit "*.tmp"]
      /\ [lit "secret*"; lit "*.tmp"] ≠ [lit "*.tmp"; lit "secret*"]
      /\ snd (veto_scan plain_env [lit "secret*"; lit "*.tmp"] (lit "readme.md"))
         = [lit "secret*"; lit "*.tmp"]
  | _ => False
  end.
Proof. vm_compute. repeat split; discriminate. Qed.

Lemma parse_veto_list_reverses_witness :
  exists σ' s',
    parse_veto_list plain_env 0%nat (pack [lit "*.tmp"; lit "secret*"] ++ []) 14
      one_share_state = Ok (0, σ')
    /\ heap σ' !! 0%nat = Some s'
    /\ sc_veto_list s' = rev [lit "*.tmp"; lit "secret*"]
    /\ snd (veto_scan plain_env (sc_veto_list s') (lit "readme.md"))
         `prefix_of` rev [lit "*.tmp"; lit "secret*"]
    /\ head (snd (veto_scan plain_env (sc_veto_list s') (lit "readme.md")))
       = last [lit "*.tmp"; lit "secret*"].
Proof.
  apply (parse_veto_list_reverses_buffer_order plain_env 0%nat zero_share
           [lit "*.tmp"; lit "secret*"] [] 14 [lit "*.tmp"; lit "secret*"]
           one_share_state (lit "readme.md")).
  - reflexivity.
  - repeat constructor; try (apply (bool_decide_unpack _); vm_compute; exact I);
      vm_compute; reflexivity.
  - lia.
  - reflexivity.
  - reflexivity.
  - vm_compute. reflexivity.
Defined.

(** C7 on the two-pattern buffer, and on a buffer whose second string is
    empty. *)
Lemma parse_veto_list_consumes_witness :
  (exists σ',
     parse_veto_list plain_env 0%nat (pack [lit "*.tmp"; []; lit "secret*"] ++ []) 15
       one_share_state = Ok (0, σ')
     /\ heap σ' =
          <[0%nat := set_veto_list (rev [lit "*.tmp"] ++ sc_veto_list zero_share)
                       zero_share]> (heap one_share_state)
     /\ shares_table σ' = shares_table one_share_state)
  /\ (forall mem σ0, parse_veto_list plain_env 0%nat mem 0 σ0 = Ok (0, σ0)).
Proof.
  apply (parse_veto_list_consumes_packed_strings plain_env 0%nat zero_share
           [lit "*.tmp"; []; lit "secret*"] [] 15 [lit "*.tmp"] one_share_state).
  - reflexivity.
  - repeat constructor; try (apply (bool_decide_unpack _); vm_compute; exact I);
      vm_compute; reflexivity.
  - lia.
  - reflexivity.
  - vm_compute. reflexivity.
Defined.



(** C6: a session of uid and gid 1000 on a share without forced ids keeps
    its ids and loses the filesystem capabilities; on a share that forces
    root it becomes root and keeps them. *)
Lemma override_fsids_witness :
  (let r := ksmbd_override_fsids plain_env example_session unforced_share
              example_kernel_cred in
   fst r = inr example_kernel_cred
   /\ cred_fsuid (snd r) = 1000
   /\ cred_fsgid (snd r) = 1000
   /\ cred_cap_effective (snd r) = 2 ^ 38 - 1 - example_cap_fs_set
   /\ cred_rest (snd r) = 0
   /\ Z.land (cap_drop_fs_set plain_env (2 ^ 38 - 1)) example_cap_fs_set = 0)
  /\ (let r := ksmbd_override_fsids plain_env example_session root_forced_share
                 example_kernel_cred in
      fst r = inr example_kernel_cred
      /\ cred_fsuid (snd r) = 0
      /\ cred_fsgid (snd r) = 0
      /\ cred_cap_effective (snd r) = 2 ^ 38 - 1
      /\ cred_rest (snd r) = 0
      /\ Z.land (cap_drop_fs_set plain_env (2 ^ 38 - 1)) example_cap_fs_set = 0).
Proof.
  split.
  - exact (override_fsids_identity plain_env example_session unforced_share
             example_kernel_cred example_kernel_cred eq_refl).
  - exact (override_fsids_identity plain_env example_session root_forced_share
             example_kernel_cred example_kernel_cred eq_refl).
Defined.

(** C9: a mixed-case name comes back lower-cased. *)
Lemma get_lowercases_witness :
  exists σ',
    ksmbd_share_config_get disk_env (lit "DaTa") empty_state
      = Ok ((lit "data", Some 0%nat), σ')
    /\ lit "data" = map (tolower disk_env) (lit "DaTa")
    /\ (lookup_get disk_env (lit "data") empty_state = Ok (Some 0%nat, σ')
        /\ Some 0%nat ≠ None
        \/ lookup_get disk_env (lit "data") empty_state = Ok (None, empty_state)
           /\ share_config_request disk_env (lit "data") empty_state
              = Ok (Some 0%nat, σ')).
Proof.
  assert (Hrun : exists σ',
    ksmbd_share_config_get disk_env (lit "DaTa") empty_state
      = Ok ((lit "data", Some 0%nat), σ')).
  { eexists. vm_compute. reflexivity. }
  destruct Hrun as (σ' & Hrun). exists σ'. split; [exact Hrun|].
  exact (get_lowercases_caller_buffer disk_env (lit "DaTa") empty_state
           (lit "data") (Some 0%nat) σ' Hrun).
Defined.

(** C3: the table holds a share named [data] whose count is zero; a call
    for [Data] fetches anew and returns the share at address 1. *)
Lemma get_does_not_resurrect_witness :
  exists σ',
    ksmbd_share_config_get disk_env (lit "Data") dying_state
      = Ok ((lit "data", Some 1%nat), σ')
    /\ (lookup_get disk_env (strtolower disk_env (lit "Data")) dying_state
          = Ok (None, dying_state)
        /\ share_config_request disk_env (strtolower disk_env (lit "Data")) dying_state
           = Ok (Some 1%nat, σ')
        /\ Some 1%nat ≠ Some 0%nat
        /\ heap σ' !! 0%nat = Some (set_name (Some (lit "data")) zero_share)).
Proof.
  assert (Hrun : exists σ',
    ksmbd_share_config_get disk_env (lit "Data") dying_state
      = Ok ((lit "data", Some 1%nat), σ')).
  { eexists. vm_compute. reflexivity. }
  destruct Hrun as (σ' & Hrun). exists σ'. split; [exact Hrun|].
  apply (get_does_not_resurrect disk_env (lit "Data") dying_state 0%nat
           (set_name (Some (lit "data")) zero_share) (lit "data") (Some 1%nat) σ');
    [by vm_compute | reflexivity | reflexivity | exact Hrun].
Defined.

(** C10: the pipe response, whose path, masks, forced ids and veto buffer
    are all set; and the same response when the copy of the name fails. *)
Lemma pipe_share_witness :
  (exists r σ',
     construct pipe_env (lit "ipc$") example_pipe_resp empty_state = Ok (r, σ')
     /\ (forall resp', resp_flags resp' = resp_flags example_pipe_resp ->
           construct pipe_env (lit "ipc$") resp' empty_state = Ok (r, σ'))
     /\ (forall path rc, EKernPath path rc ∉ events_of empty_state σ')
     /\ shares_table σ' = shares_table empty_state
     /\ if alloc_ok pipe_env (length (trace empty_state)) then
          r = Some (fresh (dom (heap empty_state)))
          /\ events_of empty_state σ' =
               [EAlloc AllocShare true;
                EAlloc DupName (alloc_ok pipe_env (length (trace empty_state) + 1))]
          /\ heap σ' =
               <[fresh (dom (heap empty_state)) :=
                   mk_share
                     (if alloc_ok pipe_env (length (trace empty_state) + 1)
                      then Some (lit "ipc$") else None)
                     (sc_path (ksmbd_alloc_mem pipe_env))
                     (sc_path_sz (ksmbd_alloc_mem pipe_env))
                     (resp_flags example_pipe_resp)
                     []
                     (sc_vfs_path (ksmbd_alloc_mem pipe_env))
                     1
                     (sc_create_mask (ksmbd_alloc_mem pipe_env))
                     (sc_directory_mask (ksmbd_alloc_mem pipe_env))
                     (sc_force_create_mode (ksmbd_alloc_mem pipe_env))
                     (sc_force_directory_mode (ksmbd_alloc_mem pipe_env))
                     (sc_force_uid (ksmbd_alloc_mem pipe_env))
                     (sc_force_gid (ksmbd_alloc_mem pipe_env))]> (heap empty_state)
        else
          r = None
          /\ events_of empty_state σ' = [EAlloc AllocShare false]
          /\ heap σ' = heap empty_state)
  /\ construct pipe_env (lit "ipc$") example_pipe_resp empty_state
     = Ok (Some 0%nat,
           mk_state
             {[ 0%nat := mk_share (Some (lit "ipc$")) None 0 257 [] 0 1 0 0 0 0 0 0 ]}
             ∅ [EAlloc AllocShare true; EAlloc DupName true]).
Proof.
  split.
  - exact (pipe_share_takes_flags_and_name_only pipe_env (lit "ipc$") example_pipe_resp
             empty_state eq_refl).
  - vm_compute. reflexivity.
Defined.

(** * Concurrent callers: the invariant *)

(** ** Counting holders *)

Lemma holders_insert p ts i t t' :
  ts !! i = Some t ->
  (holders p (<[i := t']> ts) + Nat.b2n (holds p t)
   = holders p ts + Nat.b2n (holds p t'))%nat.
Proof.
  revert i. induction ts as [|t0 ts IH]; intros [|i] Hi; try discriminate.
  - injection Hi as ->. cbn [holders list_insert insert]. lia.
  - cbn in Hi. specialize (IH i Hi).
    change (<[S i := t']> (t0 :: ts)) with (t0 :: <[i := t']> ts).
    cbn [holders]. lia.
Qed.

Lemma holders_le_length p ts : (holders p ts <= length ts)%nat.
Proof. induction ts as [|t ts IH]; cbn; [lia|]. destruct (holds p t); cbn; lia. Qed.

Lemma holders_lt_length p ts i t :
  ts !! i = Some t -> holds p t = false -> (holders p ts < length ts)%nat.
Proof.
  revert i. induction ts as [|t0 ts IH]; intros [|i] Hi Hh; try discriminate.
  - injection Hi as ->. cbn. rewrite Hh. pose proof (holders_le_length p ts). cbn. lia.
  - cbn in Hi. specialize (IH i Hi Hh). cbn. destruct (holds p t0); cbn; lia.
Qed.

Lemma holders_pos p ts i t :
  ts !! i = Some t -> holds p t = true -> (1 <= holders p ts)%nat.
Proof.
  revert i. induction ts as [|t0 ts IH]; intros [|i] Hi Hh; try discriminate.
  - injection Hi as ->. cbn. rewrite Hh. cbn. lia.
  - cbn in Hi. specialize (IH i Hi Hh). cbn [holders]. lia.
Qed.

Lemma holders_two p ts i j ti tj :
  ts !! i = Some ti -> ts !! j = Some tj -> i ≠ j ->
  holds p ti = true -> holds p tj = true -> (2 <= holders p ts)%nat.
Proof.
  revert i j. induction ts as [|t0 ts IH]; intros [|i] [|j] Hi Hj Hne Hhi Hhj;
    try discriminate; try done; cbn in Hi, Hj; cbn [holders].
  - injection Hi as ->. rewrite Hhi. pose proof (holders_pos p ts j tj Hj Hhj). cbn. lia.
  - injection Hj as ->. rewrite Hhj. pose proof (holders_pos p ts i ti Hi Hhi). cbn. lia.
  - assert (i ≠ j) by congruence. specialize (IH i j Hi Hj H Hhi Hhj). lia.
Qed.

Lemma holders_none p ts :
  (forall i t, ts !! i = Some t -> holds p t = false) -> holders p ts = 0%nat.
Proof.
  induction ts as [|t0 ts IH]; intros H; [done|]. cbn.
  rewrite (H 0%nat t0 eq_refl). rewrite IH; [done|].
  intros i t Hi. exact (H (S i) t Hi).
Qed.

Lemma holders_replicate_Idle p n : holders p (replicate n Idle) = 0%nat.
Proof. induction n as [|n IH]; cbn; [done | exact IH]. Qed.

(** ** Chains under changes of the store *)

Lemma dead_tail_agree h h' chain :
  (forall p, p ∈ chain -> h' !! p = h !! p) ->
  dead_tail h chain -> dead_tail h' chain.
Proof.
  induction chain as [|a chain IH]; intros Hagree; cbn [dead_tail]; [done|].
  intros [Ha Hrest]. split.
  - intros b Hb (sa & sb & n & Hsa & Hsb & Hna & Hnb) s Hs.
    rewrite Hagree in Hsa, Hsb, Hs by set_solver.
    apply (Ha b Hb); [|done]. by exists sa, sb, n.
  - apply IH; [|done]. intros p Hp. apply Hagree. set_solver.
Qed.

Lemma lookup_refcount_update (h : gmap nat ksmbd_share_config) p s v q s' :
  h !! p = Some s ->
  <[p := set_refcount v s]> h !! q = Some s' ->
  exists s0, h !! q = Some s0 /\ sc_name s' = sc_name s0.
Proof.
  intros Hp. destruct (decide (p = q)) as [->|Hne].
  - rewrite lookup_insert_eq. intros [= <-]. by exists s.
  - rewrite lookup_insert_ne by done. intros Hq. by exists s'.
Qed.

(** Changing the reference count of [p], where a count of zero stays
    zero. *)
Lemma dead_tail_refcount h chain p s v :
  h !! p = Some s ->
  (sc_refcount s = 0 -> v = 0) ->
  dead_tail h chain -> dead_tail (<[p := set_refcount v s]> h) chain.
Proof.
  intros Hp Hv. induction chain as [|a chain IH]; cbn [dead_tail]; [done|].
  intros [Ha Hrest]. split; [|by apply IH].
  intros b Hb (sa & sb & n & Hsa & Hsb & Hna & Hnb) s' Hs'.
  assert (Hsame : same_name h a b).
  { destruct (lookup_refcount_update _ _ _ _ _ _ Hp Hsa) as (sa0 & Hsa0 & Hna0).
    destruct (lookup_refcount_update _ _ _ _ _ _ Hp Hsb) as (sb0 & Hsb0 & Hnb0).
    exists sa0, sb0, n. repeat split; congruence. }
  specialize (Ha b Hb Hsame).
  destruct (decide (b = p)) as [->|Hbp].
  - rewrite lookup_insert_eq in Hs'. injection Hs' as <-. cbn. apply Hv. by apply Ha.
  - rewrite lookup_insert_ne in Hs' by done. by apply Ha.
Qed.

(** ** Each kind of step keeps the invariant *)

Lemma in_table_ext σ σ' p :
  shares_table σ' = shares_table σ -> in_table σ' p <-> in_table σ p.
Proof. unfold in_table. by intros ->. Qed.

Lemma refers_false_holds p t : refers p t = false -> holds p t = false.
Proof. unfold refers. by destruct (holds p t). Qed.

Lemma refers_false_draining p t : refers p t = false -> draining p t = false.
Proof. unfold refers. destruct (holds p t); [done|]. by destruct (draining p t). Qed.

Lemma refers_Built name q : refers q (Built name q) = true.
Proof. unfold refers, holds. by rewrite bool_decide_eq_true_2. Qed.

Lemma refers_Returned name q : refers q (Returned name (Some q)) = true.
Proof. unfold refers, holds. by rewrite bool_decide_eq_true_2. Qed.

Lemma refers_Unlinking q : refers q (Unlinking q) = true.
Proof. unfold refers, holds, draining. by rewrite bool_decide_eq_true_2. Qed.

Lemma refers_Freeing q : refers q (Freeing q) = true.
Proof. unfold refers, holds, draining. by rewrite bool_decide_eq_true_2. Qed.

Lemma holders_insert_same p ts i t t' :
  ts !! i = Some t -> holds p t = holds p t' ->
  holders p (<[i := t']> ts) = holders p ts.
Proof.
  intros Hi Hh. pose proof (holders_insert p ts i t t' Hi) as H. rewrite Hh in H. lia.
Qed.

(** A step of a thread that holds nothing before and after, and that
    leaves the store and the table alone. *)
Lemma invariant_quiet env σ σ' ts i t t' :
  invariant env σ ts ->
  ts !! i = Some t ->
  (forall p, refers p t = false) ->
  (forall p, refers p t' = false) ->
  heap σ' = heap σ ->
  shares_table σ' = shares_table σ ->
  trace σ `prefix_of` trace σ' ->
  invariant env σ' (<[i := t']> ts).
Proof.
  intros [Hsize Halloc Hcount Hdrain Hdrain0 Hbuilt Hfreeing Hchain] Hi Ht Ht' Hh Htab Htr.
  assert (Hhold : forall p, holders p (<[i := t']> ts) = holders p ts).
  { intros p. apply (holders_insert_same p ts i t t' Hi).
    by rewrite (refers_false_holds _ _ (Ht p)), (refers_false_holds _ _ (Ht' p)). }
  split.
  - by rewrite length_insert.
  - intros j tj p Hj Hr. rewrite Hh.
    apply list_lookup_insert_Some in Hj as [(_ & <- & _) | (_ & Hj)].
    + by rewrite Ht' in Hr.
    + by eapply Halloc.
  - intros p s Hp. rewrite Hh in Hp. rewrite Hhold. by apply Hcount.
  - intros j k tj tk p Hj Hk Hdj Hdk.
    apply list_lookup_insert_Some in Hj as [(_ & <- & _) | (_ & Hj)].
    { by rewrite (refers_false_draining _ _ (Ht' p)) in Hdj. }
    apply list_lookup_insert_Some in Hk as [(_ & <- & _) | (_ & Hk)].
    { by rewrite (refers_false_draining _ _ (Ht' p)) in Hdk. }
    by eapply Hdrain.
  - intros j tj p Hj Hd. rewrite Hhold.
    apply list_lookup_insert_Some in Hj as [(_ & <- & _) | (_ & Hj)].
    { by rewrite (refers_false_draining _ _ (Ht' p)) in Hd. }
    by eapply Hdrain0.
  - intros j name q Hj. rewrite Hhold.
    apply list_lookup_insert_Some in Hj as [(_ & -> & _) | (_ & Hj)].
    { specialize (Ht' q). by rewrite refers_Built in Ht'. }
    destruct (Hbuilt j name q Hj) as (H1 & Hnt & s & Hs & Hn).
    split; [done|]. split; [by rewrite in_table_ext|].
    exists s. rewrite Hh. split; [done|].
    destruct Hn as [Hn|[Hn Hin]]; [by left|]. right. split; [done|].
    destruct Htr as [k ->]. set_solver.
  - intros j p Hj.
    apply list_lookup_insert_Some in Hj as [(_ & -> & _) | (_ & Hj)].
    { specialize (Ht' p). by rewrite refers_Freeing in Ht'. }
    rewrite in_table_ext by done. by eapply Hfreeing.
  - intros b chain Hb. rewrite Htab in Hb. rewrite Hh. by apply Hchain.
Qed.

Lemma holds_eq p q name : holds p (Returned name (Some q)) = bool_decide (q = p).
Proof. reflexivity. Qed.

Lemma prefix_elem_of {A} (l k : list A) x : l `prefix_of` k -> x ∈ l -> x ∈ k.
Proof. intros [m ->] Hx. set_solver. Qed.

(** A thread that refers to nothing acquires a reference to a share of
    the table whose count is not zero. *)
Lemma invariant_acquire env σ σ' ts i t n p s :
  invariant env σ ts ->
  ts !! i = Some t ->
  (forall q, refers q t = false) ->
  heap σ !! p = Some s ->
  sc_refcount s ≠ 0 ->
  in_table σ p ->
  heap σ' = <[p := set_refcount (to_int (sc_refcount s + 1)) s]> (heap σ) ->
  shares_table σ' = shares_table σ ->
  trace σ `prefix_of` trace σ' ->
  invariant env σ' (<[i := Returned n (Some p)]> ts).
Proof.
  intros [Hsize Halloc Hcount Hdrain Hdrain0 Hbuilt Hfreeing Hchain]
    Hi Ht Hp Hrc Hin Hh Htab Htr.
  assert (Hholdp : holders p (<[i := Returned n (Some p)]> ts) = S (holders p ts)).
  { pose proof (holders_insert p ts i t (Returned n (Some p)) Hi) as H.
    rewrite (refers_false_holds _ _ (Ht p)), holds_eq, bool_decide_eq_true_2 in H by done.
    cbn in H. lia. }
  assert (Hholdq : forall q, q ≠ p ->
            holders q (<[i := Returned n (Some p)]> ts) = holders q ts).
  { intros q Hq. apply (holders_insert_same q ts i t _ Hi).
    rewrite (refers_false_holds _ _ (Ht q)), holds_eq. by rewrite bool_decide_eq_false_2. }
  assert (Hlt : (holders p ts < length ts)%nat).
  { apply (holders_lt_length p ts i t Hi). apply refers_false_holds, Ht. }
  pose proof (Hcount p s Hp) as Hrcp.
  split.
  - by rewrite length_insert.
  - intros j tj q Hj Hr. rewrite Hh.
    destruct (decide (q = p)) as [->|Hq]; [by rewrite lookup_insert_eq|].
    rewrite lookup_insert_ne by done.
    apply list_lookup_insert_Some in Hj as [(_ & <- & _) | (_ & Hj)]; [|by eapply Halloc].
    unfold refers in Hr. rewrite holds_eq, bool_decide_eq_false_2 in Hr by done. done.
  - intros q s' Hq. rewrite Hh in Hq.
    destruct (decide (q = p)) as [->|Hne].
    + rewrite lookup_insert_eq in Hq. injection Hq as <-. cbn [sc_refcount set_refcount].
      rewrite Hholdp, to_int_small; lia.
    + rewrite lookup_insert_ne in Hq by done. rewrite Hholdq by done. by apply Hcount.
  - intros j k tj tk q Hj Hk Hdj Hdk.
    apply list_lookup_insert_Some in Hj as [(_ & <- & _) | (_ & Hj)]; [done|].
    apply list_lookup_insert_Some in Hk as [(_ & <- & _) | (_ & Hk)]; [done|].
    by eapply Hdrain.
  - intros j tj q Hj Hd.
    apply list_lookup_insert_Some in Hj as [(_ & <- & _) | (_ & Hj)]; [done|].
    specialize (Hdrain0 j tj q Hj Hd).
    destruct (decide (q = p)) as [->|Hne]; [|by rewrite Hholdq].
    rewrite Hdrain0 in Hrcp. done.
  - intros j name q Hj.
    apply list_lookup_insert_Some in Hj as [(_ & [=] & _) | (_ & Hj)].
    destruct (Hbuilt j name q Hj) as (H1 & Hnt & s' & Hs' & Hn).
    assert (q ≠ p) by (intros ->; done).
    rewrite Hholdq by done. split; [done|]. split; [by rewrite in_table_ext|].
    exists s'. rewrite Hh, lookup_insert_ne by done. split; [done|].
    destruct Hn as [Hn|[Hn Hf]]; [by left|]. right. split; [done|].
    by eapply prefix_elem_of.
  - intros j q Hj.
    apply list_lookup_insert_Some in Hj as [(_ & [=] & _) | (_ & Hj)].
    rewrite in_table_ext by done. by eapply Hfreeing.
  - intros b chain Hb. rewrite Htab in Hb. destruct (Hchain b chain Hb) as (Hnd & Hdt & Hmem).
    split; [done|]. split.
    + rewrite Hh. apply dead_tail_refcount; done.
    + intros q Hq. destruct (Hmem q Hq) as (s' & Hs' & Hhash). rewrite Hh.
      destruct (decide (q = p)) as [->|Hne].
      * rewrite lookup_insert_eq. eexists. split; [done|]. cbn.
        assert (s' = s) as -> by congruence. done.
      * rewrite lookup_insert_ne by done. eauto.
Qed.

(** A holder drops its reference. *)
Lemma invariant_release_gen env σ σ' ts i n p s t' :
  invariant env σ ts ->
  ts !! i = Some (Returned n (Some p)) ->
  heap σ !! p = Some s ->
  heap σ' = <[p := set_refcount (to_int (sc_refcount s - 1)) s]> (heap σ) ->
  shares_table σ' = shares_table σ ->
  trace σ `prefix_of` trace σ' ->
  (forall q, holds q t' = false) ->
  (forall q, draining q t' = true -> q = p /\ to_int (sc_refcount s - 1) = 0) ->
  (forall q, t' ≠ Freeing q) ->
  invariant env σ' (<[i := t']> ts).
Proof.
  intros [Hsize Halloc Hcount Hdrain Hdrain0 Hbuilt Hfreeing Hchain]
    Hi Hp Hh Htab Htr Hnh Hti Hnf.
  assert (Hnb : forall name q, t' ≠ Built name q).
  { intros name q ->. specialize (Hnh q). cbn in Hnh.
    by rewrite bool_decide_eq_true_2 in Hnh. }
  assert (Hpos : (1 <= holders p ts)%nat).
  { apply (holders_pos p ts i _ Hi). by rewrite holds_eq, bool_decide_eq_true_2. }
  assert (Hholdp : S (holders p (<[i := t']> ts)) = holders p ts).
  { pose proof (holders_insert p ts i _ t' Hi) as H.
    rewrite Hnh, holds_eq, bool_decide_eq_true_2 in H by done. cbn in H. lia. }
  assert (Hholdq : forall q, q ≠ p -> holders q (<[i := t']> ts) = holders q ts).
  { intros q Hq. apply (holders_insert_same q ts i _ _ Hi).
    rewrite Hnh, holds_eq. by rewrite bool_decide_eq_false_2. }
  pose proof (Hcount p s Hp) as Hrcp.
  pose proof (holders_le_length p ts) as Hle.
  assert (Hv : to_int (sc_refcount s - 1) = sc_refcount s - 1).
  { apply to_int_small. lia. }
  assert (Hother : forall j tj, ts !! j = Some tj -> draining p tj = true -> False).
  { intros j tj Hj Hd. specialize (Hdrain0 j tj p Hj Hd). lia. }
  split.
  - by rewrite length_insert.
  - intros j tj q Hj Hr. rewrite Hh.
    destruct (decide (q = p)) as [->|Hq]; [by rewrite lookup_insert_eq|].
    rewrite lookup_insert_ne by done.
    apply list_lookup_insert_Some in Hj as [(_ & <- & _) | (_ & Hj)]; [|by eapply Halloc].
    unfold refers in Hr. rewrite Hnh in Hr. cbn in Hr.
    by destruct (Hti q Hr).
  - intros q s' Hq. rewrite Hh in Hq.
    destruct (decide (q = p)) as [->|Hne].
    + rewrite lookup_insert_eq in Hq. injection Hq as <-. cbn [sc_refcount set_refcount].
      rewrite Hv. lia.
    + rewrite lookup_insert_ne in Hq by done. rewrite Hholdq by done. by apply Hcount.
  - intros j k tj tk q Hj Hk Hdj Hdk.
    apply list_lookup_insert_Some in Hj as [(<- & <- & _) | (Hnj & Hj)];
      apply list_lookup_insert_Some in Hk as [(<- & <- & _) | (Hnk & Hk)]; try done.
    + destruct (Hti q Hdj) as [-> _]. exfalso. by eapply Hother.
    + destruct (Hti q Hdk) as [-> _]. exfalso. by eapply Hother.
    + by eapply Hdrain.
  - intros j tj q Hj Hd.
    apply list_lookup_insert_Some in Hj as [(_ & <- & _) | (_ & Hj)].
    + destruct (Hti q Hd) as [-> Hz]. lia.
    + destruct (decide (q = p)) as [->|Hne]; [exfalso; by eapply Hother|].
      rewrite Hholdq by done. by eapply Hdrain0.
  - intros j name q Hj.
    apply list_lookup_insert_Some in Hj as [(_ & Heq & _) | (Hne & Hj)].
    { by destruct (Hnb name q). }
    destruct (Hbuilt j name q Hj) as (H1 & Hnt & s' & Hs' & Hn).
    assert (q ≠ p).
    { intros ->. pose proof (holders_two p ts i j _ _ Hi Hj Hne) as H2.
      rewrite holds_eq, bool_decide_eq_true_2 in H2 by done.
      specialize (H2 eq_refl). cbn in H2. rewrite bool_decide_eq_true_2 in H2 by done.
      specialize (H2 eq_refl). lia. }
    rewrite Hholdq by done. split; [done|]. split; [by rewrite in_table_ext|].
    exists s'. rewrite Hh, lookup_insert_ne by done. split; [done|].
    destruct Hn as [Hn|[Hn Hf]]; [by left|]. right. split; [done|].
    by eapply prefix_elem_of.
  - intros j q Hj.
    apply list_lookup_insert_Some in Hj as [(_ & Heq & _) | (_ & Hj)].
    { by destruct (Hnf q). }
    rewrite in_table_ext by done. by eapply Hfreeing.
  - intros b chain Hb. rewrite Htab in Hb. destruct (Hchain b chain Hb) as (Hnd & Hdt & Hmem).
    split; [done|]. split.
    + rewrite Hh. apply dead_tail_refcount; [done| |done]. lia.
    + intros q Hq. destruct (Hmem q Hq) as (s' & Hs' & Hhash). rewrite Hh.
      destruct (decide (q = p)) as [->|Hne].
      * rewrite lookup_insert_eq. eexists. split; [done|]. cbn.
        assert (s' = s) as -> by congruence. done.
      * rewrite lookup_insert_ne by done. eauto.
Qed.

Lemma invariant_release env σ σ' ts i n p s :
  invariant env σ ts ->
  ts !! i = Some (Returned n (Some p)) ->
  heap σ !! p = Some s ->
  heap σ' = <[p := set_refcount (to_int (sc_refcount s - 1)) s]> (heap σ) ->
  shares_table σ' = shares_table σ ->
  trace σ `prefix_of` trace σ' ->
  invariant env σ'
    (<[i := if to_int (sc_refcount s - 1) =? 0 then Unlinking p else Idle]> ts).
Proof.
  intros Hinv Hi Hp Hh Htab Htr.
  apply (invariant_release_gen env σ σ' ts i n p s); try done.
  - intros q. by destruct (to_int (sc_refcount s - 1) =? 0).
  - intros q. destruct (Z.eqb_spec (to_int (sc_refcount s - 1)) 0) as [Hz|Hz]; [|done].
    cbn. intros Hd. by apply bool_decide_eq_true_1 in Hd.
  - intros q. by destruct (to_int (sc_refcount s - 1) =? 0).
Qed.

(** The owner of a share that is off the table frees it: the builder
    that lost the race, or the queued free. *)
Lemma invariant_discard env σ σ' ts i t t' p :
  invariant env σ ts ->
  ts !! i = Some t ->
  (exists name, t = Built name p) \/ t = Freeing p ->
  (forall q, refers q t' = false) ->
  heap σ' = delete p (heap σ) ->
  shares_table σ' = shares_table σ ->
  trace σ `prefix_of` trace σ' ->
  invariant env σ' (<[i := t']> ts).
Proof.
  intros Hinv Hi Ht Ht' Hh Htab Htr.
  pose proof Hinv as [Hsize Halloc Hcount Hdrain Hdrain0 Hbuilt Hfreeing Hchain].
  assert (Hoff : ~ in_table σ p).
  { destruct Ht as [[name ->] | ->]; [by destruct (Hbuilt i name p Hi) as (_ & ? & _)|].
    by eapply Hfreeing. }
  assert (Hrefq : forall q, q ≠ p -> refers q t = false).
  { intros q Hq. destruct Ht as [[name ->] | ->]; unfold refers; cbn;
      by rewrite bool_decide_eq_false_2. }
  assert (Hsole : forall j tj, i ≠ j -> ts !! j = Some tj -> refers p tj = false).
  { intros j tj Hne Hj. destruct (refers p tj) eqn:Hr; [exfalso|done].
    unfold refers in Hr. apply orb_true_iff in Hr as [Hr|Hr].
    - destruct Ht as [[name ->] | ->].
      + destruct (Hbuilt i name p Hi) as (H1 & _).
        pose proof (holders_two p ts i j _ _ Hi Hj Hne) as H2.
        cbn in H2. rewrite bool_decide_eq_true_2 in H2 by done.
        specialize (H2 eq_refl Hr). lia.
      + pose proof (Hdrain0 i _ p Hi) as H0. cbn in H0.
        rewrite bool_decide_eq_true_2 in H0 by done. specialize (H0 eq_refl).
        pose proof (holders_pos p ts j tj Hj Hr). lia.
    - destruct Ht as [[name ->] | ->].
      + destruct (Hbuilt i name p Hi) as (H1 & _).
        pose proof (Hdrain0 j tj p Hj Hr). lia.
      + apply Hne. eapply (Hdrain i j _ tj p); [done..| |done].
        cbn. by rewrite bool_decide_eq_true_2. }
  assert (Hhold : forall q, q ≠ p -> holders q (<[i := t']> ts) = holders q ts).
  { intros q Hq. apply (holders_insert_same q ts i t t' Hi).
    by rewrite (refers_false_holds _ _ (Hrefq q Hq)), (refers_false_holds _ _ (Ht' q)). }
  split.
  - by rewrite length_insert.
  - intros j tj q Hj Hr. rewrite Hh.
    apply list_lookup_insert_Some in Hj as [(_ & <- & _) | (Hne & Hj)].
    { by rewrite Ht' in Hr. }
    assert (q ≠ p).
    { intros ->. rewrite (Hsole j tj) in Hr; done. }
    rewrite lookup_delete_ne by done. by eapply Halloc.
  - intros q s Hq. rewrite Hh in Hq.
    destruct (decide (p = q)) as [->|Hne]; [by rewrite lookup_delete_eq in Hq|].
    rewrite lookup_delete_ne in Hq by done. rewrite Hhold by done. by apply Hcount.
  - intros j k tj tk q Hj Hk Hdj Hdk.
    apply list_lookup_insert_Some in Hj as [(_ & <- & _) | (_ & Hj)].
    { by rewrite (refers_false_draining _ _ (Ht' q)) in Hdj. }
    apply list_lookup_insert_Some in Hk as [(_ & <- & _) | (_ & Hk)].
    { by rewrite (refers_false_draining _ _ (Ht' q)) in Hdk. }
    by eapply Hdrain.
  - intros j tj q Hj Hd.
    apply list_lookup_insert_Some in Hj as [(_ & <- & _) | (Hne & Hj)].
    { by rewrite (refers_false_draining _ _ (Ht' q)) in Hd. }
    assert (q ≠ p).
    { intros ->. pose proof (Hsole j tj Hne Hj) as Hr.
      by rewrite (refers_false_draining _ _ Hr) in Hd. }
    rewrite Hhold by done. by eapply Hdrain0.
  - intros j name q Hj.
    apply list_lookup_insert_Some in Hj as [(_ & -> & _) | (Hne & Hj)].
    { specialize (Ht' q). by rewrite refers_Built in Ht'. }
    assert (q ≠ p).
    { intros ->. pose proof (Hsole j _ Hne Hj) as Hr. by rewrite refers_Built in Hr. }
    destruct (Hbuilt j name q Hj) as (H1 & Hnt & s & Hs & Hn).
    rewrite Hhold by done. split; [done|]. split; [by rewrite in_table_ext|].
    exists s. rewrite Hh, lookup_delete_ne by done. split; [done|].
    destruct Hn as [Hn|[Hn Hf]]; [by left|]. right. split; [done|].
    by eapply prefix_elem_of.
  - intros j q Hj.
    apply list_lookup_insert_Some in Hj as [(_ & -> & _) | (_ & Hj)].
    { specialize (Ht' q). by rewrite refers_Freeing in Ht'. }
    rewrite in_table_ext by done. by eapply Hfreeing.
  - intros b chain Hb. rewrite Htab in Hb. destruct (Hchain b chain Hb) as (Hnd & Hdt & Hmem).
    assert (Hagree : forall q, q ∈ chain -> heap σ' !! q = heap σ !! q).
    { intros q Hq. rewrite Hh, lookup_delete_ne; [done|].
      intros ->. apply Hoff. by exists b, chain. }
    split; [done|]. split; [by apply (dead_tail_agree (heap σ))|].
    intros q Hq. rewrite Hagree by done. by apply Hmem.
Qed.

(** A fetch ends with a share at a fresh address. *)
Lemma invariant_fetch env σ σ' ts i t n q s :
  invariant env σ ts ->
  ts !! i = Some t ->
  (forall p, refers p t = false) ->
  heap σ !! q = None ->
  heap σ' = <[q := s]> (heap σ) ->
  sc_refcount s = 1 ->
  sc_name s = Some n \/ sc_name s = None /\ EAlloc DupName false ∈ trace σ' ->
  shares_table σ' = shares_table σ ->
  trace σ `prefix_of` trace σ' ->
  invariant env σ' (<[i := Built n q]> ts).
Proof.
  intros Hinv Hi Ht Hq Hh Hrc Hname Htab Htr.
  pose proof Hinv as [Hsize Halloc Hcount Hdrain Hdrain0 Hbuilt Hfreeing Hchain].
  assert (Hnobody : forall j tj, ts !! j = Some tj -> refers q tj = false).
  { intros j tj Hj. destruct (refers q tj) eqn:Hr; [|done].
    destruct (Halloc j tj q Hj Hr) as [s0 Hs0]. congruence. }
  assert (Hoff : ~ in_table σ q).
  { intros (b & chain & Hb & Hin). destruct (Hchain b chain Hb) as (_ & _ & Hmem).
    destruct (Hmem q Hin) as (s0 & Hs0 & _). congruence. }
  assert (Hholdq : holders q (<[i := Built n q]> ts) = 1%nat).
  { pose proof (holders_insert q ts i t (Built n q) Hi) as H.
    rewrite (refers_false_holds _ _ (Ht q)) in H. cbn in H.
    rewrite bool_decide_eq_true_2 in H by done.
    rewrite (holders_none q ts) in H; [cbn in H; lia|].
    intros j tj Hj. apply refers_false_holds. by eapply Hnobody. }
  assert (Hhold : forall p, p ≠ q -> holders p (<[i := Built n q]> ts) = holders p ts).
  { intros p Hp. apply (holders_insert_same p ts i t _ Hi).
    rewrite (refers_false_holds _ _ (Ht p)). cbn. by rewrite bool_decide_eq_false_2. }
  split.
  - by rewrite length_insert.
  - intros j tj p Hj Hr. rewrite Hh.
    destruct (decide (p = q)) as [->|Hne]; [by rewrite lookup_insert_eq|].
    rewrite lookup_insert_ne by done.
    apply list_lookup_insert_Some in Hj as [(_ & <- & _) | (_ & Hj)]; [|by eapply Halloc].
    unfold refers in Hr. cbn in Hr. by rewrite bool_decide_eq_false_2 in Hr.
  - intros p s' Hp. rewrite Hh in Hp.
    destruct (decide (p = q)) as [->|Hne].
    + rewrite lookup_insert_eq in Hp. injection Hp as <-. rewrite Hholdq, Hrc. done.
    + rewrite lookup_insert_ne in Hp by done. rewrite Hhold by done. by apply Hcount.
  - intros j k tj tk p Hj Hk Hdj Hdk.
    apply list_lookup_insert_Some in Hj as [(_ & <- & _) | (_ & Hj)]; [done|].
    apply list_lookup_insert_Some in Hk as [(_ & <- & _) | (_ & Hk)]; [done|].
    by eapply Hdrain.
  - intros j tj p Hj Hd.
    apply list_lookup_insert_Some in Hj as [(_ & <- & _) | (_ & Hj)]; [done|].
    assert (p ≠ q).
    { intros ->. pose proof (Hnobody j tj Hj) as Hr.
      by rewrite (refers_false_draining _ _ Hr) in Hd. }
    rewrite Hhold by done. by eapply Hdrain0.
  - intros j name p Hj.
    apply list_lookup_insert_Some in Hj as [(_ & [= <- <-] & _) | (_ & Hj)].
    + split; [done|]. split; [by rewrite in_table_ext|].
      exists s. rewrite Hh, lookup_insert_eq. done.
    + assert (p ≠ q).
      { intros ->. pose proof (Hnobody j _ Hj) as Hr. by rewrite refers_Built in Hr. }
      destruct (Hbuilt j name p Hj) as (H1 & Hnt & s' & Hs' & Hn).
      rewrite Hhold by done. split; [done|]. split; [by rewrite in_table_ext|].
      exists s'. rewrite Hh, lookup_insert_ne by done. split; [done|].
      destruct Hn as [Hn|[Hn Hf]]; [by left|]. right. split; [done|].
      by eapply prefix_elem_of.
  - intros j p Hj.
    apply list_lookup_insert_Some in Hj as [(_ & [=] & _) | (_ & Hj)].
    rewrite in_table_ext by done. by eapply Hfreeing.
  - intros b chain Hb. rewrite Htab in Hb. destruct (Hchain b chain Hb) as (Hnd & Hdt & Hmem).
    assert (Hagree : forall p, p ∈ chain -> heap σ' !! p = heap σ !! p).
    { intros p Hp. rewrite Hh, lookup_insert_ne; [done|].
      intros ->. apply Hoff. by exists b, chain. }
    split; [done|]. split; [by apply (dead_tail_agree (heap σ))|].
    intros p Hp. rewrite Hagree by done. by apply Hmem.
Qed.

Lemma dead_tail_filter h (P : nat -> Prop) `{!forall x, Decision (P x)} chain :
  dead_tail h chain -> dead_tail h (filter P chain).
Proof.
  induction chain as [|a chain IH]; [done|]. cbn [dead_tail]. intros [Ha Hrest].
  rewrite filter_cons. destruct (decide (P a)); [|by apply IH].
  cbn [dead_tail]. split; [|by apply IH].
  intros b Hb. apply Ha. by apply list_elem_of_filter in Hb as [_ Hb].
Qed.

Lemma dead_tail_app_r h l1 l2 : dead_tail h (l1 ++ l2) -> dead_tail h l2.
Proof. induction l1 as [|a l1 IH]; [done|]. cbn. intros [_ H]. by apply IH. Qed.

Lemma in_table_filter σ σ' p q :
  shares_table σ' = filter (λ x, x ≠ p) <$> shares_table σ ->
  in_table σ' q -> in_table σ q /\ q ≠ p.
Proof.
  intros Htab (b & chain & Hb & Hin). rewrite Htab, lookup_fmap in Hb.
  destruct (shares_table σ !! b) as [chain0|] eqn:Hb0; [|done].
  injection Hb as <-. apply list_elem_of_filter in Hin as [Hne Hin].
  split; [|done]. by exists b, chain0.
Qed.

(** [__ksmbd_share_config_put]: the share is taken off its chain. *)
Lemma invariant_unlink env σ σ' ts i p :
  invariant env σ ts ->
  ts !! i = Some (Unlinking p) ->
  heap σ' = heap σ ->
  shares_table σ' = filter (λ x, x ≠ p) <$> shares_table σ ->
  trace σ `prefix_of` trace σ' ->
  invariant env σ' (<[i := Freeing p]> ts).
Proof.
  intros [Hsize Halloc Hcount Hdrain Hdrain0 Hbuilt Hfreeing Hchain] Hi Hh Htab Htr.
  assert (Hhold : forall q, holders q (<[i := Freeing p]> ts) = holders q ts).
  { intros q. by apply (holders_insert_same q ts i _ _ Hi). }
  split.
  - by rewrite length_insert.
  - intros j tj q Hj Hr. rewrite Hh.
    apply list_lookup_insert_Some in Hj as [(_ & <- & _) | (_ & Hj)]; [|by eapply Halloc].
    by apply (Halloc i _ q Hi).
  - intros q s Hq. rewrite Hh in Hq. rewrite Hhold. by apply Hcount.
  - intros j k tj tk q Hj Hk Hdj Hdk.
    apply list_lookup_insert_Some in Hj as [(<- & <- & _) | (Hnj & Hj)];
      apply list_lookup_insert_Some in Hk as [(<- & <- & _) | (Hnk & Hk)]; try done.
    + by apply (Hdrain i k _ tk q Hi Hk).
    + by apply (Hdrain j i tj _ q Hj Hi).
    + by eapply Hdrain.
  - intros j tj q Hj Hd. rewrite Hhold.
    apply list_lookup_insert_Some in Hj as [(_ & <- & _) | (_ & Hj)];
      [by apply (Hdrain0 i _ q Hi) | by eapply Hdrain0].
  - intros j name q Hj.
    apply list_lookup_insert_Some in Hj as [(_ & [=] & _) | (_ & Hj)].
    destruct (Hbuilt j name q Hj) as (H1 & Hnt & s & Hs & Hn).
    rewrite Hhold. split; [done|]. split.
    { intros Hin. by apply (in_table_filter σ σ' p q Htab) in Hin as [Hin _]. }
    exists s. rewrite Hh. split; [done|].
    destruct Hn as [Hn|[Hn Hf]]; [by left|]. right. split; [done|].
    by eapply prefix_elem_of.
  - intros j q Hj Hin. apply (in_table_filter σ σ' p q Htab) in Hin as [Hin Hne].
    apply list_lookup_insert_Some in Hj as [(_ & [= ->] & _) | (_ & Hj)]; [done|].
    by eapply Hfreeing.
  - intros b chain Hb. rewrite Htab, lookup_fmap in Hb.
    destruct (shares_table σ !! b) as [chain0|] eqn:Hb0; [|done].
    injection Hb as <-. destruct (Hchain b chain0 Hb0) as (Hnd & Hdt & Hmem).
    rewrite Hh. split; [by apply NoDup_filter|]. split; [by apply dead_tail_filter|].
    intros q Hq. apply list_elem_of_filter in Hq as [_ Hq]. by apply Hmem.
Qed.

(** The builder puts its share at the head of the chain of its name,
    where every share of that name already on the chain is dead. *)
Lemma invariant_publish env σ σ' ts i n q :
  invariant env σ ts ->
  ts !! i = Some (Built n q) ->
  heap σ' = heap σ ->
  shares_table σ' =
    <[hash_min env (share_name_hash env n) :=
        q :: bucket env (share_name_hash env n) σ]> (shares_table σ) ->
  (forall a, a ∈ bucket env (share_name_hash env n) σ ->
             same_name (heap σ) q a -> dead (heap σ) a) ->
  trace σ `prefix_of` trace σ' ->
  invariant env σ' (<[i := Returned n (Some q)]> ts).
Proof.
  intros Hinv Hi Hh Htab Hdead Htr.
  pose proof Hinv as [Hsize Halloc Hcount Hdrain Hdrain0 Hbuilt Hfreeing Hchain].
  set (b0 := hash_min env (share_name_hash env n)) in *.
  set (chain0 := bucket env (share_name_hash env n) σ) in *.
  destruct (Hbuilt i n q Hi) as (Hone & Hoff & sq & Hsq & Hnq).
  assert (Hhold : forall p, holders p (<[i := Returned n (Some q)]> ts) = holders p ts).
  { intros p. by apply (holders_insert_same p ts i _ _ Hi). }
  assert (Hin' : forall p, in_table σ' p -> p = q \/ in_table σ p).
  { intros p (b & chain & Hb & Hin). rewrite Htab in Hb.
    destruct (decide (b0 = b)) as [<-|Hne].
    - rewrite lookup_insert_eq in Hb. injection Hb as <-.
      apply elem_of_cons in Hin as [->|Hin]; [by left|]. right.
      subst chain0. unfold bucket in Hin. fold b0 in Hin.
      destruct (shares_table σ !! b0) as [c|] eqn:Hc; [|by apply elem_of_nil in Hin].
      by exists b0, c.
    - rewrite lookup_insert_ne in Hb by done. right. by exists b, chain. }
  split.
  - by rewrite length_insert.
  - intros j tj p Hj Hr. rewrite Hh.
    apply list_lookup_insert_Some in Hj as [(_ & <- & _) | (_ & Hj)]; [|by eapply Halloc].
    by apply (Halloc i _ p Hi).
  - intros p s Hp. rewrite Hh in Hp. rewrite Hhold. by apply Hcount.
  - intros j k tj tk p Hj Hk Hdj Hdk.
    apply list_lookup_insert_Some in Hj as [(_ & <- & _) | (_ & Hj)]; [done|].
    apply list_lookup_insert_Some in Hk as [(_ & <- & _) | (_ & Hk)]; [done|].
    by eapply Hdrain.
  - intros j tj p Hj Hd. rewrite Hhold.
    apply list_lookup_insert_Some in Hj as [(_ & <- & _) | (_ & Hj)]; [done|].
    by eapply Hdrain0.
  - intros j name p Hj.
    apply list_lookup_insert_Some in Hj as [(_ & [=] & _) | (Hne & Hj)].
    destruct (Hbuilt j name p Hj) as (H1 & Hnt & s & Hs & Hn).
    assert (p ≠ q).
    { intros ->. pose proof (holders_two q ts i j _ _ Hi Hj Hne) as H2.
      cbn in H2. rewrite bool_decide_eq_true_2 in H2 by done.
      specialize (H2 eq_refl eq_refl). lia. }
    rewrite Hhold. split; [done|]. split.
    { intros Hin. by destruct (Hin' p Hin). }
    exists s. rewrite Hh. split; [done|].
    destruct Hn as [Hn|[Hn Hf]]; [by left|]. right. split; [done|].
    by eapply prefix_elem_of.
  - intros j p Hj Hin.
    apply list_lookup_insert_Some in Hj as [(_ & [=] & _) | (_ & Hj)].
    destruct (Hin' p Hin) as [->|Hin0]; [|by eapply Hfreeing].
    pose proof (Hdrain0 j _ q Hj) as H0. cbn in H0.
    rewrite bool_decide_eq_true_2 in H0 by done. specialize (H0 eq_refl). lia.
  - intros b chain Hb. rewrite Htab in Hb. rewrite Hh.
    destruct (decide (b0 = b)) as [<-|Hne].
    2:{ rewrite lookup_insert_ne in Hb by done. by apply Hchain. }
    rewrite lookup_insert_eq in Hb. injection Hb as <-.
    assert (Hold : NoDup chain0 /\ dead_tail (heap σ) chain0
              /\ forall p, p ∈ chain0 ->
                   exists s, heap σ !! p = Some s
                     /\ forall n0, sc_name s = Some n0 ->
                          hash_min env (share_name_hash env n0) = b0).
    { subst chain0. unfold bucket. fold b0.
      destruct (shares_table σ !! b0) as [c|] eqn:Hc; [by apply Hchain|].
      cbn. split; [constructor|]. split; [done|]. intros p Hp. by apply elem_of_nil in Hp. }
    destruct Hold as (Hnd & Hdt & Hmem).
    assert (Hqc : q ∉ chain0).
    { intros Hin. apply Hoff. subst chain0. unfold bucket in Hin. fold b0 in Hin.
      destruct (shares_table σ !! b0) as [c|] eqn:Hc; [|by apply elem_of_nil in Hin].
      by exists b0, c. }
    split; [by constructor|]. split; [by split|].
    intros p Hp. apply elem_of_cons in Hp as [->|Hp]; [|by apply Hmem].
    exists sq. split; [done|]. intros n0 Hn0.
    destruct Hnq as [Hnq|[Hnq _]]; [|congruence].
    assert (n0 = n) as -> by congruence. done.
Qed.

(** ** The functions behind the steps, in full *)

Lemma lookup_get_Some env name σ p σ' :
  lookup_get env name σ = Ok (Some p, σ') ->
  exists s,
    __share_lookup env name σ = Ok (Some p, σ)
    /\ heap σ !! p = Some s
    /\ sc_refcount s ≠ 0
    /\ σ' = mk_state (<[p := set_refcount (to_int (sc_refcount s + 1)) s]> (heap σ))
              (shares_table σ) (trace σ).
Proof.
  unfold lookup_get. rewrite bind_unfold.
  destruct (__share_lookup env name σ) as [[found σ1]| |] eqn:Hl; [|discriminate..].
  apply share_lookup_state in Hl as Hσ. subst σ1.
  destruct found as [p0|]; [|discriminate].
  intros Hg. destruct (get_share_config_Ok _ _ _ _ Hg) as [s Hp].
  rewrite (get_share_config_unfold _ _ _ Hp) in Hg.
  destruct (Z.eqb_spec (sc_refcount s) 0) as [Hz|Hz]; [discriminate|].
  injection Hg as <- <-. exists s. done.
Qed.

Lemma share_lookup_in_table env name σ p :
  __share_lookup env name σ = Ok (Some p, σ) -> in_table σ p.
Proof.
  unfold __share_lookup, bucket. intros Hl.
  apply lookup_chain_Some in Hl as (l1 & l2 & s & Hchain & _).
  destruct (shares_table σ !! hash_min env (share_name_hash env name)) as [c|] eqn:Hc.
  - exists (hash_min env (share_name_hash env name)), c. split; [done|].
    cbn in Hchain. rewrite Hchain. set_solver.
  - cbn in Hchain. by destruct l1.
Qed.

Lemma atomic_dec_and_test_Ok p σ z σ' :
  atomic_dec_and_test p σ = Ok (z, σ') ->
  exists s,
    heap σ !! p = Some s
    /\ z = (to_int (sc_refcount s - 1) =? 0)
    /\ σ' = mk_state (<[p := set_refcount (to_int (sc_refcount s - 1)) s]> (heap σ))
              (shares_table σ) (trace σ).
Proof.
  unfold atomic_dec_and_test. rewrite bind_unfold. unfold load.
  destruct (heap σ !! p) as [s|] eqn:Hp; [|discriminate].
  rewrite bind_unfold. unfold assign. rewrite Hp. cbv beta iota.
  intros [= <- <-]. by exists s.
Qed.

Lemma share_config_put_unfold p σ :
  __ksmbd_share_config_put p σ =
    Ok (tt, mk_state (heap σ) (filter (λ q, q ≠ p) <$> shares_table σ)
              (trace σ ++ [EScheduleWork p])).
Proof. reflexivity. Qed.

(** The ways through [reconcile], read off its result. *)
Lemma reconcile_cases env name q σ r σ' :
  reconcile env name q σ = Ok (r, σ') ->
  exists found,
    __share_lookup env name σ = Ok (found, σ)
    /\ ((r = Some q
         /\ σ' = mk_state (heap σ)
                   (<[hash_min env (share_name_hash env name) :=
                        q :: bucket env (share_name_hash env name) σ]> (shares_table σ))
                   (trace σ)
         /\ (found = None
             \/ exists p s, found = Some p /\ heap σ !! p = Some s /\ sc_refcount s = 0))
        \/ (exists p s sq,
              found = Some p /\ r = Some p
              /\ heap σ !! p = Some s /\ sc_refcount s ≠ 0
              /\ <[p := set_refcount (to_int (sc_refcount s + 1)) s]> (heap σ) !! q = Some sq
              /\ heap σ' =
                   delete q (<[p := set_refcount (to_int (sc_refcount s + 1)) s]> (heap σ))
              /\ shares_table σ' = shares_table σ
              /\ trace σ `prefix_of` trace σ')).
Proof.
  intros Hr. pose proof Hr as Hr0. unfold reconcile in Hr. rewrite bind_unfold in Hr.
  destruct (__share_lookup env name σ) as [[found σ1]| |] eqn:Hl; [|discriminate..].
  apply share_lookup_state in Hl as Hσ. subst σ1. exists found. split; [done|].
  destruct found as [p|].
  2:{ rewrite (reconcile_absent _ _ _ _ Hl) in Hr0. injection Hr0 as <- <-.
      left. auto. }
  rewrite bind_unfold in Hr.
  destruct (__get_share_config p σ) as [[got σ2]| |] eqn:Hg; [|discriminate..].
  destruct (get_share_config_Ok _ _ _ _ Hg) as [s Hp].
  destruct (Z.eqb_spec (sc_refcount s) 0) as [Hz|Hz].
  { rewrite (reconcile_dying _ _ _ _ _ _ Hl Hp Hz) in Hr0. injection Hr0 as <- <-.
    left. split; [done|]. split; [done|]. right. by exists p, s. }
  rewrite (get_share_config_unfold _ _ _ Hp) in Hg.
  apply Z.eqb_neq in Hz as Hzb. rewrite Hzb in Hg. injection Hg as <- <-.
  rewrite bind_unfold in Hr.
  destruct (kill_share q _) as [[[] σ3]| |] eqn:Hk; [|discriminate..].
  destruct (kill_share_Ok _ _ _ Hk) as [sq Hq].
  rewrite (kill_share_unfold _ _ _ Hq) in Hk. injection Hk as <-.
  injection Hr as <- <-. right. exists p, s, sq. cbn [heap shares_table trace] in *.
  repeat split; try done. by eexists.
Qed.

(** ** Every step keeps the invariant *)

Lemma bucket_chain env σ ts key :
  invariant env σ ts ->
  NoDup (bucket env key σ) /\ dead_tail (heap σ) (bucket env key σ).
Proof.
  intros Hinv. unfold bucket.
  destruct (shares_table σ !! hash_min env key) as [c|] eqn:Hc.
  - destruct (inv_chain _ _ _ Hinv _ _ Hc) as (? & ? & _). done.
  - cbn. split; [constructor | done].
Qed.

(** At the point where [reconcile] adds the new share, the shares of its
    name on the chain are dead. *)
Lemma publish_dead env σ ts i name q found :
  invariant env σ ts ->
  ts !! i = Some (Built name q) ->
  __share_lookup env name σ = Ok (found, σ) ->
  found = None
  \/ (exists p s, found = Some p /\ heap σ !! p = Some s /\ sc_refcount s = 0) ->
  forall a, a ∈ bucket env (share_name_hash env name) σ ->
            same_name (heap σ) q a -> dead (heap σ) a.
Proof.
  intros Hinv Hi Hl Hfound a Ha (sq & sa & n' & Hsq & Hsa & Hnq & Hna).
  destruct (inv_built _ _ _ Hinv i name q Hi) as (_ & _ & sq' & Hsq' & Hname).
  assert (sq' = sq) as -> by congruence.
  assert (n' = name) as -> by (destruct Hname as [?|[? _]]; congruence).
  unfold __share_lookup in Hl.
  destruct Hfound as [->|(p & s & -> & Hp & Hrc)].
  - apply lookup_chain_None in Hl. rewrite Forall_forall in Hl.
    destruct (Hl a Ha) as (sa' & na & Hsa' & Hna' & Hne). congruence.
  - apply lookup_chain_Some in Hl as (l1 & l2 & s' & Hchain & Hl1 & Hp' & Hn).
    assert (s' = s) as -> by congruence.
    destruct (bucket_chain env σ ts (share_name_hash env name) Hinv) as [_ Hdt].
    rewrite Hchain in Ha, Hdt.
    apply elem_of_app in Ha as [Ha|Ha].
    { rewrite Forall_forall in Hl1.
      destruct (Hl1 a Ha) as (sa' & na & Hsa' & Hna' & Hne). congruence. }
    apply elem_of_cons in Ha as [->|Ha].
    { intros s0 Hs0. congruence. }
    apply dead_tail_app_r in Hdt. destruct Hdt as [Hdt _].
    apply (Hdt a Ha). by exists s, sa, name.
Qed.

Lemma invariant_get_step env σ ts i t t' σ' :
  invariant env σ ts ->
  ts !! i = Some t ->
  get_step env t σ t' σ' ->
  invariant env σ' (<[i := t']> ts).
Proof.
  intros Hinv Hi Hstep. destruct Hstep as
    [name p σ σ' Hl | name σ σ' Hl | name σ σ' Hf | name q σ σ' Hf | name q r σ σ' Hr].
  - (* the lookup hits *)
    apply lookup_get_Some in Hl as (s & Hl & Hp & Hrc & ->).
    apply (invariant_acquire env σ _ ts i _ _ p s Hinv Hi); try done.
    by eapply share_lookup_in_table.
  - (* the lookup misses *)
    apply lookup_get_None in Hl as ->.
    by apply (invariant_quiet env σ σ ts i _ _ Hinv Hi).
  - (* the fetch fails *)
    apply fetch_spec in Hf as (Htab & [evs Htr] & Hh).
    apply (invariant_quiet env σ σ' ts i _ _ Hinv Hi); try done. by exists evs.
  - (* the fetch builds a share *)
    apply fetch_spec in Hf as (Htab & [evs Htr] & Hq & s & Hh & Hrc & Hname).
    apply (invariant_fetch env σ σ' ts i _ name q s Hinv Hi); try done. by exists evs.
  - (* the reconciliation *)
    apply reconcile_cases in Hr as (found & Hl & Hcase).
    destruct Hcase as [(-> & -> & Hfound) | (p & s & sq & -> & -> & Hp & Hrc & Hq & Hh & Htab & Htr)].
    + apply (invariant_publish env σ _ ts i name q Hinv Hi); try done.
      by eapply publish_dead.
    + destruct (inv_built _ _ _ Hinv i name q Hi) as (_ & Hoff & _).
      assert (Hne : p ≠ q).
      { intros ->. apply Hoff. by eapply share_lookup_in_table. }
      rewrite lookup_insert_ne in Hq by done.
      set (σ1 := mk_state (delete q (heap σ)) (shares_table σ) (trace σ)).
      assert (Hinv1 : invariant env σ1 (<[i := Fetching name]> ts)).
      { apply (invariant_discard env σ σ1 ts i _ _ q Hinv Hi); try done. left. by exists name. }
      rewrite <- (list_insert_insert_eq ts i (Returned name (Some p)) (Fetching name)).
      apply (invariant_acquire env σ1 σ' _ i (Fetching name) name p s Hinv1); try done.
      * apply list_lookup_insert_eq. by eapply lookup_lt_Some.
      * cbn. by rewrite lookup_delete_ne.
      * apply (in_table_ext σ σ1); [done|]. by eapply share_lookup_in_table.
      * rewrite Hh. cbn. by rewrite delete_insert_ne.
Qed.

Lemma invariant_thread_step env σ ts i t t' σ' :
  invariant env σ ts ->
  ts !! i = Some t ->
  thread_step env t σ t' σ' ->
  invariant env σ' (<[i := t']> ts).
Proof.
  intros Hinv Hi Hstep. destruct Hstep as
    [t σ t' σ' Hg | name σ | name σ | name p σ σ' Hd | name p σ σ' Hd
     | p σ σ' Hu | p σ σ' Hk].
  - by eapply invariant_get_step.
  - by apply (invariant_quiet env σ σ ts i _ _ Hinv Hi).
  - by apply (invariant_quiet env σ σ ts i _ _ Hinv Hi).
  - apply atomic_dec_and_test_Ok in Hd as (s & Hp & Hz & ->).
    set (σ' := mk_state _ _ _).
    pose proof (invariant_release env σ σ' ts i name p s Hinv Hi Hp eq_refl eq_refl) as H.
    rewrite <- Hz in H. by apply H.
  - apply atomic_dec_and_test_Ok in Hd as (s & Hp & Hz & ->).
    set (σ' := mk_state _ _ _).
    pose proof (invariant_release env σ σ' ts i name p s Hinv Hi Hp eq_refl eq_refl) as H.
    rewrite <- Hz in H. by apply H.
  - rewrite share_config_put_unfold in Hu. injection Hu as <-.
    apply (invariant_unlink env σ _ ts i p Hinv Hi); try done. by eexists.
  - unfold deferred_share_free in Hk.
    destruct (kill_share_Ok _ _ _ Hk) as [s Hp].
    rewrite (kill_share_unfold _ _ _ Hp) in Hk. injection Hk as <-.
    apply (invariant_discard env σ _ ts i _ _ p Hinv Hi); try done; [by right|by eexists].
Qed.

Lemma invariant_initial env n :
  Z.of_nat n < 2 ^ 31 -> invariant env empty_state (replicate n Idle).
Proof.
  intros Hn. split.
  - by rewrite length_replicate.
  - intros i t p Hi. apply lookup_replicate in Hi as [-> _]. done.
  - intros p s Hp. done.
  - intros i j ti tj p Hi. apply lookup_replicate in Hi as [-> _]. done.
  - intros i t p Hi. apply lookup_replicate in Hi as [-> _]. done.
  - intros i name q Hi. apply lookup_replicate in Hi as [[=] _].
  - intros i p Hi. apply lookup_replicate in Hi as [[=] _].
  - intros b chain Hb. done.
Qed.

Lemma invariant_rtc env (R : thread -> kstate -> thread -> kstate -> Prop) c c' :
  (forall t σ t' σ', R t σ t' σ' -> thread_step env t σ t' σ') ->
  rtc (interleave R) c c' ->
  invariant env c.1 c.2 -> invariant env c'.1 c'.2.
Proof.
  intros HR Hrtc. induction Hrtc as [c|c1 c2 c3 Hstep _ IH]; [done|].
  intros Hinv. apply IH. destruct Hstep as [i t t' σ σ' ts Hi Hs]. cbn in *.
  eapply invariant_thread_step; [done..|]. by apply HR.
Qed.

Lemma invariant_reachable env n c :
  Z.of_nat n < 2 ^ 31 -> reachable env n c -> invariant env c.1 c.2.
Proof.
  intros Hn Hr. eapply (invariant_rtc env (thread_step env)); [done|exact Hr|].
  by apply invariant_initial.
Qed.

(** ** One live share per name *)

Lemma dead_tail_pair h chain a b :
  NoDup chain -> dead_tail h chain ->
  a ∈ chain -> b ∈ chain -> a ≠ b -> same_name h a b ->
  dead h a \/ dead h b.
Proof.
  intros Hnd. induction Hnd as [|c chain Hc Hnd IH]; cbn [dead_tail].
  { intros _ Ha. by apply elem_of_nil in Ha. }
  intros [Hhead Hrest] Ha Hb Hne Hsame.
  apply elem_of_cons in Ha as [->|Ha]; apply elem_of_cons in Hb as [->|Hb].
  - done.
  - right. by apply Hhead.
  - left. apply Hhead; [done|].
    destruct Hsame as (sa & sb & n & ? & ? & ? & ?). by exists sb, sa, n.
  - by apply IH.
Qed.

Lemma invariant_one_live env σ ts p1 p2 s1 s2 name :
  invariant env σ ts ->
  in_table σ p1 -> in_table σ p2 ->
  heap σ !! p1 = Some s1 -> heap σ !! p2 = Some s2 ->
  sc_name s1 = Some name -> sc_name s2 = Some name ->
  1 <= sc_refcount s1 -> 1 <= sc_refcount s2 ->
  p1 = p2.
Proof.
  intros Hinv (b1 & c1 & Hb1 & Hin1) (b2 & c2 & Hb2 & Hin2) Hs1 Hs2 Hn1 Hn2 Hr1 Hr2.
  destruct (inv_chain _ _ _ Hinv b1 c1 Hb1) as (Hnd & Hdt & Hmem1).
  destruct (inv_chain _ _ _ Hinv b2 c2 Hb2) as (_ & _ & Hmem2).
  destruct (Hmem1 p1 Hin1) as (s1' & Hs1' & Hh1).
  destruct (Hmem2 p2 Hin2) as (s2' & Hs2' & Hh2).
  assert (s1' = s1) as -> by congruence. assert (s2' = s2) as -> by congruence.
  assert (b1 = b2) as <- by (rewrite <- (Hh1 name Hn1); by apply Hh2).
  assert (c2 = c1) as -> by congruence.
  destruct (decide (p1 = p2)) as [|Hne]; [done|exfalso].
  destruct (dead_tail_pair (heap σ) c1 p1 p2 Hnd Hdt Hin1 Hin2 Hne) as [Hd|Hd].
  - by exists s1, s2, name.
  - specialize (Hd s1 Hs1). lia.
  - specialize (Hd s2 Hs2). lia.
Qed.

(** ** Concurrent calls for one name end with one share *)

Lemma first_named_unique env x σ p p' :
  first_named env x σ p -> first_named env x σ p' -> p = p'.
Proof.
  intros (l1 & l2 & s & Hc & Hl1 & Hp & Hn & _) (l1' & l2' & s' & Hc' & Hl1' & Hp' & Hn' & _).
  rewrite Hc in Hc'. clear Hc.
  revert l1' Hl1' Hc'. induction Hl1 as [|a l1 (sa & na & Hsa & Hna & Hne) _ IH];
    intros [|a' l1'] Hl1' Hc'; cbn in Hc'.
  - congruence.
  - injection Hc' as -> _. apply Forall_cons in Hl1' as [(sa & na & Hsa & Hna & Hne) _].
    congruence.
  - injection Hc' as -> _. congruence.
  - injection Hc' as _ Hc'. apply Forall_cons in Hl1' as [_ Hl1']. by apply (IH l1').
Qed.

Lemma first_named_in_table env x σ p : first_named env x σ p -> in_table σ p.
Proof.
  intros (l1 & l2 & s & Hc & _). unfold bucket in Hc.
  destruct (shares_table σ !! hash_min env (share_name_hash env x)) as [c|] eqn:Hb.
  - exists (hash_min env (share_name_hash env x)), c. split; [done|].
    cbn in Hc. rewrite Hc. set_solver.
  - cbn in Hc. by destruct l1.
Qed.

(** [first_named] only reads the table, the names of its shares and
    whether the count of a share is zero. *)
Lemma first_named_agree env x σ σ' p :
  first_named env x σ p ->
  shares_table σ' = shares_table σ ->
  (forall a sa, in_table σ a -> heap σ !! a = Some sa ->
     exists sa', heap σ' !! a = Some sa' /\ sc_name sa' = sc_name sa
                 /\ (sc_refcount sa ≠ 0 -> sc_refcount sa' ≠ 0)) ->
  first_named env x σ' p.
Proof.
  intros Hfirst Htab Hstable.
  pose proof (first_named_in_table _ _ _ _ Hfirst) as Hinp.
  destruct Hfirst as (l1 & l2 & s & Hc & Hl1 & Hp & Hn & Hrc).
  assert (Hmem : forall a, a ∈ l1 -> in_table σ a).
  { intros a Ha. unfold bucket in Hc.
    destruct (shares_table σ !! hash_min env (share_name_hash env x)) as [c|] eqn:Hb.
    - exists (hash_min env (share_name_hash env x)), c. split; [done|].
      cbn in Hc. rewrite Hc. set_solver.
    - cbn in Hc. by destruct l1. }
  destruct (Hstable p s Hinp Hp) as (s' & Hp' & Hn' & Hrc').
  exists l1, l2, s'. split; [unfold bucket in *; by rewrite Htab|]. split.
  - rewrite Forall_forall in Hl1. apply Forall_forall. intros a Ha.
    destruct (Hl1 a Ha) as (sa & na & Hsa & Hna & Hne).
    destruct (Hstable a sa (Hmem a Ha) Hsa) as (sa' & Hsa' & Hna' & _).
    exists sa', na. split; [done|]. split; [congruence|done].
  - split; [done|]. split; [congruence|]. by apply Hrc'.
Qed.

Lemma lookup_first_named env x σ p s :
  __share_lookup env x σ = Ok (Some p, σ) ->
  heap σ !! p = Some s -> sc_refcount s ≠ 0 ->
  first_named env x σ p.
Proof.
  unfold __share_lookup. intros Hl Hp Hrc.
  apply lookup_chain_Some in Hl as (l1 & l2 & s' & Hc & Hl1 & Hp' & Hn).
  assert (s' = s) as -> by congruence. by exists l1, l2, s.
Qed.

Lemma first_named_lookup env x σ p :
  first_named env x σ p ->
  exists s, __share_lookup env x σ = Ok (Some p, σ)
            /\ heap σ !! p = Some s /\ sc_refcount s ≠ 0.
Proof.
  intros (l1 & l2 & s & Hc & Hl1 & Hp & Hn & Hrc). exists s.
  split; [|done]. unfold __share_lookup. rewrite Hc. by eapply lookup_chain_found.
Qed.

(** Acquiring a reference keeps the names and keeps live shares alive. *)
Lemma acquire_stable env σ ts i t p s a sa :
  invariant env σ ts ->
  ts !! i = Some t -> holds p t = false ->
  heap σ !! p = Some s -> sc_refcount s ≠ 0 ->
  heap σ !! a = Some sa ->
  exists sa',
    <[p := set_refcount (to_int (sc_refcount s + 1)) s]> (heap σ) !! a = Some sa'
    /\ sc_name sa' = sc_name sa
    /\ (sc_refcount sa ≠ 0 -> sc_refcount sa' ≠ 0).
Proof.
  intros Hinv Hi Hh Hp Hrc Ha.
  destruct (decide (a = p)) as [->|Hne].
  - rewrite lookup_insert_eq. assert (sa = s) as -> by congruence.
    eexists. split; [done|]. split; [done|]. intros _. cbn.
    pose proof (inv_count _ _ _ Hinv p s Hp) as Hc.
    pose proof (holders_lt_length p ts i t Hi Hh) as Hlt.
    pose proof (inv_size _ _ _ Hinv) as Hsz.
    rewrite to_int_small; lia.
  - rewrite lookup_insert_ne by done. by exists sa.
Qed.

Lemma get_step_trace env t σ t' σ' :
  get_step env t σ t' σ' -> trace σ `prefix_of` trace σ'.
Proof.
  intros [name p σ0 σ1 Hl | name σ0 σ1 Hl | name σ0 σ1 Hf | name q σ0 σ1 Hf
         | name q r σ0 σ1 Hr].
  - by apply lookup_get_Some in Hl as (s & _ & _ & _ & ->).
  - by apply lookup_get_None in Hl as ->.
  - apply fetch_spec in Hf as (_ & [evs ->] & _). by exists evs.
  - apply fetch_spec in Hf as (_ & [evs ->] & _). by exists evs.
  - apply reconcile_events in Hr as (_ & evs & -> & _). by exists evs.
Qed.

Lemma get_steps_trace env c c' :
  rtc (interleave (get_step env)) c c' -> trace c.1 `prefix_of` trace c'.1.
Proof.
  induction 1 as [c|c1 c2 c3 Hstep _ IH]; [done|].
  destruct Hstep as [i t t' σ σ' ts Hi Hs]. cbn in *.
  etrans; [|exact IH]. by eapply get_step_trace.
Qed.

Lemma winners_get_step env x σ ts i t t' σ' :
  invariant env σ ts ->
  ts !! i = Some t ->
  get_step env t σ t' σ' ->
  EAlloc DupName false ∉ trace σ' ->
  winners env x σ ts ->
  winners env x σ' (<[i := t']> ts).
Proof.
  intros Hinv Hi Hstep Hclean Hwin. destruct Hstep as
    [name p σ σ' Hl | name σ σ' Hl | name σ σ' Hf | name q σ σ' Hf | name q r σ σ' Hr].
  - (* the lookup hits *)
    apply lookup_get_Some in Hl as (s & Hl & Hp & Hrc & ->).
    assert (Hkeep : forall p0, first_named env x σ p0 ->
              first_named env x
                (mk_state (<[p := set_refcount (to_int (sc_refcount s + 1)) s]> (heap σ))
                   (shares_table σ) (trace σ)) p0).
    { intros p0 H0. apply (first_named_agree env x σ _ p0 H0); [done|].
      intros a sa _ Ha. cbn [heap]. by eapply (acquire_stable env σ ts i). }
    intros j p' Hj.
    apply list_lookup_insert_Some in Hj as [(_ & [= <- <-] & _) | (_ & Hj)].
    + apply Hkeep. by eapply lookup_first_named.
    + apply Hkeep. by eapply Hwin.
  - (* the lookup misses *)
    apply lookup_get_None in Hl as ->. intros j p' Hj.
    apply list_lookup_insert_Some in Hj as [(_ & [=] & _) | (_ & Hj)]. by eapply Hwin.
  - (* the fetch fails *)
    apply fetch_spec in Hf as (Htab & _ & Hh). intros j p' Hj.
    apply list_lookup_insert_Some in Hj as [(_ & [=] & _) | (_ & Hj)].
    apply (first_named_agree env x σ σ' p'); [by eapply Hwin | done |].
    intros a sa _ Ha. rewrite Hh. by exists sa.
  - (* the fetch builds a share *)
    apply fetch_spec in Hf as (Htab & _ & Hq & s & Hh & _). intros j p' Hj.
    apply list_lookup_insert_Some in Hj as [(_ & [=] & _) | (_ & Hj)].
    apply (first_named_agree env x σ σ' p'); [by eapply Hwin | done |].
    intros a sa _ Ha. rewrite Hh, lookup_insert_ne by congruence. by exists sa.
  - (* the reconciliation *)
    destruct (inv_built _ _ _ Hinv i name q Hi) as (Hone & Hoff & sq & Hsq & Hnq).
    pose proof (reconcile_events _ _ _ _ _ _ Hr) as (_ & evs & Htr & _).
    assert (Hqname : sc_name sq = Some name).
    { destruct Hnq as [?|[_ Hfail]]; [done|]. exfalso. apply Hclean.
      rewrite Htr. set_solver. }
    apply reconcile_cases in Hr as (found & Hl & Hcase).
    destruct Hcase as [(-> & -> & Hfound)
                      | (p & s & sq' & -> & -> & Hp & Hrc & Hq & Hh & Htab & _)].
    + (* the new share is added *)
      assert (Hkeep : forall p0, first_named env x σ p0 -> name ≠ x ->
                first_named env x
                  (mk_state (heap σ)
                     (<[hash_min env (share_name_hash env name) :=
                          q :: bucket env (share_name_hash env name) σ]> (shares_table σ))
                     (trace σ)) p0).
      { intros p0 (l1 & l2 & s0 & Hc & Hl1 & Hp0 & Hn0 & Hrc0) Hne.
        destruct (decide (hash_min env (share_name_hash env name)
                          = hash_min env (share_name_hash env x))) as [Heq|Hneq].
        - exists (q :: l1), l2, s0. cbn [heap]. split.
          { unfold bucket in *. cbn [shares_table]. rewrite <- Heq, lookup_insert_eq.
            cbn. rewrite Heq. by rewrite Hc. }
          split; [|done]. constructor; [|done]. by exists sq, name.
        - exists l1, l2, s0. cbn [heap]. split; [|done].
          unfold bucket in *. cbn [shares_table]. by rewrite lookup_insert_ne. }
      intros j p' Hj.
      apply list_lookup_insert_Some in Hj as [(_ & [= <- <-] & _) | (_ & Hj)].
      * exists [], (bucket env (share_name_hash env name) σ), sq. cbn [heap].
        split.
        { unfold bucket. cbn [shares_table]. by rewrite lookup_insert_eq. }
        split; [done|]. split; [done|]. split; [done|].
        rewrite (inv_count _ _ _ Hinv q sq Hsq), Hone. done.
      * pose proof (Hwin j p' Hj) as Hfirst. apply Hkeep; [done|].
        intros ->. apply first_named_lookup in Hfirst as (s0 & Hl0 & Hp0 & Hrc0).
        rewrite Hl0 in Hl. injection Hl as <-.
        destruct Hfound as [?|(p1 & s1 & [= <-] & Hp1 & Hrc1)]; [done|]. congruence.
    + (* an existing share is taken and the new one is freed *)
      assert (Hne : p ≠ q).
      { intros ->. apply Hoff. by eapply share_lookup_in_table. }
      assert (Hkeep : forall p0, first_named env x σ p0 -> first_named env x σ' p0).
      { intros p0 H0. apply (first_named_agree env x σ σ' p0 H0); [done|].
        intros a sa Hin Ha. rewrite Hh.
        assert (a ≠ q) by (intros ->; done).
        rewrite lookup_delete_ne by done.
        eapply (acquire_stable env σ ts i); [done..| |done|done|done].
        cbn. apply bool_decide_eq_false_2. congruence. }
      intros j p' Hj.
      apply list_lookup_insert_Some in Hj as [(_ & [= <- <-] & _) | (_ & Hj)].
      * apply Hkeep. by eapply lookup_first_named.
      * apply Hkeep. by eapply Hwin.
Qed.

Lemma winners_rtc env x c c' :
  rtc (interleave (get_step env)) c c' ->
  invariant env c.1 c.2 ->
  winners env x c.1 c.2 ->
  EAlloc DupName false ∉ trace c'.1 ->
  invariant env c'.1 c'.2 /\ winners env x c'.1 c'.2.
Proof.
  induction 1 as [c|c1 c2 c3 Hstep Hrest IH]; [done|].
  intros Hinv Hwin Hclean.
  pose proof (get_steps_trace _ _ _ Hrest) as Hpre.
  destruct Hstep as [i t t' σ σ' ts Hi Hs]. cbn in *.
  apply IH; [|  |done].
  - eapply invariant_thread_step; [done..|]. by constructor.
  - eapply winners_get_step; [done..| |done].
    intros Hin. apply Hclean. by eapply prefix_elem_of.
Qed.

(** C2.  (1) When the reconciliation step finds a share of the name
    with a positive reference count, it destroys the share just built
    and returns the one it found, whose count has gone up by one; the
    table is unchanged.  (2) In every configuration that concurrent
    callers reach by calls and releases, two shares of the table that
    carry the same name and have a count of at least one are the same
    share.  (3) Started where no call for a name has returned a share
    yet, concurrent calls for that name that return a share all return
    the same share; it is on the table, carries the name, and its count
    is the number of threads that hold it (runs in which no copy of a
    name failed for lack of memory). *)
Theorem reconcile_keeps_one_share_per_name env :
  (forall name share sq p s σ,
     __share_lookup env name σ = Ok (Some p, σ) ->
     heap σ !! p = Some s ->
     0 < sc_refcount s < 2 ^ 31 - 1 ->
     heap σ !! share = Some sq ->
     p ≠ share ->
     exists σ',
       reconcile env name share σ = Ok (Some p, σ')
       /\ heap σ' !! share = None
       /\ heap σ' !! p = Some (set_refcount (sc_refcount s + 1) s)
       /\ shares_table σ' = shares_table σ)
  /\ (forall n σ ts p1 p2 s1 s2 name,
        Z.of_nat n < 2 ^ 31 ->
        reachable env n (σ, ts) ->
        in_table σ p1 -> in_table σ p2 ->
        heap σ !! p1 = Some s1 -> heap σ !! p2 = Some s2 ->
        sc_name s1 = Some name -> sc_name s2 = Some name ->
        1 <= sc_refcount s1 -> 1 <= sc_refcount s2 ->
        p1 = p2)
  /\ (forall n σ0 ts0 σ ts x i j p p',
        Z.of_nat n < 2 ^ 31 ->
        reachable env n (σ0, ts0) ->
        (forall k q, ts0 !! k ≠ Some (Returned x (Some q))) ->
        rtc (interleave (get_step env)) (σ0, ts0) (σ, ts) ->
        EAlloc DupName false ∉ trace σ ->
        ts !! i = Some (Returned x (Some p)) ->
        ts !! j = Some (Returned x (Some p')) ->
        p = p'
        /\ in_table σ p
        /\ exists s,
             heap σ !! p = Some s
             /\ sc_name s = Some x
             /\ sc_refcount s = Z.of_nat (holders p ts)
             /\ (i ≠ j -> 2 <= sc_refcount s)).
Proof.
  split; [|split].
  - intros name share sq p s σ Hl Hp Hrc Hq Hne.
    rewrite (reconcile_live env name share sq p s σ Hl Hp) by (done || lia).
    eexists. split; [reflexivity|]. cbn [heap shares_table].
    rewrite lookup_delete_eq, lookup_delete_ne, lookup_insert_eq by done.
    rewrite to_int_small by lia. done.
  - intros n σ ts p1 p2 s1 s2 name Hn Hreach.
    apply (invariant_one_live env σ ts).
    exact (invariant_reachable env n (σ, ts) Hn Hreach).
  - intros n σ0 ts0 σ ts x i j p p' Hn Hreach Hnone Hrun Hclean Hi Hj.
    pose proof (invariant_reachable env n (σ0, ts0) Hn Hreach) as Hinv0.
    destruct (winners_rtc env x (σ0, ts0) (σ, ts) Hrun Hinv0) as [Hinv Hwin]; [|done|].
    { intros k q Hk. by destruct (Hnone k q). }
    cbn in Hinv, Hwin.
    pose proof (Hwin i p Hi) as Hp. pose proof (Hwin j p' Hj) as Hp'.
    assert (p = p') as <- by (by eapply first_named_unique).
    split; [done|]. split; [by eapply first_named_in_table|].
    destruct Hp as (_ & _ & s & _ & _ & Hs & Hname & _).
    exists s. split; [done|]. split; [done|].
    pose proof (inv_count _ _ _ Hinv p s Hs) as Hc. split; [done|].
    intros Hne. pose proof (holders_two p ts i j _ _ Hi Hj Hne) as H2.
    rewrite !holds_eq, !bool_decide_eq_true_2 in H2 by done.
    specialize (H2 eq_refl eq_refl). lia.
Qed.

(** * The race of two callers, step by step *)

Lemma race_reachable :
  reachable disk_env 2 (empty_state, [Calling (lit "Data"); Calling (lit "data")]).
Proof.
  unfold reachable.
  eapply rtc_l.
  { apply (interleave_at _ 0%nat Idle (Calling (lit "Data")) empty_state empty_state
             [Idle; Idle]); [reflexivity|]. apply ts_call. }
  eapply rtc_l; [|apply rtc_refl].
  apply (interleave_at _ 1%nat Idle (Calling (lit "data")) empty_state empty_state
           [Calling (lit "Data"); Idle]); [reflexivity|]. apply ts_call.
Qed.

Lemma race_run :
  rtc (interleave (get_step disk_env))
    (empty_state, [Calling (lit "Data"); Calling (lit "data")])
    (race_done, [Returned (lit "data") (Some 0%nat); Returned (lit "data") (Some 0%nat)]).
Proof.
  eapply rtc_l.
  { apply (interleave_at _ 0%nat (Calling (lit "Data")) (Fetching (lit "data"))
             empty_state empty_state [Calling (lit "Data"); Calling (lit "data")]);
      [reflexivity|].
    apply (gs_miss disk_env (lit "Data")). vm_compute. reflexivity. }
  eapply rtc_l.
  { apply (interleave_at _ 1%nat (Calling (lit "data")) (Fetching (lit "data"))
             empty_state empty_state [Fetching (lit "data"); Calling (lit "data")]);
      [reflexivity|].
    apply (gs_miss disk_env (lit "data")). vm_compute. reflexivity. }
  eapply rtc_l.
  { apply (interleave_at _ 0%nat (Fetching (lit "data")) (Built (lit "data") 0%nat)
             empty_state race_built_one [Fetching (lit "data"); Fetching (lit "data")]);
      [reflexivity|].
    apply gs_fetch_some. vm_compute. reflexivity. }
  eapply rtc_l.
  { apply (interleave_at _ 1%nat (Fetching (lit "data")) (Built (lit "data") 1%nat)
             race_built_one race_built_two
             [Built (lit "data") 0%nat; Fetching (lit "data")]);
      [reflexivity|].
    apply gs_fetch_some. vm_compute. reflexivity. }
  eapply rtc_l.
  { apply (interleave_at _ 0%nat (Built (lit "data") 0%nat)
             (Returned (lit "data") (Some 0%nat))
             race_built_two race_added
             [Built (lit "data") 0%nat; Built (lit "data") 1%nat]);
      [reflexivity|].
    apply gs_reconcile. vm_compute. reflexivity. }
  eapply rtc_l; [|apply rtc_refl].
  apply (interleave_at _ 1%nat (Built (lit "data") 1%nat)
           (Returned (lit "data") (Some 0%nat))
           race_added race_done
           [Returned (lit "data") (Some 0%nat); Built (lit "data") 1%nat]);
    [reflexivity|].
  apply gs_reconcile. vm_compute. reflexivity.
Qed.

Lemma get_steps_are_steps env c c' :
  rtc (interleave (get_step env)) c c' -> rtc (interleave (thread_step env)) c c'.
Proof.
  induction 1 as [c|c1 c2 c3 Hstep _ IH]; [apply rtc_refl|].
  eapply rtc_l; [|exact IH]. destruct Hstep as [i t t' σ σ' ts Hi Hs].
  eapply interleave_at; [exact Hi|]. by apply ts_get.
Qed.

(** C2 on the race: the second caller's reconciliation frees its own
    share (address 1) and returns the first caller's (address 0) with a
    count of 2; both callers hold the share at address 0. *)
Lemma race_witness :
  (exists σ',
     reconcile disk_env (lit "data") 1%nat race_added = Ok (Some 0%nat, σ')
     /\ heap σ' !! 1%nat = None
     /\ (sc_refcount <$> heap σ' !! 0%nat) = Some 2
     /\ shares_table σ' = shares_table race_added)
  /\ 0%nat = 0%nat
  /\ (0%nat = 0%nat
      /\ in_table race_done 0%nat
      /\ exists s,
           heap race_done !! 0%nat = Some s
           /\ sc_name s = Some (lit "data")
           /\ sc_refcount s =
                Z.of_nat (holders 0%nat [Returned (lit "data") (Some 0%nat);
                                         Returned (lit "data") (Some 0%nat)])
           /\ (0%nat ≠ 1%nat -> 2 <= sc_refcount s)).
Proof.
  destruct (reconcile_keeps_one_share_per_name disk_env) as (Hlive & Hone & Hrace).
  split; [|split].
  - assert (Hs : exists s sq, heap race_added !! 0%nat = Some s
                 /\ heap race_added !! 1%nat = Some sq /\ sc_refcount s = 1).
    { eexists _, _. vm_compute. repeat split; reflexivity. }
    destruct Hs as (s & sq & Hs & Hsq & Hrc).
    destruct (Hlive (lit "data") 1%nat sq 0%nat s race_added) as (σ' & Hr & Hfree & Hp & Ht);
      [by vm_compute | done | lia | done | done |].
    exists σ'. split; [done|]. split; [done|]. split; [|done].
    rewrite Hp. cbn. by rewrite Hrc.
  - assert (Hzero : in_table race_done 0%nat).
    { exists 4%nat, [0%nat]. split; [by vm_compute | set_solver]. }
    assert (Hs : exists s, heap race_done !! 0%nat = Some s
                 /\ sc_name s = Some (lit "data") /\ sc_refcount s = 2).
    { eexists. vm_compute. repeat split; reflexivity. }
    destruct Hs as (s & Hs & Hn & Hrc).
    assert (Hreach : reachable disk_env 2
              (race_done,
               [Returned (lit "data") (Some 0%nat); Returned (lit "data") (Some 0%nat)])).
    { unfold reachable. etrans; [exact race_reachable|].
      apply get_steps_are_steps. exact race_run. }
    assert (Hlive1 : 1 <= sc_refcount s) by lia.
    exact (Hone 2%nat race_done
             [Returned (lit "data") (Some 0%nat); Returned (lit "data") (Some 0%nat)]
             0%nat 0%nat s s (lit "data") ltac:(lia) Hreach Hzero Hzero Hs Hs Hn Hn
             Hlive1 Hlive1).
  - apply (Hrace 2%nat empty_state [Calling (lit "Data"); Calling (lit "data")]
             race_done
             [Returned (lit "data") (Some 0%nat); Returned (lit "data") (Some 0%nat)]
             (lit "data") 0%nat 1%nat 0%nat 0%nat).
    + lia.
    + exact race_reachable.
    + intros [|[|k]] q; done.
    + exact race_run.
    + apply (bool_decide_unpack _). vm_compute. exact I.
    + reflexivity.
    + reflexivity.
Defined.

(** * Further properties of the code *)

(** ** The fetch without a usable response *)

(** X1.  When the daemon gives no response, or a response whose flags
    are the invalid value, [share_config_request] returns [NULL] at
    once: nothing is allocated, the store and the table stay as they
    are, and the request is the only call made. *)
Theorem request_without_response_builds_nothing env name σ :
  (ksmbd_ipc_share_config_request env (length (trace σ)) name = None
   \/ exists resp,
        ksmbd_ipc_share_config_request env (length (trace σ)) name = Some resp
        /\ resp_flags resp = KSMBD_SHARE_FLAG_INVALID env) ->
  share_config_request env name σ
  = Ok (None, mk_state (heap σ) (shares_table σ) (trace σ ++ [EIpc name])).
Proof.
  intros H. unfold share_config_request. rewrite bind_unfold, ipc_request_unfold.
  cbv beta iota. destruct H as [-> | (resp & -> & Hinv)]; [done|].
  by rewrite Hinv, Z.eqb_refl.
Qed.

(** ** Names are looked up without regard to case *)

(** X2.  Two names with the same lower-case form are the same name to
    [ksmbd_share_config_get]: the calls return the same share, leave the
    same buffer contents and the same state. *)
Theorem get_is_case_insensitive env name1 name2 σ :
  map (tolower env) name1 = map (tolower env) name2 ->
  ksmbd_share_config_get env name1 σ = ksmbd_share_config_get env name2 σ.
Proof.
  intros H. unfold ksmbd_share_config_get. by rewrite !strtolower_map, H.
Qed.

(** ** The edges of parse_veto_list *)

(** X4.  A length that is zero or negative as an [int] parses nothing:
    [parse_veto_list] returns 0 and leaves the state as it is. *)
Theorem parse_veto_list_no_length env share veto_list veto_list_sz σ :
  veto_list_sz <= 0 ->
  parse_veto_list env share veto_list veto_list_sz σ = Ok (0, σ).
Proof.
  intros Hn. unfold parse_veto_list.
  destruct (Z.eqb_spec veto_list_sz 0) as [_|_]; [done|].
  cbn [parse_veto_loop]. by destruct (Z.ltb_spec 0 veto_list_sz) as [?|_]; [lia|].
Qed.

Lemma strlen_bound mem len : strlen mem = Some len -> 0 <= len <= Z.of_nat (length mem).
Proof.
  revert len. induction mem as [|c mem IH]; intros len; cbn [strlen length]; [done|].
  destruct (decide (c = NUL)); [intros [= <-]; lia|].
  destruct (strlen mem) as [l|]; [|done]. cbn. intros [= <-].
  specialize (IH l eq_refl). lia.
Qed.

Lemma strlen_at_bound mem off len :
  strlen_at mem off = Some len -> 0 <= len <= Z.of_nat (length mem).
Proof.
  unfold strlen_at. destruct (off <? 0); [done|]. intros H.
  apply strlen_bound in H. rewrite length_drop in H. lia.
Qed.

(** ** What parse_veto_list can return and touch *)




(** ** The loop comes to an end *)

Lemma parse_veto_loop_terminates env fuel share mem off n σ :
  Z.of_nat (length mem) < 2 ^ 31 - 1 ->
  n < 2 ^ 31 ->
  (Z.to_nat n < fuel)%nat ->
  parse_veto_loop env fuel share mem off n σ ≠ Fuel.
Proof.
  intros Hmem. revert off n σ. induction fuel as [|fuel IH]; intros off n σ Hn Hfuel; [lia|].
  cbn [parse_veto_loop].
  destruct (Z.ltb_spec 0 n) as [Hpos|_]; [|done].
  rewrite bind_unfold. destruct σ as [h t tr]. rewrite try_alloc_unfold.
  destruct (alloc_ok env (length tr)); cbn [negb]; [|done].
  destruct (strlen_at mem off) as [len|] eqn:Hlen; [|done].
  apply strlen_at_bound in Hlen.
  rewrite (to_int_small len) by lia.
  destruct (Z.eqb_spec len 0) as [_|Hnz]; [done|].
  rewrite bind_unfold, kstrdup_unfold.
  destruct (alloc_ok env _); [|done]. cbv beta iota.
  rewrite bind_unfold.
  destruct (list_add _ share _) as [[[] σ1]| |] eqn:Hadd; [|done|].
  - apply IH.
    + rewrite (to_int_small (len + 1)) by lia. rewrite to_int_small; lia.
    + rewrite (to_int_small (len + 1)) by lia. rewrite to_int_small; lia.
  - exfalso. unfold list_add, bind, load, assign in Hadd. cbn [heap] in Hadd.
    destruct (h !! share) as [s|]; [|done]. cbn [heap] in Hadd.
    by destruct (h !! share).
Qed.

(** X5.  On a buffer shorter than 2^31 - 1 characters the loop of
    [parse_veto_list] comes to an end for every length that an [int]
    holds: each round uses up at least two of the remaining length. *)
Theorem parse_veto_list_terminates env share veto_list veto_list_sz σ :
  Z.of_nat (length veto_list) < 2 ^ 31 - 1 ->
  veto_list_sz < 2 ^ 31 ->
  parse_veto_list env share veto_list veto_list_sz σ ≠ Fuel.
Proof.
  intros Hmem Hn. unfold parse_veto_list.
  destruct (veto_list_sz =? 0); [done|].
  apply parse_veto_loop_terminates; [done..|lia].
Qed.

(** ** Credentials: override and revert *)

(** X6.  [ksmbd_revert_fsids] on what [ksmbd_override_fsids] returned
    puts back the credentials that were current before the override,
    whether the override went through or failed. *)
Theorem revert_fsids_restores_credentials env sess share current :
  ksmbd_revert_fsids
    (fst (ksmbd_override_fsids env sess share current))
    (snd (ksmbd_override_fsids env sess share current))
  = current.
Proof.
  unfold ksmbd_override_fsids, ksmbd_revert_fsids.
  by destruct (prepare_kernel_cred env).
Qed.

(** X7.  When the kernel credentials cannot be prepared,
    [ksmbd_override_fsids] returns the error pointer for [-ENOMEM]
    whatever the session and the share, and the credentials of the task
    are not replaced. *)
Theorem override_fsids_without_cred env sess share current :
  prepare_kernel_cred env = None ->
  ksmbd_override_fsids env sess share current = (inl (- ENOMEM), current).
Proof. intros H. unfold ksmbd_override_fsids. by rewrite H. Qed.

(** ** The veto answer does not depend on the order of the list *)

Lemma veto_scan_existsb env veto_list filename :
  fst (veto_scan env veto_list filename)
  = existsb (fun pattern => match_wildcard env pattern filename) veto_list.
Proof.
  induction veto_list as [|p l IH]; cbn [veto_scan existsb]; [done|].
  by destruct (match_wildcard env p filename).
Qed.

Lemma existsb_Permutation {A} (f : A -> bool) l1 l2 :
  l1 ≡ₚ l2 -> existsb f l1 = existsb f l2.
Proof.
  induction 1 as [|x l1 l2 _ IH|x y l|l1 l2 l3 _ IH1 _ IH2]; cbn [existsb].
  - done.
  - by rewrite IH.
  - by destruct (f x), (f y).
  - by rewrite IH1.
Qed.

(** X8.  The answer of [ksmbd_share_veto_filename] depends on which
    patterns are on the veto list and not on their order: two shares
    whose lists are permutations of each other veto the same file
    names. *)
Theorem veto_filename_ignores_order env share1 share2 filename :
  sc_veto_list share1 ≡ₚ sc_veto_list share2 ->
  ksmbd_share_veto_filename env share1 filename
  = ksmbd_share_veto_filename env share2 filename.
Proof.
  intros H. unfold ksmbd_share_veto_filename.
  rewrite !veto_scan_existsb. by apply existsb_Permutation.
Qed.

(** ** Parsing, then matching *)

(** X9.  After [parse_veto_list] has read a packed buffer into a share
    whose veto list was empty, [ksmbd_share_veto_filename] on that share
    answers true exactly for the file names that some string taken from
    the buffer matches. *)
Theorem parsed_buffer_vetoes_its_patterns env share s strs rest n pats σ :
  (forall i, alloc_ok env i = true) ->
  Forall pattern_string strs ->
  n < 2 ^ 31 ->
  heap σ !! share = Some s ->
  sc_veto_list s = [] ->
  consumed strs n = Some pats ->
  exists σ' s',
    parse_veto_list env share (pack strs ++ rest) n σ = Ok (0, σ')
    /\ heap σ' !! share = Some s'
    /\ forall filename,
         ksmbd_share_veto_filename env s' filename = true
         <-> exists pattern,
               pattern ∈ pats /\ match_wildcard env pattern filename = true.
Proof.
  intros Hok Hstrs Hn Hs Hnil Hc. destruct σ as [h t tr]. cbn [heap] in Hs.
  destruct (parse_veto_list_packed_run env share rest strs n pats s h t tr
              Hok Hstrs Hn Hc) as [evs Hrun].
  rewrite (insert_id h share s Hs) in Hrun at 1.
  eexists _, _. split; [exact Hrun|]. cbn [heap].
  split; [apply lookup_insert_eq|].
  intros filename. unfold ksmbd_share_veto_filename.
  rewrite veto_scan_existsb. destruct s as [a1 a2 a3 a4 a5 a6 a7 a8 a9 a10 a11 a12 a13]; cbn [sc_veto_list set_veto_list] in *.
  subst. rewrite app_nil_r, existsb_exists.
  split; intros (p & Hin & Hm); exists p; split; try done.
  - by rewrite <- in_rev in Hin; apply list_elem_of_In.
  - by rewrite <- in_rev; apply list_elem_of_In.
Qed.

(** ** The fetch of a disk share when nothing fails *)

Lemma to_int_lt z : to_int z < 2 ^ 31.
Proof. unfold to_int. pose proof (Z.mod_pos_bound (z + 2 ^ 31) (2 ^ 32)). lia. Qed.

Lemma share_lookup_None_insert_fresh env name σ σ1 q sq :
  __share_lookup env name σ = Ok (None, σ) ->
  heap σ !! q = None ->
  heap σ1 = <[q := sq]> (heap σ) ->
  shares_table σ1 = shares_table σ ->
  __share_lookup env name σ1 = Ok (None, σ1).
Proof.
  unfold __share_lookup, bucket. intros H Hq Hh Ht. rewrite Ht.
  apply lookup_chain_None in H. apply lookup_chain_missing.
  rewrite Hh. eapply Forall_impl; [exact H|]. intros p. by apply other_name_insert_fresh.
Qed.

Ltac share_fields :=
  cbn [sc_name sc_path sc_path_sz sc_flags sc_veto_list sc_vfs_path sc_refcount
       sc_create_mask sc_directory_mask sc_force_create_mode
       sc_force_directory_mode sc_force_uid sc_force_gid
       set_name set_path set_path_sz set_flags set_veto_list set_vfs_path
       set_refcount set_create_mask set_directory_mask set_force_create_mode
       set_force_directory_mode set_force_uid set_force_gid].

Lemma construct_disk env name resp strs rest pats vfs h t tr :
  is_pipe env resp = false ->
  (forall i, alloc_ok env i = true) ->
  (forall i, kern_path env i (resp_path resp) = (0, vfs)) ->
  resp_veto_list resp = pack strs ++ rest ->
  Forall pattern_string strs ->
  consumed strs (to_int (resp_veto_list_sz resp)) = Some pats ->
  exists evs,
    construct env name resp (mk_state h t tr)
    = Ok (Some (fresh (dom h)),
          mk_state
            (<[fresh (dom h) :=
                 mk_share (Some name) (Some (resp_path resp))
                   (Z.of_nat (length (resp_path resp)) mod 2 ^ 32)
                   (resp_flags resp) (rev pats) vfs 1
                   (resp_create_mask resp) (resp_directory_mask resp)
                   (resp_force_create_mode resp) (resp_force_directory_mode resp)
                   (resp_force_uid resp) (resp_force_gid resp)]> h)
            t (tr ++ evs)).
Proof.
  intros Hpipe Hok Hkp Hbuf Hstrs Hc.
  unfold construct. rewrite bind_unfold, ksmbd_alloc_share_unfold, Hok. cbv beta iota.
  set (q := fresh (dom h)).
  do 4 run1. rewrite Hok. do 2 run1.
  unfold test_share_config_flag; cbn [sc_flags set_name set_veto_list set_refcount set_flags].
  fold (is_pipe env resp). rewrite Hpipe. cbn [negb].
  run1. rewrite Hok. do 8 run1.
  rewrite bind_unfold, Hbuf.
  match goal with
  | |- context [parse_veto_list env q _ _ (mk_state (<[q := ?s]> h) t ?tr1)] =>
      destruct (parse_veto_list_packed_run env q rest strs _ pats s h t tr1
                  Hok Hstrs (to_int_lt _) Hc) as [evs Hrun]
  end.
  rewrite Hrun. cbv beta iota. run1.
  cbn [sc_path]. share_fields. rewrite Z.eqb_refl.
  rewrite bind_unfold, bind_unfold, call_kern_path_unfold, Hkp. cbv beta iota.
  cbn [fst snd]. rewrite Z.eqb_refl.
  run1. rewrite ret_unfold. cbv beta iota. run1.
  share_fields. rewrite Z.eqb_refl. cbn [negb orb].
  rewrite ret_unfold, app_nil_r.
  destruct (ksmbd_alloc_mem env) as [a1 a2 a3 a4 a5 a6 a7 a8 a9 a10 a11 a12 a13].
  share_fields.
  rewrite <- !app_assoc. eexists. reflexivity.
Qed.

(** X10.  When the daemon answers with a valid response for a share
    that is no pipe, every allocation succeeds, the veto buffer holds
    packed strings, the path resolves and no share of that name is on
    the table, [share_config_request] returns a new share: it carries
    the name, the path with its length, the flags, the four masks and
    the two forced ids of the response, the resolved path, the strings
    taken from the veto buffer in reverse order and a reference count
    of 1, and it is put at the head of the chain of its name. *)
Theorem request_builds_disk_share env name resp strs rest pats vfs σ :
  ksmbd_ipc_share_config_request env (length (trace σ)) name = Some resp ->
  resp_flags resp ≠ KSMBD_SHARE_FLAG_INVALID env ->
  is_pipe env resp = false ->
  (forall i, alloc_ok env i = true) ->
  (forall i, kern_path env i (resp_path resp) = (0, vfs)) ->
  resp_veto_list resp = pack strs ++ rest ->
  Forall pattern_string strs ->
  consumed strs (to_int (resp_veto_list_sz resp)) = Some pats ->
  __share_lookup env name σ = Ok (None, σ) ->
  exists σ',
    share_config_request env name σ = Ok (Some (fresh (dom (heap σ))), σ')
    /\ heap σ' =
         <[fresh (dom (heap σ)) :=
             mk_share (Some name) (Some (resp_path resp))
               (Z.of_nat (length (resp_path resp)) mod 2 ^ 32)
               (resp_flags resp) (rev pats) vfs 1
               (resp_create_mask resp) (resp_directory_mask resp)
               (resp_force_create_mode resp) (resp_force_directory_mode resp)
               (resp_force_uid resp) (resp_force_gid resp)]> (heap σ)
    /\ shares_table σ' =
         <[hash_min env (share_name_hash env name) :=
             fresh (dom (heap σ)) :: bucket env (share_name_hash env name) σ]>
           (shares_table σ).
Proof.
  intros Hresp Hvalid Hpipe Hok Hkp Hbuf Hstrs Hc Hmiss.
  unfold share_config_request. rewrite bind_unfold, ipc_request_unfold, Hresp.
  cbv beta iota. destruct (Z.eqb_spec (resp_flags resp) (KSMBD_SHARE_FLAG_INVALID env)); [done|].
  rewrite bind_unfold.
  destruct (construct_disk env name resp strs rest pats vfs (heap σ) (shares_table σ)
              (trace σ ++ [EIpc name]) Hpipe Hok Hkp Hbuf Hstrs Hc) as [evs ->].
  cbv beta iota.
  rewrite reconcile_absent.
  - eexists. split; [reflexivity|]. by cbn [heap shares_table].
  - eapply share_lookup_None_insert_fresh; [exact Hmiss|apply fresh_heap_None|done..].
Qed.

(** ** A pipe share whose name could not be copied *)

(** X11.  For a pipe the check of the name is not reached: when the
    copy of the name fails, [share_config_request] still returns the
    share and puts it on the table without a name.  From then on
    [__share_lookup] faults for every name whose chain is that one, as
    [strcmp] is handed the missing name. *)
Theorem pipe_share_without_name_breaks_lookups env name resp σ :
  ksmbd_ipc_share_config_request env (length (trace σ)) name = Some resp ->
  resp_flags resp ≠ KSMBD_SHARE_FLAG_INVALID env ->
  is_pipe env resp = true ->
  alloc_ok env (length (trace σ) + 1) = true ->
  alloc_ok env (length (trace σ) + 1 + 1) = false ->
  __share_lookup env name σ = Ok (None, σ) ->
  exists s σ',
    share_config_request env name σ = Ok (Some (fresh (dom (heap σ))), σ')
    /\ heap σ' !! fresh (dom (heap σ)) = Some s
    /\ sc_name s = None
    /\ forall name',
         hash_min env (share_name_hash env name')
         = hash_min env (share_name_hash env name) ->
         __share_lookup env name' σ' = Oops.
Proof.
  intros Hresp Hvalid Hpipe Hok1 Hok2 Hmiss.
  unfold share_config_request. rewrite bind_unfold, ipc_request_unfold, Hresp.
  cbv beta iota.
  destruct (Z.eqb_spec (resp_flags resp) (KSMBD_SHARE_FLAG_INVALID env)); [done|].
  rewrite bind_unfold, construct_pipe by done.
  rewrite length_app. cbn [length]. rewrite Hok1, Hok2. cbv beta iota.
  rewrite reconcile_absent.
  2:{ eapply share_lookup_None_insert_fresh;
        [exact Hmiss|apply fresh_heap_None|done..]. }
  eexists _, _. split; [reflexivity|]. cbn [heap shares_table].
  split; [apply lookup_insert_eq|]. split; [done|].
  intros name' Hb. unfold __share_lookup, bucket at 1. cbn [shares_table].
  rewrite Hb, lookup_insert_eq. cbn [default from_option id lookup_chain].
  rewrite bind_unfold. unfold load. cbn [heap]. by rewrite lookup_insert_eq.
Qed.

(** ** A share that was returned is found again *)

Lemma first_named_get env x σ p :
  first_named env x σ p ->
  exists s,
    heap σ !! p = Some s /\ sc_name s = Some x /\ sc_refcount s ≠ 0
    /\ lookup_get env x σ
       = Ok (Some p,
             mk_state (<[p := set_refcount (to_int (sc_refcount s + 1)) s]> (heap σ))
               (shares_table σ) (trace σ)).
Proof.
  intros Hfirst.
  destruct (first_named_lookup _ _ _ _ Hfirst) as (s & Hlook & Hs & Hrc).
  destruct Hfirst as (l1 & l2 & s' & _ & _ & Hs' & Hname & _).
  assert (s' = s) as -> by congruence.
  exists s. split; [done|]. split; [done|]. split; [done|].
  unfold lookup_get. rewrite bind_unfold, Hlook. cbv beta iota.
  rewrite (get_share_config_unfold p s) by done.
  by destruct (Z.eqb_spec (sc_refcount s) 0).
Qed.

Lemma to_int_succ_nonzero z : 0 <= z < 2 ^ 31 - 1 -> to_int (z + 1) ≠ 0.
Proof. intros H. rewrite to_int_small; lia. Qed.

Lemma get_returns_first_named env name σ buf p σ1 :
  (forall a, in_table σ a ->
     exists sa, heap σ !! a = Some sa /\ 0 <= sc_refcount sa < 2 ^ 31 - 1) ->
  ksmbd_share_config_get env name σ = Ok ((buf, Some p), σ1) ->
  EAlloc DupName false ∉ trace σ1 ->
  buf = strtolower env name /\ first_named env buf σ1 p.
Proof.
  intros Hwf Hget Hnofail. unfold ksmbd_share_config_get in Hget.
  set (x := strtolower env name) in *.
  apply bind_Ok in Hget as (r & σa & Hlook & Hget).
  destruct r as [p0|].
  - (* a hit *)
    rewrite ret_unfold in Hget. injection Hget as <- <- <-. split; [done|].
    apply lookup_get_Some in Hlook as (s & Hlook & Hs & Hrc & ->).
    eapply first_named_agree; [by eapply lookup_first_named|done|].
    cbn [heap]. intros a sa Ha Hsa. destruct (decide (a = p0)) as [->|Hne].
    + assert (sa = s) as -> by congruence.
      rewrite lookup_insert_eq. eexists. split; [done|]. split; [by destruct s|].
      intros _.
      destruct (Hwf _ Ha) as (s0 & Hs0 & Hrange).
      assert (s0 = s) as -> by congruence.
      destruct s; cbn. by apply to_int_succ_nonzero.
    + rewrite lookup_insert_ne by done. eauto.
  - (* a miss: the share comes from the fetch *)
    apply bind_Ok in Hget as (r & σb & Hreq & Hget).
    rewrite ret_unfold in Hget. injection Hget as <- -> <-. split; [done|].
    apply lookup_get_None in Hlook as ->.
    rewrite share_config_request_split in Hreq.
    destruct (fetch env x σ) as [[[q|] σf]| |] eqn:Hfetch; [|discriminate..].
    apply fetch_spec in Hfetch as (Htab & _ & Hq & sq & Hheap & Hone & Hname).
    apply reconcile_cases in Hreq as (found & Hfound & Hcases).
    destruct Hcases as [(Hr & -> & _) | (p1 & s1 & sq' & -> & Hr & Hs1 & Hrc & Hq' & Hh & Ht & Hpre)].
    + (* the new share was added *)
      injection Hr as <-. cbn [trace] in Hnofail.
      destruct Hname as [Hname | [_ Hfail]]; [|done].
      exists [], (bucket env (share_name_hash env x) σf), sq.
      split.
      { unfold bucket at 1. cbn [shares_table]. by rewrite lookup_insert_eq. }
      split; [constructor|]. cbn [heap]. rewrite Hheap, lookup_insert_eq.
      split; [done|]. split; [done|]. lia.
    + (* a live share was found *)
      injection Hr as <-.
      assert (Hin : in_table σ p).
      { apply share_lookup_in_table in Hfound.
        by apply (in_table_ext σ σf p Htab). }
      destruct (Hwf _ Hin) as (s0 & Hs0 & Hrange).
      assert (Hpq : p ≠ q) by (intros Heq; rewrite Heq, Hq in Hs0; discriminate).
      pose proof (lookup_first_named _ _ _ _ _ Hfound Hs1 Hrc) as Hfirst.
      rewrite Hheap, lookup_insert_ne in Hs1 by done.
      assert (s0 = s1) as -> by congruence.
      eapply first_named_agree; [exact Hfirst|done|].
      intros a sa Ha Hsa. rewrite Hh.
      apply (in_table_ext σ σf a Htab) in Ha.
      destruct (Hwf _ Ha) as (sa0 & Hsa0 & Hrange_a).
      assert (Haq : a ≠ q) by (intros Heq; rewrite Heq, Hq in Hsa0; discriminate).
      rewrite lookup_delete_ne by done.
      destruct (decide (a = p)) as [->|Hne].
      * rewrite Hheap, lookup_insert_ne in Hsa by done.
        assert (sa = s1) as -> by congruence.
        rewrite lookup_insert_eq. eexists. split; [done|].
        split; [by destruct s1|]. intros _.
        destruct s1; cbn. by apply to_int_succ_nonzero.
      * rewrite lookup_insert_ne by done. eauto.
Qed.

(** X12.  A share that [ksmbd_share_config_get] returned is found by
    the next call for a name with the same lower-case form: that call
    returns the same share with its reference count raised by one, and
    it makes no request to the daemon and no allocation.  The table is
    taken to hold allocated shares with counts below the largest
    [int], and no copy of a name has failed. *)
Theorem get_after_get_hits env name name' σ buf p σ1 :
  (forall a, in_table σ a ->
     exists sa, heap σ !! a = Some sa /\ 0 <= sc_refcount sa < 2 ^ 31 - 1) ->
  ksmbd_share_config_get env name σ = Ok ((buf, Some p), σ1) ->
  EAlloc DupName false ∉ trace σ1 ->
  strtolower env name' = strtolower env name ->
  exists s1,
    heap σ1 !! p = Some s1
    /\ sc_name s1 = Some (strtolower env name)
    /\ sc_refcount s1 ≠ 0
    /\ ksmbd_share_config_get env name' σ1
       = Ok ((buf, Some p),
             mk_state (<[p := set_refcount (to_int (sc_refcount s1 + 1)) s1]> (heap σ1))
               (shares_table σ1) (trace σ1)).
Proof.
  intros Hwf Hget Hnofail Hsame.
  destruct (get_returns_first_named _ _ _ _ _ _ Hwf Hget Hnofail) as [-> Hfirst].
  apply first_named_get in Hfirst as (s1 & Hs1 & Hname & Hrc & Hrun).
  exists s1. split; [done|]. split; [done|]. split; [done|].
  unfold ksmbd_share_config_get. rewrite Hsame, bind_unfold, Hrun. by cbv beta iota.
Qed.

(** ** ksmbd_share_configs_cleanup *)

Lemma filter_keep_all {A} (P : A -> Prop) `{!forall x, Decision (P x)} (l : list A) :
  (forall x, x ∈ l -> P x) -> filter P l = l.
Proof.
  induction l as [|x l IH]; intros Hall; [done|].
  rewrite filter_cons_True by (apply Hall; set_solver). f_equal. apply IH.
  intros y Hy. apply Hall. set_solver.
Qed.

Lemma filter_drop_all {A} (P : A -> Prop) `{!forall x, Decision (P x)} (l : list A) :
  (forall x, x ∈ l -> ~ P x) -> filter P l = [].
Proof.
  induction l as [|x l IH]; intros Hall; [done|].
  rewrite filter_cons_False by (apply Hall; set_solver). apply IH.
  intros y Hy. apply Hall. set_solver.
Qed.

Lemma swept_nil σ : swept [] σ σ.
Proof.
  split; [|split; [|split]].
  - intros b. destruct (shares_table σ !! b) as [c|]; [|done]. cbn. f_equal.
    symmetry. apply filter_keep_all. intros x _. set_solver.
  - intros p Hp. by apply elem_of_nil in Hp.
  - done.
  - exists []. by rewrite app_nil_r.
Qed.

Lemma swept_app K1 K2 σ σ1 σ2 :
  swept K1 σ σ1 -> swept K2 σ1 σ2 -> swept (K1 ++ K2) σ σ2.
Proof.
  intros (Ht1 & Hk1 & Hh1 & evs1 & Htr1 & Hev1) (Ht2 & Hk2 & Hh2 & evs2 & Htr2 & Hev2).
  split; [|split; [|split]].
  - intros b. rewrite Ht2, Ht1. destruct (shares_table σ !! b) as [c|]; [|done].
    cbn. f_equal. rewrite list_filter_filter. apply list_filter_iff.
    intros x. rewrite elem_of_app. tauto.
  - intros p Hp. destruct (decide (p ∈ K2)) as [Hin|Hout]; [by apply Hk2|].
    rewrite Hh2 by done. apply Hk1. set_solver.
  - intros p Hp. rewrite Hh2, Hh1; set_solver.
  - exists (evs1 ++ evs2). rewrite Htr2, Htr1, app_assoc. split; [done|].
    by apply Forall_app.
Qed.

Lemma swept_one p s σ :
  heap σ !! p = Some s ->
  exists σ',
    kill_share p
      (mk_state (heap σ) (filter (λ q, q ≠ p) <$> shares_table σ) (trace σ))
    = Ok (tt, σ')
    /\ swept [p] σ σ'.
Proof.
  intros Hs. rewrite (kill_share_unfold p s) by done. eexists. split; [reflexivity|].
  cbn [heap shares_table trace]. split; [|split; [|split]].
  - intros b. cbn [shares_table]. rewrite lookup_fmap.
    destruct (shares_table σ !! b) as [c|]; [|done]. cbn. f_equal.
    apply list_filter_iff. intros x. set_solver.
  - intros q Hq. apply list_elem_of_singleton in Hq as ->. cbn [heap].
    apply lookup_delete_eq.
  - intros q Hq. cbn [heap]. apply lookup_delete_ne. set_solver.
  - cbn [trace]. eexists. split; [reflexivity|].
    destruct (sc_path s); repeat constructor. by eexists.
Qed.

Lemma cleanup_chain_swept chain σ :
  NoDup chain ->
  (forall p, p ∈ chain -> is_Some (heap σ !! p)) ->
  exists σ', cleanup_chain chain σ = Ok (tt, σ') /\ swept chain σ σ'.
Proof.
  revert σ. induction chain as [|p chain IH]; intros σ Hnd Halloc.
  - exists σ. split; [done|]. apply swept_nil.
  - apply NoDup_cons in Hnd as [Hp Hnd].
    destruct (Halloc p) as [s Hs]; [set_solver|].
    destruct (swept_one p s σ Hs) as (σ1 & Hrun & Hsw).
    destruct (IH σ1 Hnd) as (σ' & Hrun' & Hsw').
    { intros q Hq. destruct Hsw as (_ & _ & Hh & _). rewrite Hh by set_solver.
      apply Halloc. set_solver. }
    exists σ'. split; [|by apply (swept_app [p] chain σ σ1 σ')].
    cbn [cleanup_chain]. rewrite bind_unfold. unfold hash_del at 1. cbv beta iota.
    by rewrite bind_unfold, Hrun.
Qed.

Lemma swept_chains_allocated K σ σ' :
  swept K σ σ' -> chains_allocated σ -> chains_allocated σ'.
Proof.
  intros (Ht & _ & Hh & _) Hwf b chain Hb. rewrite Ht in Hb.
  destruct (shares_table σ !! b) as [c|] eqn:Hc; [|done].
  injection Hb as <-. destruct (Hwf b c Hc) as [Hnd Halloc]. split.
  - by apply NoDup_filter.
  - intros p Hp. apply list_elem_of_filter in Hp as [Hout Hp].
    rewrite Hh by done. by apply Halloc.
Qed.

Lemma swept_in_table K σ σ' p :
  swept K σ σ' -> in_table σ' p -> in_table σ p /\ p ∉ K.
Proof.
  intros (Ht & _) (b & c' & Hb & Hp). rewrite Ht in Hb.
  destruct (shares_table σ !! b) as [c|] eqn:Hc; [|done].
  injection Hb as <-. apply list_elem_of_filter in Hp as [Hout Hp].
  split; [by exists b, c|done].
Qed.

Lemma cleanup_buckets_swept bs σ :
  chains_allocated σ ->
  exists K σ',
    cleanup_buckets bs σ = Ok (tt, σ')
    /\ swept K σ σ'
    /\ (forall p, p ∈ K -> in_table σ p)
    /\ forall b, b ∈ bs -> default [] (shares_table σ' !! b) = [].
Proof.
  revert σ. induction bs as [|i bs IH]; intros σ Hwf.
  - exists [], σ. split; [done|]. split; [apply swept_nil|]. set_solver.
  - set (chain := default [] (shares_table σ !! i)).
    assert (Hchain : NoDup chain /\ forall p, p ∈ chain -> is_Some (heap σ !! p)).
    { subst chain. destruct (shares_table σ !! i) as [c|] eqn:Hc.
      - exact (Hwf i c Hc).
      - split; [constructor|]. set_solver. }
    destruct Hchain as [Hnd Halloc].
    destruct (cleanup_chain_swept chain σ Hnd Halloc) as (σ1 & Hrun & Hsw).
    destruct (IH σ1 (swept_chains_allocated _ _ _ Hsw Hwf))
      as (K & σ' & Hrun' & Hsw' & HK & Hempty).
    exists (chain ++ K), σ'. split; [|split; [|split]].
    + cbn [cleanup_buckets foldr]. rewrite bind_unfold. fold chain. rewrite Hrun.
      exact Hrun'.
    + by apply (swept_app chain K σ σ1 σ').
    + intros p Hp. apply elem_of_app in Hp as [Hp|Hp].
      * subst chain. destruct (shares_table σ !! i) as [c|] eqn:Hc; [|set_solver].
        by exists i, c.
      * by apply (swept_in_table chain σ σ1 p Hsw), HK.
    + intros b Hb. apply elem_of_cons in Hb as [->|Hb]; [|by apply Hempty].
      destruct Hsw as (Ht & _). destruct Hsw' as (Ht' & _).
      rewrite Ht', Ht. subst chain.
      destruct (shares_table σ !! i) as [c|]; [|done]. cbn.
      rewrite (filter_drop_all (λ q, q ∉ c) c) by (intros x Hx Hout; done).
      by rewrite filter_nil.
Qed.

(** X13.  On a table whose chains hold each share once, hold allocated
    shares only and lie in the eight buckets,
    [ksmbd_share_configs_cleanup] runs to its end and leaves no share on
    the table; every share that was on the table is freed, every other
    share is as before, and the only calls made are those of [path_put].
    Afterwards [__share_lookup] finds nothing under any name. *)
Theorem cleanup_empties_the_table σ :
  chains_allocated σ ->
  (forall b chain, shares_table σ !! b = Some chain -> (b < 8)%nat) ->
  exists σ',
    ksmbd_share_configs_cleanup σ = Ok (tt, σ')
    /\ (forall p, ~ in_table σ' p)
    /\ (forall p, in_table σ p -> heap σ' !! p = None)
    /\ (forall p, ~ in_table σ p -> heap σ' !! p = heap σ !! p)
    /\ (exists evs, trace σ' = trace σ ++ evs /\ Forall put_event evs)
    /\ forall env name, __share_lookup env name σ' = Ok (None, σ').
Proof.
  intros Hwf Hkeys.
  destruct (cleanup_buckets_swept (seq 0 8) σ Hwf) as (K & σ' & Hrun & Hsw & HK & Hempty).
  assert (Hnone : forall p, ~ in_table σ' p).
  { intros p (b & c' & Hb & Hp).
    assert (Hlt : (b < 8)%nat).
    { destruct Hsw as (Ht & _). rewrite Ht in Hb.
      destruct (shares_table σ !! b) as [c|] eqn:Hc; [|done]. by eapply Hkeys. }
    specialize (Hempty b). rewrite Hb in Hempty. cbn in Hempty.
    rewrite Hempty in Hp; [by apply elem_of_nil in Hp|].
    change (b ∈ seq 0 8). apply elem_of_seq. lia. }
  exists σ'. split; [exact Hrun|]. split; [exact Hnone|].
  destruct Hsw as (Ht & Hin & Hout & Hev).
  split; [|split; [|split; [exact Hev|]]].
  - intros p (b & c & Hb & Hp). apply Hin.
    destruct (decide (p ∈ K)) as [|HpK]; [done|]. exfalso.
    apply (Hnone p). exists b, (filter (λ q, q ∉ K) c). split.
    + by rewrite Ht, Hb.
    + by apply list_elem_of_filter.
  - intros p Hp. apply Hout. intros HpK. by apply Hp, HK.
  - intros env name. unfold __share_lookup, bucket.
    destruct (shares_table σ' !! hash_min env (share_name_hash env name)) as [c|] eqn:Hc;
      [|done].
    destruct c as [|p c]; [done|]. exfalso. apply (Hnone p). eexists _, _.
    split; [exact Hc|]. set_solver.
Qed.

(** ** Allocated shares, holders and queued frees in reachable configurations *)

(** X14.  In every configuration that callers of
    [ksmbd_share_config_get] and releases of what it returned reach from
    an empty table (the release steps follow the description of
    [ksmbd_share_config_put]): every share on the table is allocated;
    every share a caller holds, is unlinking or is about to free is
    allocated; a caller that holds a share can release it, and the
    release finds the count at zero exactly when that caller is the only
    holder; and a share whose free is queued is off the table, has no
    holder, and [deferred_share_free] frees it without a fault. *)
Theorem reachable_configurations_are_memory_safe env n σ ts :
  Z.of_nat n < 2 ^ 31 ->
  reachable env n (σ, ts) ->
  (forall p, in_table σ p -> is_Some (heap σ !! p))
  /\ (forall i t p, ts !! i = Some t -> refers p t = true -> is_Some (heap σ !! p))
  /\ (forall i name p,
        ts !! i = Some (Returned name (Some p)) ->
        exists last σ',
          atomic_dec_and_test p σ = Ok (last, σ')
          /\ (last = true <-> holders p ts = 1%nat))
  /\ (forall i p,
        ts !! i = Some (Freeing p) ->
        ~ in_table σ p
        /\ holders p ts = 0%nat
        /\ exists σ', deferred_share_free p σ = Ok (tt, σ') /\ heap σ' !! p = None).
Proof.
  intros Hn Hreach. pose proof (invariant_reachable env n _ Hn Hreach) as Hinv.
  cbn [fst snd] in Hinv. split; [|split; [|split]].
  - intros p (b & chain & Hb & Hp).
    destruct (inv_chain _ _ _ Hinv b chain Hb) as (_ & _ & Halloc).
    destruct (Halloc p Hp) as (s & Hs & _). by exists s.
  - apply (inv_alloc _ _ _ Hinv).
  - intros i name p Hi.
    destruct (inv_alloc _ _ _ Hinv i _ p Hi (refers_Returned name p)) as [s Hs].
    pose proof (inv_count _ _ _ Hinv p s Hs) as Hcount.
    pose proof (holders_pos p ts i _ Hi) as Hpos.
    rewrite holds_eq, bool_decide_eq_true in Hpos. specialize (Hpos eq_refl).
    pose proof (holders_le_length p ts) as Hle.
    pose proof (inv_size _ _ _ Hinv) as Hsize.
    unfold atomic_dec_and_test. rewrite bind_unfold. unfold load. rewrite Hs.
    cbv beta iota. rewrite bind_unfold. unfold assign. rewrite Hs. cbv beta iota.
    rewrite ret_unfold. eexists _, _. split; [reflexivity|].
    rewrite Z.eqb_eq, to_int_small by lia. lia.
  - intros i p Hi. split; [by apply (inv_freeing _ _ _ Hinv i)|].
    split.
    { apply (inv_drain0 _ _ _ Hinv i (Freeing p)); [done|].
      unfold draining. by rewrite bool_decide_eq_true_2. }
    destruct (inv_alloc _ _ _ Hinv i _ p Hi (refers_Freeing p)) as [s Hs].
    unfold deferred_share_free. rewrite (kill_share_unfold p s) by done.
    eexists. split; [reflexivity|]. cbn [heap]. apply lookup_delete_eq.
Qed.

(** ** No share is lost *)

Lemma accounted_step σ σ' ts i t t' :
  accounted σ ts ->
  ts !! i = Some t ->
  (forall p, in_table σ p -> is_Some (heap σ' !! p) ->
             in_table σ' p \/ refers p t' = true) ->
  (forall p, is_Some (heap σ' !! p) ->
             is_Some (heap σ !! p) \/ refers p t' = true \/ in_table σ' p) ->
  (forall p, refers p t = true -> is_Some (heap σ' !! p) ->
             refers p t' = true \/ in_table σ' p) ->
  (forall name p, t' = Returned name (Some p) -> in_table σ' p) ->
  (forall j name p, j ≠ i -> ts !! j = Some (Returned name (Some p)) -> in_table σ' p) ->
  accounted σ' (<[i := t']> ts).
Proof.
  intros [Hheld Hleak] Hi Htab Hheap Hown Hnew Hothers.
  assert (Hlen : (i < length ts)%nat) by by eapply lookup_lt_Some.
  split.
  - intros j name p Hj. apply list_lookup_insert_Some in Hj as [(-> & Heq & _) | (Hne & Hj)].
    + by eapply Hnew.
    + by eapply Hothers.
  - intros p Hp.
    assert (Hmine : refers p t' = true ->
              exists j u, <[i := t']> ts !! j = Some u /\ refers p u = true).
    { intros Hr. exists i, t'. split; [|done]. by apply list_lookup_insert_eq. }
    destruct (Hheap p Hp) as [Hold | [Hr | Hin]]; [|right; by apply Hmine|by left].
    destruct (Hleak p Hold) as [Hin | (j & u & Hj & Hr)].
    + destruct (Htab p Hin Hp) as [?|Hr]; [by left|right; by apply Hmine].
    + destruct (decide (j = i)) as [->|Hne].
      * assert (u = t) as -> by congruence.
        destruct (Hown p Hr Hp) as [Hr'|?]; [right; by apply Hmine|by left].
      * right. exists j, u. split; [|done]. by rewrite list_lookup_insert_ne.
Qed.

Lemma in_table_insert_head σ σ' b q chain p :
  shares_table σ' = <[b := q :: chain]> (shares_table σ) ->
  chain = default [] (shares_table σ !! b) ->
  in_table σ p -> in_table σ' p.
Proof.
  intros Ht -> (b' & c & Hb & Hp). destruct (decide (b' = b)) as [->|Hne].
  - exists b, (q :: c). rewrite Ht, lookup_insert_eq, Hb. cbn. split; [done|]. set_solver.
  - exists b', c. by rewrite Ht, lookup_insert_ne.
Qed.

Lemma in_table_unlinked σ σ' p q :
  shares_table σ' = filter (λ x, x ≠ p) <$> shares_table σ ->
  in_table σ q -> q ≠ p -> in_table σ' q.
Proof.
  intros Ht (b & c & Hb & Hq) Hne. exists b, (filter (λ x, x ≠ p) c).
  rewrite Ht, lookup_fmap, Hb. split; [done|]. by apply list_elem_of_filter.
Qed.

Lemma refers_eq p q t :
  refers p t = true ->
  (exists name, t = Built name q) \/ (exists name, t = Returned name (Some q))
  \/ t = Unlinking q \/ t = Freeing q ->
  p = q.
Proof.
  unfold refers, holds, draining.
  intros H [[n ->] | [[n ->] | [-> | ->]]];
    rewrite ?orb_false_r, ?orb_false_l in H; by apply bool_decide_eq_true in H.
Qed.

Lemma accounted_get_step env σ ts i t t' σ' :
  invariant env σ ts ->
  accounted σ ts ->
  ts !! i = Some t ->
  get_step env t σ t' σ' ->
  accounted σ' (<[i := t']> ts).
Proof.
  intros Hinv Hacc Hi Hstep. pose proof Hacc as [Hheld _]. destruct Hstep as
    [name p σ σ' Hl | name σ σ' Hl | name σ σ' Hf | name q σ σ' Hf | name q r σ σ' Hr].
  - (* the lookup hits *)
    apply lookup_get_Some in Hl as (s & Hl & Hp & Hrc & ->).
    apply share_lookup_in_table in Hl.
    apply (accounted_step σ _ ts i _ _ Hacc Hi); cbn [heap].
    + intros a Ha _. by left.
    + intros a Ha. left. destruct (decide (a = p)) as [->|Hne]; [done|].
      by rewrite lookup_insert_ne in Ha.
    + intros a Ha. done.
    + intros n a [= _ <-]. done.
    + intros j n a _ Hj. by eapply Hheld.
  - (* the lookup misses *)
    apply lookup_get_None in Hl as ->.
    apply (accounted_step σ _ ts i _ _ Hacc Hi); try done; try by auto.
    intros j n a _ Hj. by eapply Hheld.
  - (* the fetch fails *)
    apply fetch_spec in Hf as (Htab & _ & Hh).
    apply (accounted_step σ _ ts i _ _ Hacc Hi); try done.
    + intros a Ha _. left. by apply (in_table_ext σ σ' a Htab).
    + intros a Ha. left. by rewrite <- Hh.
    + intros j n a _ Hj. apply (in_table_ext σ σ' a Htab). by eapply Hheld.
  - (* the fetch builds a share *)
    apply fetch_spec in Hf as (Htab & _ & Hq & s & Hh & _).
    apply (accounted_step σ _ ts i _ _ Hacc Hi); try done.
    + intros a Ha _. left. by apply (in_table_ext σ σ' a Htab).
    + intros a Ha. rewrite Hh in Ha. destruct (decide (a = q)) as [->|Hne].
      * right. left. apply refers_Built.
      * left. by rewrite lookup_insert_ne in Ha.
    + intros j n a _ Hj. apply (in_table_ext σ σ' a Htab). by eapply Hheld.
  - (* the reconciliation *)
    apply reconcile_cases in Hr as (found & Hl & Hcase).
    destruct Hcase as [(-> & -> & Hfound) | (p & s & sq & -> & -> & Hp & Hrc & Hq & Hh & Htab & Htr)].
    + (* the share is added *)
      assert (Hmono : forall a, in_table σ a ->
                in_table (mk_state (heap σ)
                  (<[hash_min env (share_name_hash env name) :=
                       q :: bucket env (share_name_hash env name) σ]> (shares_table σ))
                  (trace σ)) a).
      { intros a. by apply (in_table_insert_head σ _ (hash_min env (share_name_hash env name)) q
                       (bucket env (share_name_hash env name) σ) a). }
      apply (accounted_step σ _ ts i _ _ Hacc Hi); cbn [heap].
      * intros a Ha _. left. by apply Hmono.
      * intros a Ha. by left.
      * intros a Ha _. left. rewrite (refers_eq a q _ Ha) by eauto. apply refers_Returned.
      * intros n a [= _ <-]. eexists _, _. cbn [shares_table].
        rewrite lookup_insert_eq. split; [done|]. set_solver.
      * intros j n a _ Hj. apply Hmono. by eapply Hheld.
    + (* a live share was found *)
      apply share_lookup_in_table in Hl.
      apply (accounted_step σ _ ts i _ _ Hacc Hi).
      * intros a Ha _. left. by apply (in_table_ext σ σ' a Htab).
      * intros a Ha. left. rewrite Hh in Ha.
        destruct (decide (a = q)) as [->|Hne]; [by rewrite lookup_delete_eq in Ha; destruct Ha|].
        rewrite lookup_delete_ne in Ha by done.
        destruct (decide (a = p)) as [->|Hne']; [done|].
        by rewrite lookup_insert_ne in Ha.
      * intros a Ha Halloc. rewrite (refers_eq a q _ Ha) in Halloc by eauto.
        rewrite Hh, lookup_delete_eq in Halloc. by destruct Halloc.
      * intros n a [= _ <-]. by apply (in_table_ext σ σ' p Htab).
      * intros j n a _ Hj. apply (in_table_ext σ σ' a Htab). by eapply Hheld.
Qed.

Lemma accounted_thread_step env σ ts i t t' σ' :
  invariant env σ ts ->
  accounted σ ts ->
  ts !! i = Some t ->
  thread_step env t σ t' σ' ->
  accounted σ' (<[i := t']> ts).
Proof.
  intros Hinv Hacc Hi Hstep. pose proof Hacc as [Hheld _]. destruct Hstep as
    [t σ t' σ' Hg | name σ | name σ | name p σ σ' Hd | name p σ σ' Hd
    | p σ σ' Hu | p σ σ' Hf].
  - by eapply accounted_get_step.
  - apply (accounted_step σ _ ts i _ _ Hacc Hi); try done; try by auto.
    intros j n a _ Hj. by eapply Hheld.
  - apply (accounted_step σ _ ts i _ _ Hacc Hi); try done; try by auto.
    intros j n a _ Hj. by eapply Hheld.
  - (* a release that is not the last *)
    apply atomic_dec_and_test_Ok in Hd as (s & Hs & _ & ->).
    apply (accounted_step σ _ ts i _ _ Hacc Hi); cbn [heap]; try done.
    + intros a Ha _. by left.
    + intros a Ha. left. destruct (decide (a = p)) as [->|Hne]; [done|].
      by rewrite lookup_insert_ne in Ha.
    + intros a Ha _. right. rewrite (refers_eq a p _ Ha) by eauto.
      by apply (Hheld i name p).
    + intros j n a _ Hj. by eapply Hheld.
  - (* the last release *)
    apply atomic_dec_and_test_Ok in Hd as (s & Hs & _ & ->).
    apply (accounted_step σ _ ts i _ _ Hacc Hi); cbn [heap]; try done.
    + intros a Ha _. by left.
    + intros a Ha. left. destruct (decide (a = p)) as [->|Hne]; [done|].
      by rewrite lookup_insert_ne in Ha.
    + intros a Ha _. left. rewrite (refers_eq a p _ Ha) by eauto.
      apply refers_Unlinking.
    + intros j n a _ Hj. by eapply Hheld.
  - (* the share is unlinked *)
    rewrite share_config_put_unfold in Hu. injection Hu as <-.
    assert (Hzero : holders p ts = 0%nat).
    { apply (inv_drain0 _ _ _ Hinv i (Unlinking p)); [done|].
      unfold draining. by rewrite bool_decide_eq_true_2. }
    apply (accounted_step σ _ ts i _ _ Hacc Hi); cbn [heap]; try done.
    + intros a Ha _. destruct (decide (a = p)) as [->|Hne].
      * right. apply refers_Freeing.
      * left. by apply (in_table_unlinked σ _ p a).
    + intros a Ha. by left.
    + intros a Ha _. left. rewrite (refers_eq a p _ Ha) by eauto.
      apply refers_Freeing.
    + intros j n a _ Hj. apply (in_table_unlinked σ _ p a); [done|by eapply Hheld|].
      intros ->. pose proof (holders_pos p ts j _ Hj) as Hpos.
      rewrite holds_eq, bool_decide_eq_true in Hpos. specialize (Hpos eq_refl). lia.
  - (* the share is freed *)
    unfold deferred_share_free in Hf.
    destruct (kill_share_Ok _ _ _ Hf) as [s Hs].
    rewrite (kill_share_unfold p s) in Hf by done. injection Hf as <-.
    apply (accounted_step σ _ ts i _ _ Hacc Hi); cbn [heap]; try done.
    + intros a Ha _. by left.
    + intros a Ha. left. destruct (decide (a = p)) as [->|Hne].
      * rewrite lookup_delete_eq in Ha. by destruct Ha.
      * by rewrite lookup_delete_ne in Ha.
    + intros a Ha Halloc. rewrite (refers_eq a p _ Ha) in Halloc by eauto.
      rewrite lookup_delete_eq in Halloc. by destruct Halloc.
    + intros j n a _ Hj. by eapply Hheld.
Qed.

Lemma accounted_initial n : accounted empty_state (replicate n Idle).
Proof.
  split.
  - intros i name p Hi. by apply lookup_replicate in Hi as [? _].
  - intros p [s Hs]. unfold empty_state in Hs. cbn [heap] in Hs. by rewrite lookup_empty in Hs.
Qed.

Lemma accounted_rtc env c c' :
  rtc (interleave (thread_step env)) c c' ->
  invariant env c.1 c.2 -> accounted c.1 c.2 -> accounted c'.1 c'.2.
Proof.
  intros Hrtc. induction Hrtc as [c|c1 c2 c3 Hstep _ IH]; [done|].
  intros Hinv Hacc. destruct Hstep as [i t t' σ σ' ts Hi Hs]. cbn in *. apply IH.
  - by eapply invariant_thread_step.
  - by eapply accounted_thread_step.
Qed.

(** X15.  In every configuration that callers and releases reach from
    an empty table, no share is lost: a share that a call returned and
    its caller has not released yet is on the table, and every allocated
    share is on the table or in the hands of a thread that has built it,
    holds it, is unlinking it or is about to free it. *)
Theorem reachable_configurations_lose_no_share env n σ ts :
  Z.of_nat n < 2 ^ 31 ->
  reachable env n (σ, ts) ->
  (forall i name p, ts !! i = Some (Returned name (Some p)) -> in_table σ p)
  /\ (forall p, is_Some (heap σ !! p) ->
        in_table σ p \/ exists i t, ts !! i = Some t /\ refers p t = true).
Proof.
  intros Hn Hreach.
  apply (accounted_rtc env _ _ Hreach).
  - by apply invariant_initial.
  - apply accounted_initial.
Qed.

(** ** Unlinking a share *)

Lemma Forall_filter_keep {A} (P : A -> Prop) (Q : A -> Prop)
    `{!forall x, Decision (Q x)} (l : list A) :
  Forall P l -> Forall P (filter Q l).
Proof.
  rewrite !Forall_forall. intros Hall x Hx.
  apply list_elem_of_filter in Hx as [_ Hx]. by apply Hall.
Qed.

Lemma lookup_chain_unlinked name chain p σ σ' r :
  heap σ' = heap σ ->
  lookup_chain name chain σ = Ok (r, σ) ->
  r ≠ Some p ->
  lookup_chain name (filter (λ q, q ≠ p) chain) σ' = Ok (r, σ').
Proof.
  intros Hh Hrun Hr. destruct r as [q|].
  - apply lookup_chain_Some in Hrun as (l1 & l2 & s & -> & Hl1 & Hs & Hname).
    rewrite filter_app, filter_cons_True by congruence.
    apply (lookup_chain_found name _ q _ s); rewrite ?Hh; [|done..].
    by apply Forall_filter_keep.
  - apply lookup_chain_None in Hrun. apply lookup_chain_missing.
    rewrite Hh. by apply Forall_filter_keep.
Qed.

(** X16.  [__ksmbd_share_config_put] takes the share off the table and
    queues the free, and that is all: the share stays allocated until
    [deferred_share_free] runs, every other share stays on the table,
    no later [__share_lookup] returns the share, and a lookup that
    found another share, or none, finds the same afterwards. *)
Theorem unlinked_share_is_not_found env share σ :
  exists σ',
    __ksmbd_share_config_put share σ = Ok (tt, σ')
    /\ heap σ' = heap σ
    /\ events_of σ σ' = [EScheduleWork share]
    /\ ~ in_table σ' share
    /\ (forall q, q ≠ share -> in_table σ' q <-> in_table σ q)
    /\ (forall name r σ'', __share_lookup env name σ' = Ok (r, σ'') -> r ≠ Some share)
    /\ (forall name r,
          __share_lookup env name σ = Ok (r, σ) -> r ≠ Some share ->
          __share_lookup env name σ' = Ok (r, σ')).
Proof.
  rewrite share_config_put_unfold. eexists. split; [reflexivity|].
  set (σ' := mk_state _ _ _).
  assert (Ht : shares_table σ' = filter (λ x, x ≠ share) <$> shares_table σ) by done.
  assert (Hoff : ~ in_table σ' share).
  { intros Hin. by destruct (in_table_filter σ σ' share share Ht Hin). }
  split; [done|]. split; [by apply events_of_app|]. split; [exact Hoff|].
  split; [|split].
  - intros q Hne. split.
    + intros Hin. by destruct (in_table_filter σ σ' share q Ht Hin).
    + intros Hin. by apply (in_table_unlinked σ σ' share q).
  - intros name r σ'' Hrun ->. apply Hoff.
    pose proof (share_lookup_state _ _ _ _ _ Hrun) as ->.
    by eapply share_lookup_in_table.
  - intros name r Hrun Hr. unfold __share_lookup, bucket in *.
    rewrite Ht, lookup_fmap.
    destruct (shares_table σ !! hash_min env (share_name_hash env name)) as [c|]; cbn in *.
    + by apply (lookup_chain_unlinked name c share σ σ' r).
    + by injection Hrun as <-.
Qed.

(** ** A fetch returns NULL only when something failed *)



(** * The further properties on concrete inputs *)

(** X1: no response, and a response with the invalid flags. *)
Lemma request_without_response_witness :
  share_config_request plain_env (lit "data") empty_state
  = Ok (None, mk_state (heap empty_state) (shares_table empty_state)
                (trace empty_state ++ [EIpc (lit "data")]))
  /\ share_config_request invalid_env (lit "data") empty_state
     = Ok (None, mk_state (heap empty_state) (shares_table empty_state)
                   (trace empty_state ++ [EIpc (lit "data")])).
Proof.
  split.
  - apply (request_without_response_builds_nothing plain_env (lit "data") empty_state).
    left. reflexivity.
  - apply (request_without_response_builds_nothing invalid_env (lit "data") empty_state).
    right. eexists. split; reflexivity.
Defined.

(** X2: [DaTa] and [data]. *)
Lemma get_is_case_insensitive_witness :
  ksmbd_share_config_get disk_env (lit "DaTa") empty_state
  = ksmbd_share_config_get disk_env (lit "data") empty_state.
Proof.
  apply (get_is_case_insensitive disk_env (lit "DaTa") (lit "data") empty_state).
  vm_compute. reflexivity.
Defined.


(** X4: the length 4294967295 of the response is -1 as an [int]. *)
Lemma parse_veto_list_no_length_witness :
  parse_veto_list plain_env 0%nat example_veto_buffer (to_int 4294967295) one_share_state
  = Ok (0, one_share_state).
Proof.
  apply (parse_veto_list_no_length plain_env 0%nat example_veto_buffer
           (to_int 4294967295) one_share_state).
  vm_compute. discriminate.
Defined.

(** X5: a length far beyond the buffer. *)
Lemma parse_veto_list_terminates_witness :
  parse_veto_list plain_env 0%nat example_veto_buffer 1000 one_share_state ≠ Fuel.
Proof.
  apply (parse_veto_list_terminates plain_env 0%nat example_veto_buffer 1000
           one_share_state).
  - vm_compute. reflexivity.
  - lia.
Defined.

(** X7: no credentials can be prepared. *)
Lemma override_fsids_without_cred_witness :
  ksmbd_override_fsids credless_env example_session root_forced_share example_task_cred
  = (inl (- ENOMEM), example_task_cred).
Proof.
  apply (override_fsids_without_cred credless_env example_session root_forced_share
           example_task_cred).
  reflexivity.
Defined.

(** X8: the two patterns in both orders. *)
Lemma veto_filename_ignores_order_witness :
  ksmbd_share_veto_filename plain_env vetoing_share (lit "secret.txt")
  = ksmbd_share_veto_filename plain_env vetoing_share_swapped (lit "secret.txt").
Proof.
  apply (veto_filename_ignores_order plain_env vetoing_share vetoing_share_swapped
           (lit "secret.txt")).
  apply perm_swap.
Defined.

(** X9: the two-pattern buffer. *)
Lemma parsed_buffer_vetoes_witness :
  exists σ' s',
    parse_veto_list plain_env 0%nat (pack [lit "*.tmp"; lit "secret*"] ++ []) 14
      one_share_state = Ok (0, σ')
    /\ heap σ' !! 0%nat = Some s'
    /\ forall filename,
         ksmbd_share_veto_filename plain_env s' filename = true
         <-> exists pattern,
               pattern ∈ [lit "*.tmp"; lit "secret*"]
               /\ match_wildcard plain_env pattern filename = true.
Proof.
  apply (parsed_buffer_vetoes_its_patterns plain_env 0%nat zero_share
           [lit "*.tmp"; lit "secret*"] [] 14 [lit "*.tmp"; lit "secret*"]
           one_share_state).
  - reflexivity.
  - repeat constructor; try (apply (bool_decide_unpack _); vm_compute; exact I);
      vm_compute; reflexivity.
  - lia.
  - reflexivity.
  - reflexivity.
  - vm_compute. reflexivity.
Defined.

(** X10: the disk share of the examples, fetched into an empty table. *)
Lemma request_builds_disk_share_witness :
  exists σ',
    share_config_request disk_env (lit "data") empty_state
    = Ok (Some (fresh (dom (heap empty_state))), σ')
    /\ heap σ' =
         <[fresh (dom (heap empty_state)) :=
             mk_share (Some (lit "data")) (Some (resp_path example_disk_resp))
               (Z.of_nat (length (resp_path example_disk_resp)) mod 2 ^ 32)
               (resp_flags example_disk_resp)
               (rev [lit "*.tmp"; lit "secret*"]) 7 1
               (resp_create_mask example_disk_resp)
               (resp_directory_mask example_disk_resp)
               (resp_force_create_mode example_disk_resp)
               (resp_force_directory_mode example_disk_resp)
               (resp_force_uid example_disk_resp)
               (resp_force_gid example_disk_resp)]> (heap empty_state)
    /\ shares_table σ' =
         <[hash_min disk_env (share_name_hash disk_env (lit "data")) :=
             fresh (dom (heap empty_state))
             :: bucket disk_env (share_name_hash disk_env (lit "data")) empty_state]>
           (shares_table empty_state).
Proof.
  apply (request_builds_disk_share disk_env (lit "data") example_disk_resp
           [lit "*.tmp"; lit "secret*"] [] [lit "*.tmp"; lit "secret*"] 7 empty_state).
  - reflexivity.
  - vm_compute. discriminate.
  - vm_compute. reflexivity.
  - reflexivity.
  - reflexivity.
  - vm_compute. reflexivity.
  - repeat constructor; try (apply (bool_decide_unpack _); vm_compute; exact I);
      vm_compute; reflexivity.
  - vm_compute. reflexivity.
  - vm_compute. reflexivity.
Defined.

(** X11: the pipe share whose name could not be copied. *)
Lemma pipe_share_without_name_witness :
  exists s σ',
    share_config_request nameless_pipe_env (lit "ipc$") empty_state
    = Ok (Some (fresh (dom (heap empty_state))), σ')
    /\ heap σ' !! fresh (dom (heap empty_state)) = Some s
    /\ sc_name s = None
    /\ forall name',
         hash_min nameless_pipe_env (share_name_hash nameless_pipe_env name')
         = hash_min nameless_pipe_env (share_name_hash nameless_pipe_env (lit "ipc$")) ->
         __share_lookup nameless_pipe_env name' σ' = Oops.
Proof.
  apply (pipe_share_without_name_breaks_lookups nameless_pipe_env (lit "ipc$")
           example_pipe_resp empty_state).
  - reflexivity.
  - vm_compute. discriminate.
  - vm_compute. reflexivity.
  - reflexivity.
  - reflexivity.
  - vm_compute. reflexivity.
Defined.

(** X12: [DaTa] is fetched, then [data] is found. *)
Lemma get_after_get_hits_witness :
  exists σ1,
    ksmbd_share_config_get disk_env (lit "DaTa") empty_state
    = Ok ((lit "data", Some 0%nat), σ1)
    /\ exists s1,
         heap σ1 !! 0%nat = Some s1
         /\ sc_name s1 = Some (strtolower disk_env (lit "DaTa"))
         /\ sc_refcount s1 ≠ 0
         /\ ksmbd_share_config_get disk_env (lit "data") σ1
            = Ok ((lit "data", Some 0%nat),
                  mk_state
                    (<[0%nat := set_refcount (to_int (sc_refcount s1 + 1)) s1]> (heap σ1))
                    (shares_table σ1) (trace σ1)).
Proof.
  assert (Hrun : exists σ1,
    ksmbd_share_config_get disk_env (lit "DaTa") empty_state
    = Ok ((lit "data", Some 0%nat), σ1)
    /\ EAlloc DupName false ∉ trace σ1).
  { eexists. split; [vm_compute; reflexivity|].
    apply (bool_decide_unpack _). vm_compute. exact I. }
  destruct Hrun as (σ1 & Hrun & Hnofail). exists σ1. split; [exact Hrun|].
  apply (get_after_get_hits disk_env (lit "DaTa") (lit "data") empty_state
           (lit "data") 0%nat σ1).
  - intros a (b & chain & Hb & _). unfold empty_state in Hb. cbn [shares_table] in Hb.
    by rewrite lookup_empty in Hb.
  - exact Hrun.
  - exact Hnofail.
  - vm_compute. reflexivity.
Defined.

(** X13: the chain of two shares is swept; the share off the table
    stays. *)
Lemma cleanup_empties_the_table_witness :
  exists σ',
    ksmbd_share_configs_cleanup two_chain_state = Ok (tt, σ')
    /\ (forall p, ~ in_table σ' p)
    /\ (forall p, in_table two_chain_state p -> heap σ' !! p = None)
    /\ (forall p, ~ in_table two_chain_state p -> heap σ' !! p = heap two_chain_state !! p)
    /\ (exists evs, trace σ' = trace two_chain_state ++ evs /\ Forall put_event evs)
    /\ forall env name, __share_lookup env name σ' = Ok (None, σ').
Proof.
  apply (cleanup_empties_the_table two_chain_state).
  - intros b chain Hb. unfold two_chain_state in Hb. cbn [shares_table] in Hb.
    apply lookup_singleton_Some in Hb as [<- <-]. split.
    + repeat constructor; set_solver.
    + intros p Hp. apply elem_of_cons in Hp as [->|Hp]; [by eexists|].
      apply list_elem_of_singleton in Hp as ->. by eexists.
  - intros b chain Hb. unfold two_chain_state in Hb. cbn [shares_table] in Hb.
    apply lookup_singleton_Some in Hb as [<- <-]. lia.
Defined.

Lemma race_done_reachable :
  reachable disk_env 2
    (race_done, [Returned (lit "data") (Some 0%nat); Returned (lit "data") (Some 0%nat)]).
Proof.
  unfold reachable. etrans; [exact race_reachable|].
  apply get_steps_are_steps. exact race_run.
Qed.

(** X14: after the race of two callers. *)
Lemma reachable_memory_safe_witness :
  (forall p, in_table race_done p -> is_Some (heap race_done !! p))
  /\ (forall i t p,
        [Returned (lit "data") (Some 0%nat); Returned (lit "data") (Some 0%nat)] !! i
        = Some t ->
        refers p t = true -> is_Some (heap race_done !! p))
  /\ (forall i name p,
        [Returned (lit "data") (Some 0%nat); Returned (lit "data") (Some 0%nat)] !! i
        = Some (Returned name (Some p)) ->
        exists last σ',
          atomic_dec_and_test p race_done = Ok (last, σ')
          /\ (last = true
              <-> holders p [Returned (lit "data") (Some 0%nat);
                             Returned (lit "data") (Some 0%nat)] = 1%nat))
  /\ (forall i p,
        [Returned (lit "data") (Some 0%nat); Returned (lit "data") (Some 0%nat)] !! i
        = Some (Freeing p) ->
        ~ in_table race_done p
        /\ holders p [Returned (lit "data") (Some 0%nat);
                      Returned (lit "data") (Some 0%nat)] = 0%nat
        /\ exists σ', deferred_share_free p race_done = Ok (tt, σ') /\ heap σ' !! p = None).
Proof.
  exact (reachable_configurations_are_memory_safe disk_env 2 race_done
           [Returned (lit "data") (Some 0%nat); Returned (lit "data") (Some 0%nat)]
           ltac:(lia) race_done_reachable).
Defined.

(** X15: after the race of two callers. *)
Lemma reachable_lose_no_share_witness :
  (forall i name p,
     [Returned (lit "data") (Some 0%nat); Returned (lit "data") (Some 0%nat)] !! i
     = Some (Returned name (Some p)) ->
     in_table race_done p)
  /\ (forall p, is_Some (heap race_done !! p) ->
        in_table race_done p
        \/ exists i t,
             [Returned (lit "data") (Some 0%nat); Returned (lit "data") (Some 0%nat)] !! i
             = Some t
             /\ refers p t = true).
Proof.
  exact (reachable_configurations_lose_no_share disk_env 2 race_done
           [Returned (lit "data") (Some 0%nat); Returned (lit "data") (Some 0%nat)]
           ltac:(lia) race_done_reachable).
Defined.

